(** * Bit packing of quantised symbols (compress/bytepacker.h) and the
      compressed weight column built on it (offringastman/offringaweightcol.cpp).

    The C++ code walks raw pointers over two arrays.  A pointer is modelled
    as an array together with an index into it; reading or writing outside
    the array (undefined behaviour in C++) yields [None].  [unsigned] values
    are integers modulo 2^32, [unsigned char] values integers modulo 2^8, and
    the conversions that C++ performs implicitly on assignment are written
    out.  [size_t] counters are natural numbers: the code only divides them
    and multiplies the quotient back, so they never wrap. *)

From Stdlib Require Import ZArith Lia List Bool ZifyNat.
From stdpp Require Import base option list strings gmap.

(** ** Machine integers *)

(** Conversion to [unsigned char]. *)
Definition to_uchar (v : Z) : Z := (v mod 256)%Z.

(** Conversion to (and arithmetic in) [unsigned]. *)
Definition to_unsigned (v : Z) : Z := (v mod 4294967296)%Z.

Definition is_uchar (v : Z) : Prop := (0 <= v < 256)%Z.

(** A symbol that fits in [w] bits. *)
Definition fits (w : nat) (v : Z) : Prop := (0 <= v < 2 ^ Z.of_nat w)%Z.

(** ** Memory accesses through a pointer [(mem, p)] *)

(** [*p = v] for an [unsigned char *p]. *)
Definition store8 (mem : list Z) (p : nat) (v : Z) : option (list Z) :=
  _ ← mem !! p; Some (<[p := to_uchar v]> mem).

(** [*p |= v] for an [unsigned char *p]: the byte is promoted, or-ed with
    [v] and converted back. *)
Definition or8 (mem : list Z) (p : nat) (v : Z) : option (list Z) :=
  x ← mem !! p; Some (<[p := to_uchar (Z.lor x v)]> mem).

(** [*p = v] for an [unsigned *p]. *)
Definition store32 (mem : list Z) (p : nat) (v : Z) : option (list Z) :=
  _ ← mem !! p; Some (<[p := to_unsigned v]> mem).

(** [*p |= v] for an [unsigned *p]. *)
Definition or32 (mem : list Z) (p : nat) (v : Z) : option (list Z) :=
  x ← mem !! p; Some (<[p := to_unsigned (Z.lor x v)]> mem).

(** [for(size_t i=0; i!=limit; i++) body]: the body runs [limit] times on
    the loop-carried state. *)
Fixpoint for_loop {St : Type} (limit : nat) (body : St → option St) (st : St)
  : option St :=
  match limit with
  | 0 => Some st
  | S limit => st ← body st; for_loop limit body st
  end.

(** Number of bytes holding [symbolCount] symbols of [bitCount] bits:
    ceil(symbolCount * bitCount / 8). *)
Definition packed_size (bitCount symbolCount : nat) : nat :=
  (symbolCount * bitCount + 7) / 8.

Module BytePacker.

(** *** 6 bits per symbol *)

(** One iteration of the loop of [pack6]: four symbols into three bytes.
    The state is the destination array and the two walking pointers. *)
Definition pack6_body (sym : list Z) (st : list Z * nat * nat)
  : option (list Z * nat * nat) :=
  let '(mem, dest, symbolBuffer) := st in
  v ← sym !! symbolBuffer; mem ← store8 mem dest v;
  let symbolBuffer := symbolBuffer + 1 in
  v ← sym !! symbolBuffer;
  mem ← or8 mem dest (to_unsigned (Z.shiftl (Z.land v 3) 6));
  let dest := dest + 1 in
  v ← sym !! symbolBuffer; mem ← store8 mem dest (Z.shiftr (Z.land v 60) 2);
  let symbolBuffer := symbolBuffer + 1 in
  v ← sym !! symbolBuffer;
  mem ← or8 mem dest (to_unsigned (Z.shiftl (Z.land v 15) 4));
  let dest := dest + 1 in
  v ← sym !! symbolBuffer; mem ← store8 mem dest (Z.shiftr (Z.land v 48) 4);
  let symbolBuffer := symbolBuffer + 1 in
  v ← sym !! symbolBuffer;
  mem ← or8 mem dest (to_unsigned (Z.shiftl v 2));
  let symbolBuffer := symbolBuffer + 1 in
  let dest := dest + 1 in
  Some (mem, dest, symbolBuffer).

(** [pack6(dest, symbolBuffer, symbolCount)]; the result is the destination
    array after the call. *)
Definition pack6 (mem : list Z) (dest : nat) (sym : list Z) (symbolBuffer : nat)
    (symbolCount : nat) : option (list Z) :=
  let limit := symbolCount / 4 in
  '(mem, dest, symbolBuffer) ← for_loop limit (pack6_body sym) (mem, dest, symbolBuffer);
  let pos := limit * 4 in
  if pos <? symbolCount then
    v ← sym !! symbolBuffer; mem ← store8 mem dest v;
    let pos := pos + 1 in
    if pos <? symbolCount then
      let symbolBuffer := symbolBuffer + 1 in
      v ← sym !! symbolBuffer;
      mem ← or8 mem dest (to_unsigned (Z.shiftl (Z.land v 3) 6));
      let dest := dest + 1 in
      v ← sym !! symbolBuffer; mem ← store8 mem dest (Z.shiftr (Z.land v 60) 2);
      let pos := pos + 1 in
      if pos <? symbolCount then
        let symbolBuffer := symbolBuffer + 1 in
        v ← sym !! symbolBuffer;
        mem ← or8 mem dest (to_unsigned (Z.shiftl (Z.land v 15) 4));
        let dest := dest + 1 in
        v ← sym !! symbolBuffer; store8 mem dest (Z.shiftr (Z.land v 48) 4)
      else Some mem
    else Some mem
  else Some mem.

(** One iteration of the loop of [unpack6]: three bytes into four symbols.
    The state is the symbol array and the two walking pointers. *)
Definition unpack6_body (packed : list Z) (st : list Z * nat * nat)
  : option (list Z * nat * nat) :=
  let '(mem, symbolBuffer, packedBuffer) := st in
  v ← packed !! packedBuffer; mem ← store32 mem symbolBuffer (Z.land v 63);
  let symbolBuffer := symbolBuffer + 1 in
  v ← packed !! packedBuffer;
  mem ← store32 mem symbolBuffer (Z.shiftr (Z.land v 192) 6);
  let packedBuffer := packedBuffer + 1 in
  v ← packed !! packedBuffer;
  mem ← or32 mem symbolBuffer (Z.shiftl (Z.land v 15) 2);
  let symbolBuffer := symbolBuffer + 1 in
  v ← packed !! packedBuffer;
  mem ← store32 mem symbolBuffer (Z.shiftr (Z.land v 240) 4);
  let packedBuffer := packedBuffer + 1 in
  v ← packed !! packedBuffer;
  mem ← or32 mem symbolBuffer (Z.shiftl (Z.land v 3) 4);
  let symbolBuffer := symbolBuffer + 1 in
  v ← packed !! packedBuffer;
  mem ← store32 mem symbolBuffer (Z.shiftr (Z.land v 252) 2);
  let packedBuffer := packedBuffer + 1 in
  let symbolBuffer := symbolBuffer + 1 in
  Some (mem, symbolBuffer, packedBuffer).

(** [unpack6(symbolBuffer, packedBuffer, symbolCount)]; the result is the
    symbol array after the call. *)
Definition unpack6 (mem : list Z) (symbolBuffer : nat) (packed : list Z)
    (packedBuffer : nat) (symbolCount : nat) : option (list Z) :=
  let limit := symbolCount / 4 in
  '(mem, symbolBuffer, packedBuffer) ←
    for_loop limit (unpack6_body packed) (mem, symbolBuffer, packedBuffer);
  let pos := limit * 4 in
  if pos <? symbolCount then
    v ← packed !! packedBuffer; mem ← store32 mem symbolBuffer (Z.land v 63);
    let pos := pos + 1 in
    if pos <? symbolCount then
      let symbolBuffer := symbolBuffer + 1 in
      v ← packed !! packedBuffer;
      mem ← store32 mem symbolBuffer (Z.shiftr (Z.land v 192) 6);
      let packedBuffer := packedBuffer + 1 in
      v ← packed !! packedBuffer;
      mem ← or32 mem symbolBuffer (Z.shiftl (Z.land v 15) 2);
      let pos := pos + 1 in
      if pos <? symbolCount then
        let symbolBuffer := symbolBuffer + 1 in
        v ← packed !! packedBuffer;
        mem ← store32 mem symbolBuffer (Z.shiftr (Z.land v 240) 4);
        let packedBuffer := packedBuffer + 1 in
        v ← packed !! packedBuffer;
        or32 mem symbolBuffer (Z.shiftl (Z.land v 3) 4)
      else Some mem
    else Some mem
  else Some mem.

(** *** 4 bits per symbol *)

Definition pack4_body (sym : list Z) (st : list Z * nat * nat)
  : option (list Z * nat * nat) :=
  let '(mem, dest, symbolBuffer) := st in
  v ← sym !! symbolBuffer; mem ← store8 mem dest v;
  let symbolBuffer := symbolBuffer + 1 in
  v ← sym !! symbolBuffer;
  mem ← or8 mem dest (to_unsigned (Z.shiftl v 4));
  let symbolBuffer := symbolBuffer + 1 in
  let dest := dest + 1 in
  Some (mem, dest, symbolBuffer).

Definition pack4 (mem : list Z) (dest : nat) (sym : list Z) (symbolBuffer : nat)
    (symbolCount : nat) : option (list Z) :=
  let limit := symbolCount / 2 in
  '(mem, dest, symbolBuffer) ← for_loop limit (pack4_body sym) (mem, dest, symbolBuffer);
  if negb (limit * 2 =? symbolCount) then
    v ← sym !! symbolBuffer; store8 mem dest v
  else Some mem.

Definition unpack4_body (packed : list Z) (st : list Z * nat * nat)
  : option (list Z * nat * nat) :=
  let '(mem, symbolBuffer, packedBuffer) := st in
  v ← packed !! packedBuffer; mem ← store32 mem symbolBuffer (Z.land v 15);
  let symbolBuffer := symbolBuffer + 1 in
  v ← packed !! packedBuffer;
  mem ← store32 mem symbolBuffer (Z.shiftr (Z.land v 240) 4);
  let symbolBuffer := symbolBuffer + 1 in
  let packedBuffer := packedBuffer + 1 in
  Some (mem, symbolBuffer, packedBuffer).

Definition unpack4 (mem : list Z) (symbolBuffer : nat) (packed : list Z)
    (packedBuffer : nat) (symbolCount : nat) : option (list Z) :=
  let limit := symbolCount / 2 in
  '(mem, symbolBuffer, packedBuffer) ←
    for_loop limit (unpack4_body packed) (mem, symbolBuffer, packedBuffer);
  if negb (limit * 2 =? symbolCount) then
    v ← packed !! packedBuffer; store32 mem symbolBuffer (Z.land v 15)
  else Some mem.

(** *** 8 bits per symbol *)

(** The loops index both arrays with the counter [i], which is carried in
    the state next to the array that is written. *)
Definition pack8_body (dest : nat) (sym : list Z) (symbolBuffer : nat)
    (st : list Z * nat) : option (list Z * nat) :=
  let '(mem, i) := st in
  v ← sym !! (symbolBuffer + i); mem ← store8 mem (dest + i) v;
  Some (mem, i + 1).

Definition pack8 (mem : list Z) (dest : nat) (sym : list Z) (symbolBuffer : nat)
    (symbolCount : nat) : option (list Z) :=
  '(mem, _) ← for_loop symbolCount (pack8_body dest sym symbolBuffer) (mem, 0);
  Some mem.

Definition unpack8_body (symbolBuffer : nat) (packed : list Z) (packedBuffer : nat)
    (st : list Z * nat) : option (list Z * nat) :=
  let '(mem, i) := st in
  v ← packed !! (packedBuffer + i); mem ← store32 mem (symbolBuffer + i) v;
  Some (mem, i + 1).

Definition unpack8 (mem : list Z) (symbolBuffer : nat) (packed : list Z)
    (packedBuffer : nat) (symbolCount : nat) : option (list Z) :=
  '(mem, _) ← for_loop symbolCount (unpack8_body symbolBuffer packed packedBuffer) (mem, 0);
  Some mem.

(** *** 12 bits per symbol *)

Definition pack12_body (sym : list Z) (st : list Z * nat * nat)
  : option (list Z * nat * nat) :=
  let '(mem, dest, symbolBuffer) := st in
  v ← sym !! symbolBuffer; mem ← store8 mem dest (Z.land v 255);
  let dest := dest + 1 in
  v ← sym !! symbolBuffer; mem ← store8 mem dest (Z.shiftr (Z.land v 3840) 8);
  let symbolBuffer := symbolBuffer + 1 in
  v ← sym !! symbolBuffer;
  mem ← or8 mem dest (to_unsigned (Z.shiftl (Z.land v 15) 4));
  let dest := dest + 1 in
  v ← sym !! symbolBuffer; mem ← store8 mem dest (Z.shiftr (Z.land v 4080) 4);
  let symbolBuffer := symbolBuffer + 1 in
  let dest := dest + 1 in
  Some (mem, dest, symbolBuffer).

Definition pack12 (mem : list Z) (dest : nat) (sym : list Z) (symbolBuffer : nat)
    (symbolCount : nat) : option (list Z) :=
  let limit := symbolCount / 2 in
  '(mem, dest, symbolBuffer) ← for_loop limit (pack12_body sym) (mem, dest, symbolBuffer);
  if negb (limit * 2 =? symbolCount) then
    v ← sym !! symbolBuffer; mem ← store8 mem dest (Z.land v 255);
    let dest := dest + 1 in
    v ← sym !! symbolBuffer; store8 mem dest (Z.shiftr (Z.land v 3840) 8)
  else Some mem.

Definition unpack12_body (packed : list Z) (st : list Z * nat * nat)
  : option (list Z * nat * nat) :=
  let '(mem, symbolBuffer, packedBuffer) := st in
  v ← packed !! packedBuffer; mem ← store32 mem symbolBuffer v;
  let packedBuffer := packedBuffer + 1 in
  v ← packed !! packedBuffer;
  mem ← or32 mem symbolBuffer (Z.shiftl (Z.land v 15) 8);
  let symbolBuffer := symbolBuffer + 1 in
  v ← packed !! packedBuffer;
  mem ← store32 mem symbolBuffer (Z.shiftr (Z.land v 240) 4);
  let packedBuffer := packedBuffer + 1 in
  v ← packed !! packedBuffer;
  mem ← or32 mem symbolBuffer (Z.shiftl (Z.land v 255) 4);
  let packedBuffer := packedBuffer + 1 in
  let symbolBuffer := symbolBuffer + 1 in
  Some (mem, symbolBuffer, packedBuffer).

Definition unpack12 (mem : list Z) (symbolBuffer : nat) (packed : list Z)
    (packedBuffer : nat) (symbolCount : nat) : option (list Z) :=
  let limit := symbolCount / 2 in
  '(mem, symbolBuffer, packedBuffer) ←
    for_loop limit (unpack12_body packed) (mem, symbolBuffer, packedBuffer);
  if negb (limit * 2 =? symbolCount) then
    v ← packed !! packedBuffer; mem ← store32 mem symbolBuffer v;
    let packedBuffer := packedBuffer + 1 in
    v ← packed !! packedBuffer;
    or32 mem symbolBuffer (Z.shiftl (Z.land v 15) 8)
  else Some mem.

(** *** Dispatch on a bit count known only at run time *)

(** The [switch] has no [default] (the [throw] is commented out): any other
    bit count falls through and the call returns normally. *)
Definition pack (bitCount : Z) (mem : list Z) (dest : nat) (sym : list Z)
    (symbolBuffer : nat) (symbolCount : nat) : option (list Z) :=
  match bitCount with
  | 4%Z => pack4 mem dest sym symbolBuffer symbolCount
  | 6%Z => pack6 mem dest sym symbolBuffer symbolCount
  | 8%Z => pack8 mem dest sym symbolBuffer symbolCount
  | 12%Z => pack12 mem dest sym symbolBuffer symbolCount
  | _ => Some mem
  end.

Definition unpack (bitCount : Z) (mem : list Z) (symbolBuffer : nat)
    (packed : list Z) (packedBuffer : nat) (symbolCount : nat) : option (list Z) :=
  match bitCount with
  | 4%Z => unpack4 mem symbolBuffer packed packedBuffer symbolCount
  | 6%Z => unpack6 mem symbolBuffer packed packedBuffer symbolCount
  | 8%Z => unpack8 mem symbolBuffer packed packedBuffer symbolCount
  | 12%Z => unpack12 mem symbolBuffer packed packedBuffer symbolCount
  | _ => Some mem
  end.

End BytePacker.

(** ** The four supported widths *)

Inductive width := W4 | W6 | W8 | W12.

Definition bits (w : width) : nat :=
  match w with W4 => 4 | W6 => 6 | W8 => 8 | W12 => 12 end.

(** The width-specific packer and unpacker for [w]. *)
Definition packW (w : width) :=
  match w with
  | W4 => BytePacker.pack4
  | W6 => BytePacker.pack6
  | W8 => BytePacker.pack8
  | W12 => BytePacker.pack12
  end.

Definition unpackW (w : width) :=
  match w with
  | W4 => BytePacker.unpack4
  | W6 => BytePacker.unpack6
  | W8 => BytePacker.unpack8
  | W12 => BytePacker.unpack12
  end.

(** ** The compressed weight column (offringaweightcol.cpp) *)

(** A [float] is modelled by its object representation, the [sizeof(float)]
    bytes that [reinterpret_cast<float*>] reads and writes; its numeric
    value plays no role here. *)
Record float := { float_b0 : Z; float_b1 : Z; float_b2 : Z; float_b3 : Z }.

Definition sizeof_float : nat := 4.

Definition float_bytes (x : float) : list Z :=
  [float_b0 x; float_b1 x; float_b2 x; float_b3 x].

(** [*reinterpret_cast<float*>(mem + p) = x]. *)
Definition store_float (mem : list Z) (p : nat) (x : float) : option (list Z) :=
  if p + sizeof_float <=? length mem
  then Some (take p mem ++ float_bytes x ++ drop (p + sizeof_float) mem)
  else None.

(** [*reinterpret_cast<float*>(mem + p)] read. *)
Definition load_float (mem : list Z) (p : nat) : option float :=
  b0 ← mem !! p; b1 ← mem !! (p + 1); b2 ← mem !! (p + 2); b3 ← mem !! (p + 3);
  Some {| float_b0 := b0; float_b1 := b1; float_b2 := b2; float_b3 := b3 |}.

(** How a call ends: it returns, it throws [OffringaStManError] (the state
    reached at the [throw] is kept), or its behaviour is undefined. *)
Inductive outcome (A : Type) :=
  | Return (a : A)
  | Throw (what : string) (a : A)
  | Undefined.
Arguments Return {A} a.
Arguments Throw {A} what a.
Arguments Undefined {A}.

(** Calls of the allocator, in the order in which they happen. A pointer is
    [None] when null, otherwise the object it points to. *)
Inductive heap_event :=
  | delete_encoder (p : option Z)
  | new_encoder (quantCount : Z)
  | delete_array (p : option (list Z))
  | new_array (size : nat).

(** [1 << n] on a 32-bit [int], for an [unsigned n]: the value 2^n as long
    as [int] can hold it, i.e. for [n < 31]. For [n = 31] the value 2^31 does
    not fit [int], and from 32 on the count reaches the width of [int] and
    the behaviour is undefined: no result is modelled there. *)
Definition int_shl1 (n : Z) : option Z :=
  if (n <? 31)%Z then Some (2 ^ n)%Z else None.

(** [std::vector::resize(n)]: the first [n] elements are kept and new
    elements are value-initialised. *)
Definition resize {A} (n : nat) (zero : A) (v : list A) : list A :=
  take n v ++ replicate (n - length v) zero.

(** Conversion of the value [v] to an unsigned integer type of [bits] bits:
    the value is reduced modulo 2^bits. *)
Definition to_width (bits : nat) (v : Z) : nat :=
  Z.to_nat (v mod 2 ^ Z.of_nat bits).

Module OffringaWeightColumn.

(** Modelled from the spec: the class declaration (offringaweightcol.h) is
    not among the source files, so the members are those that
    offringaweightcol.cpp uses. The counters hold natural numbers (the width
    of the type of [_symbolsPerCell] is a parameter of [Prepare]); the two
    owning pointers are [None] when null
    and otherwise hold the object they point to, an encoder being given by
    the number of levels it was created with. *)
Record column := {
  _bitsPerSymbol : Z;
  _symbolsPerCell : nat;
  _shape : list nat;
  _encoder : option Z;
  _symbolBuffer : list Z;
  _packBuffer : option (list Z);
  _dataCopyBuffer : list float;
}.

(** Modelled from the spec: [Stride()] is declared in the class header,
    which is not among the source files. Bytes per cell:
    [sizeof(float) + ceil(symbolsPerCell * bitsPerSymbol / 8)]. *)
Definition Stride (c : column) : nat :=
  sizeof_float + packed_size (Z.to_nat (_bitsPerSymbol c)) (_symbolsPerCell c).

Definition setShapeColumn (c : column) (shape : list nat) : column :=
  {| _bitsPerSymbol := _bitsPerSymbol c; _symbolsPerCell := _symbolsPerCell c;
     _shape := shape; _encoder := _encoder c; _symbolBuffer := _symbolBuffer c;
     _packBuffer := _packBuffer c; _dataCopyBuffer := _dataCopyBuffer c |}.

(** Modelled from the spec: [writeCompressedData] belongs to the storage
    manager, which is not among the source files. The storage keeps, per
    row, a buffer of exactly [stride] bytes: a write persists the first
    [stride] bytes of the buffer it is handed. *)
Definition writeCompressedData (storage : gmap nat (list Z)) (rowNr : nat)
    (buffer : list Z) (stride : nat) : option (gmap nat (list Z)) :=
  if stride <=? length buffer
  then Some (<[rowNr := take stride buffer]> storage)
  else None.

(** Modelled from the spec: [readCompressedData] belongs to the storage
    manager as well. A read copies the [stride] bytes of the row into the
    first [stride] bytes of the buffer. *)
Definition readCompressedData (storage : gmap nat (list Z)) (rowNr : nat)
    (buffer : list Z) (stride : nat) : option (list Z) :=
  row ← storage !! rowNr;
  if (length row =? stride) && (stride <=? length buffer)
  then Some (row ++ drop stride buffer)
  else None.

Section collaborators.
(** The symbol encoder is an external class. [Encode q symbolBuffer data]
    is what [WeightEncoder(q).Encode(scale, symbolBuffer, data)] leaves in
    [scale] and in [symbolBuffer]; [Decode q data scale symbols] is what
    [Decode(data, scale, symbols)] leaves in [data]. *)
Variable Encode : Z → list Z → list float → float * list Z.
Variable Decode : Z → list float → float → list Z → list float.
(** The bytes found in an array obtained from [new unsigned char[n]],
    which does not initialise them. *)
Variable junk : nat → Z.
(** The width in bits of the type of [_symbolsPerCell]. The member is
    declared in the class header, which is not among the source files; it
    counts symbols and is passed on as [size_t], so it is taken to be of an
    unsigned integer type, in which [_symbolsPerCell = 1] and
    [_symbolsPerCell *= *i] are computed modulo 2^count_bits. *)
Variable count_bits : nat.

Definition Prepare (c : column) : outcome (column * list heap_event) :=
  if (_bitsPerSymbol c =? 0)%Z
  then Throw "bitsPerSymbol not initialized in OffringaWeightCol" (c, [])
  else
    match int_shl1 (_bitsPerSymbol c) with
    | None => Undefined
    | Some quantCount =>
        let log := [delete_encoder (_encoder c); new_encoder quantCount] in
        let encoder := Some quantCount in
        let symbolsPerCell :=
          foldl (λ n i, to_width count_bits (Z.of_nat n * Z.of_nat i))
            (to_width count_bits 1) (_shape c) in
        let c :=
          {| _bitsPerSymbol := _bitsPerSymbol c; _symbolsPerCell := symbolsPerCell;
             _shape := _shape c; _encoder := encoder;
             _symbolBuffer := _symbolBuffer c; _packBuffer := _packBuffer c;
             _dataCopyBuffer := _dataCopyBuffer c |} in
        let log := log ++ [delete_array (_packBuffer c); new_array (Stride c)] in
        let packBuffer := Some (junk <$> seq 0 (Stride c)) in
        Return
          ({| _bitsPerSymbol := _bitsPerSymbol c; _symbolsPerCell := symbolsPerCell;
              _shape := _shape c; _encoder := encoder;
              _symbolBuffer := resize symbolsPerCell 0%Z (_symbolBuffer c);
              _packBuffer := packBuffer;
              _dataCopyBuffer :=
                resize symbolsPerCell
                  {| float_b0 := 0; float_b1 := 0; float_b2 := 0; float_b3 := 0 |}
                  (_dataCopyBuffer c) |}, log)
    end.

(** The result is the column after the call and the array written through
    [dataPtr], which holds [size] elements. *)
Definition getArrayfloatV (c : column) (storage : gmap nat (list Z))
    (rowNr : nat) (size : nat) : option (column * list float) :=
  packBuffer ← _packBuffer c;
  packBuffer ← readCompressedData storage rowNr packBuffer (Stride c);
  symbolBuffer ← BytePacker.unpack (_bitsPerSymbol c) (_symbolBuffer c) 0
                   packBuffer sizeof_float (_symbolsPerCell c);
  encoder ← _encoder c;
  scale ← load_float packBuffer 0;
  let dataCopyBuffer := Decode encoder (_dataCopyBuffer c) scale symbolBuffer in
  if size <=? length dataCopyBuffer then
    Some ({| _bitsPerSymbol := _bitsPerSymbol c;
             _symbolsPerCell := _symbolsPerCell c;
             _shape := _shape c; _encoder := _encoder c;
             _symbolBuffer := symbolBuffer; _packBuffer := Some packBuffer;
             _dataCopyBuffer := dataCopyBuffer |},
          take size dataCopyBuffer)
  else None.

(** The result is the column and the storage after the call. *)
Definition putArrayfloatV (c : column) (storage : gmap nat (list Z))
    (rowNr : nat) (dataPtr : list float) : option (column * gmap nat (list Z)) :=
  dataCopyBuffer ←
    (if length dataPtr <=? length (_dataCopyBuffer c)
     then Some (dataPtr ++ drop (length dataPtr) (_dataCopyBuffer c))
     else None);
  encoder ← _encoder c;
  packBuffer ← _packBuffer c;
  let '(scale, symbolBuffer) := Encode encoder (_symbolBuffer c) dataCopyBuffer in
  packBuffer ← store_float packBuffer 0 scale;
  packBuffer ← BytePacker.pack (_bitsPerSymbol c) packBuffer sizeof_float
                 symbolBuffer 0 (_symbolsPerCell c);
  storage ← writeCompressedData storage rowNr packBuffer (Stride c);
  Some ({| _bitsPerSymbol := _bitsPerSymbol c;
           _symbolsPerCell := _symbolsPerCell c;
           _shape := _shape c; _encoder := _encoder c;
           _symbolBuffer := symbolBuffer; _packBuffer := Some packBuffer;
           _dataCopyBuffer := dataCopyBuffer |}, storage).
End collaborators.

(** [~OffringaWeightColumn()]: the calls of the allocator that it makes. *)
Definition destructor (c : column) : list heap_event :=
  [delete_encoder (_encoder c); delete_array (_packBuffer c)].

End OffringaWeightColumn.

(** The product of the dimensions of a shape. *)
Definition product (shape : list nat) : nat := foldr Nat.mul 1 shape.

(** ** Closed forms of the packers

    What each loop iteration and each tail computes, as functions from the
    cells read to the cells written.  They are used to reason about the
    pointer-walking code above and are proved equal to it below. *)

(** [blocks g f t q l]: [f] applied to [q] consecutive groups of [g] cells
    of [l], then [t] applied to what is left. *)
Fixpoint blocks (g : nat) (f t : list Z → list Z) (q : nat) (l : list Z) : list Z :=
  match q with
  | 0 => t l
  | S q => f (take g l) ++ blocks g f t q (drop g l)
  end.

Definition no_tail (l : list Z) : list Z := [].

Definition pack6_group (c : list Z) : list Z :=
  match c with
  | [a; b; c; e] =>
      [to_uchar (Z.lor (to_uchar a) (to_unsigned (Z.shiftl (Z.land b 3) 6)));
       to_uchar (Z.lor (to_uchar (Z.shiftr (Z.land b 60) 2))
                       (to_unsigned (Z.shiftl (Z.land c 15) 4)));
       to_uchar (Z.lor (to_uchar (Z.shiftr (Z.land c 48) 4))
                       (to_unsigned (Z.shiftl e 2)))]
  | _ => []
  end.

Definition pack6_tail (c : list Z) : list Z :=
  match c with
  | [a] => [to_uchar a]
  | [a; b] =>
      [to_uchar (Z.lor (to_uchar a) (to_unsigned (Z.shiftl (Z.land b 3) 6)));
       to_uchar (Z.shiftr (Z.land b 60) 2)]
  | [a; b; c] =>
      [to_uchar (Z.lor (to_uchar a) (to_unsigned (Z.shiftl (Z.land b 3) 6)));
       to_uchar (Z.lor (to_uchar (Z.shiftr (Z.land b 60) 2))
                       (to_unsigned (Z.shiftl (Z.land c 15) 4)));
       to_uchar (Z.shiftr (Z.land c 48) 4)]
  | _ => []
  end.

Definition unpack6_group (c : list Z) : list Z :=
  match c with
  | [x; y; z] =>
      [to_unsigned (Z.land x 63);
       to_unsigned (Z.lor (to_unsigned (Z.shiftr (Z.land x 192) 6))
                          (Z.shiftl (Z.land y 15) 2));
       to_unsigned (Z.lor (to_unsigned (Z.shiftr (Z.land y 240) 4))
                          (Z.shiftl (Z.land z 3) 4));
       to_unsigned (Z.shiftr (Z.land z 252) 2)]
  | _ => []
  end.

Definition unpack6_tail (c : list Z) : list Z :=
  match c with
  | [x] => [to_unsigned (Z.land x 63)]
  | [x; y] =>
      [to_unsigned (Z.land x 63);
       to_unsigned (Z.lor (to_unsigned (Z.shiftr (Z.land x 192) 6))
                          (Z.shiftl (Z.land y 15) 2))]
  | [x; y; z] =>
      [to_unsigned (Z.land x 63);
       to_unsigned (Z.lor (to_unsigned (Z.shiftr (Z.land x 192) 6))
                          (Z.shiftl (Z.land y 15) 2));
       to_unsigned (Z.lor (to_unsigned (Z.shiftr (Z.land y 240) 4))
                          (Z.shiftl (Z.land z 3) 4))]
  | _ => []
  end.

Definition pack4_group (c : list Z) : list Z :=
  match c with
  | [a; b] => [to_uchar (Z.lor (to_uchar a) (to_unsigned (Z.shiftl b 4)))]
  | _ => []
  end.

Definition pack4_tail (c : list Z) : list Z :=
  match c with
  | [a] => [to_uchar a]
  | _ => []
  end.

Definition unpack4_group (c : list Z) : list Z :=
  match c with
  | [x] => [to_unsigned (Z.land x 15); to_unsigned (Z.shiftr (Z.land x 240) 4)]
  | _ => []
  end.

Definition unpack4_tail (c : list Z) : list Z :=
  match c with
  | [x] => [to_unsigned (Z.land x 15)]
  | _ => []
  end.

Definition pack12_group (c : list Z) : list Z :=
  match c with
  | [a; b] =>
      [to_uchar (Z.land a 255);
       to_uchar (Z.lor (to_uchar (Z.shiftr (Z.land a 3840) 8))
                       (to_unsigned (Z.shiftl (Z.land b 15) 4)));
       to_uchar (Z.shiftr (Z.land b 4080) 4)]
  | _ => []
  end.

Definition pack12_tail (c : list Z) : list Z :=
  match c with
  | [a] => [to_uchar (Z.land a 255); to_uchar (Z.shiftr (Z.land a 3840) 8)]
  | _ => []
  end.

Definition unpack12_group (c : list Z) : list Z :=
  match c with
  | [x; y; z] =>
      [to_unsigned (Z.lor (to_unsigned x) (Z.shiftl (Z.land y 15) 8));
       to_unsigned (Z.lor (to_unsigned (Z.shiftr (Z.land y 240) 4))
                          (Z.shiftl (Z.land z 255) 4))]
  | _ => []
  end.

Definition unpack12_tail (c : list Z) : list Z :=
  match c with
  | [x; y] => [to_unsigned (Z.lor (to_unsigned x) (Z.shiftl (Z.land y 15) 8))]
  | _ => []
  end.

(** The bytes that [packW w] writes for the symbols [l]. *)
Definition enc (w : width) (l : list Z) : list Z :=
  match w with
  | W4 => blocks 2 pack4_group pack4_tail (length l / 2) l
  | W6 => blocks 4 pack6_group pack6_tail (length l / 4) l
  | W8 => to_uchar <$> l
  | W12 => blocks 2 pack12_group pack12_tail (length l / 2) l
  end.

(** The [n] symbols that [unpackW w] writes for the packed bytes [l]. *)
Definition dec (w : width) (n : nat) (l : list Z) : list Z :=
  match w with
  | W4 => blocks 1 unpack4_group unpack4_tail (n / 2) l
  | W6 => blocks 3 unpack6_group unpack6_tail (n / 4) l
  | W8 => to_unsigned <$> l
  | W12 => blocks 3 unpack12_group unpack12_tail (n / 2) l
  end.

(** ** Notions used to state further properties *)

(** Symbols per group: the number of symbols one iteration of the packing
    loop of width [w] handles, filling whole bytes. *)
Definition group_size (w : width) : nat :=
  match w with W4 => 2 | W6 => 4 | W8 => 1 | W12 => 2 end.

(** The positions whose symbol the packer stores without masking it: the
    first symbol of each 4-bit pair and of each 6-bit group of four
    ([*dest = *symbolBuffer]). *)
Definition stored_unmasked (w : width) (i : nat) : Prop :=
  match w with
  | W4 => i mod 2 = 0
  | W6 => i mod 4 = 0
  | W8 | W12 => False
  end.

(** The low [bits w] bits of a symbol. *)
Definition truncate (w : width) (v : Z) : Z := (v mod 2 ^ Z.of_nat (bits w))%Z.

(** A column that can transfer cells, as [Prepare] leaves it: it holds an
    encoder with [quantCount] levels, a pack buffer of [Stride()] bytes and
    a symbol buffer of [symbolsPerCell] symbols. *)
Definition ready (quantCount : Z) (c : OffringaWeightColumn.column) : Prop :=
  OffringaWeightColumn._encoder c = Some quantCount ∧
  (∃ packBuffer,
     OffringaWeightColumn._packBuffer c = Some packBuffer ∧
     length packBuffer = OffringaWeightColumn.Stride c) ∧
  length (OffringaWeightColumn._symbolBuffer c) =
    OffringaWeightColumn._symbolsPerCell c.

(** [serves Encode Decode c c']: the column [c] becomes [c'] by a sequence
    of calls of [putArrayfloatV] and [getArrayfloatV] that return. *)
Inductive serves (Encode : Z → list Z → list float → float * list Z)
    (Decode : Z → list float → float → list Z → list float)
  : OffringaWeightColumn.column → OffringaWeightColumn.column → Prop :=
  | serves_done c : serves Encode Decode c c
  | serves_put c storage rowNr dataPtr c1 storage1 c2 :
      OffringaWeightColumn.putArrayfloatV Encode c storage rowNr dataPtr =
        Some (c1, storage1) →
      serves Encode Decode c1 c2 → serves Encode Decode c c2
  | serves_get c storage rowNr size c1 data c2 :
      OffringaWeightColumn.getArrayfloatV Decode c storage rowNr size =
        Some (c1, data) →
      serves Encode Decode c1 c2 → serves Encode Decode c c2.

(** * Proofs *)

(** ** Lists split around a window *)

Lemma app_take_drop {A} (pre l post : list A) n :
  (pre ++ take n l) ++ drop n l ++ post = pre ++ l ++ post.
Proof. by rewrite <- app_assoc, (app_assoc (take n l)), take_drop. Qed.

Lemma lookup_at {A} (pre l : list A) k : (pre ++ l) !! (length pre + k) = l !! k.
Proof. rewrite lookup_app_r by lia. f_equal. lia. Qed.

Lemma store8_at pre l k v :
  store8 (pre ++ l) (length pre + k) v = (pre ++.) <$> store8 l k v.
Proof.
  unfold store8. rewrite lookup_at.
  destruct (l !! k); simpl; [|done]. by rewrite insert_app_r.
Qed.

Lemma or8_at pre l k v :
  or8 (pre ++ l) (length pre + k) v = (pre ++.) <$> or8 l k v.
Proof.
  unfold or8. rewrite lookup_at.
  destruct (l !! k); simpl; [|done]. by rewrite insert_app_r.
Qed.

Lemma store32_at pre l k v :
  store32 (pre ++ l) (length pre + k) v = (pre ++.) <$> store32 l k v.
Proof.
  unfold store32. rewrite lookup_at.
  destruct (l !! k); simpl; [|done]. by rewrite insert_app_r.
Qed.

Lemma or32_at pre l k v :
  or32 (pre ++ l) (length pre + k) v = (pre ++.) <$> or32 l k v.
Proof.
  unfold or32. rewrite lookup_at.
  destruct (l !! k); simpl; [|done]. by rewrite insert_app_r.
Qed.

(** Symbolic execution of straight-line code whose two pointers stand at the
    ends of the prefixes [pre] and [ipre]. *)
Ltac at0 pre := replace (length pre) with (length pre + 0) by lia.
Ltac exec_step :=
  rewrite <- ?Nat.add_assoc; simpl;
  first [rewrite lookup_at | rewrite store8_at | rewrite or8_at
        | rewrite store32_at | rewrite or32_at ].
Ltac exec pre ipre :=
  at0 pre; at0 ipre; repeat exec_step; rewrite <- ?Nat.add_assoc; simpl.

(** A list of known length as its elements. *)
Ltac explode l :=
  repeat match goal with
  | H : length l = 0 |- _ => apply nil_length_inv in H; subst l
  | H : length l = S _ |- _ =>
      let x := fresh "x" in let l' := fresh l in
      destruct l as [|x l']; [discriminate H|]; simpl in H; injection H as H;
      explode l'
  end.

Ltac decide_ltb :=
  repeat match goal with
  | |- context [?a <? ?b] =>
      first [rewrite (proj2 (Nat.ltb_lt a b)) by lia
            | rewrite (proj2 (Nat.ltb_ge a b)) by lia]
  | |- context [?a =? ?b] =>
      first [rewrite (proj2 (Nat.eqb_eq a b)) by lia
            | rewrite (proj2 (Nat.eqb_neq a b)) by lia]
  end.

(** ** Group-wise loops *)

Section blocks.
Variables (g h : nat) (f : list Z → list Z).
Hypothesis f_length : ∀ c, length c = g → length (f c) = h.

Lemma blocks_take q : ∀ l,
  blocks g f no_tail q (take (q * g) l) = blocks g f no_tail q l.
Proof using Type.
  induction q as [|q IH]; intros l; simpl; [done|].
  rewrite take_take, <- (IH (drop g l)), <- take_drop_commute.
  do 3 f_equal; lia.
Qed.

Lemma blocks_tail t q : ∀ l,
  blocks g f t q l = blocks g f no_tail q l ++ t (drop (q * g) l).
Proof using Type.
  induction q as [|q IH]; intros l; simpl; [done|].
  rewrite IH, drop_drop, <- app_assoc. do 3 f_equal; lia.
Qed.

Lemma blocks_length t q : ∀ l,
  q * g ≤ length l →
  length (blocks g f t q l) = q * h + length (t (drop (q * g) l)).
Proof using f_length.
  induction q as [|q IH]; intros l Hl; simpl; [done|].
  rewrite length_app, f_length, IH, drop_drop;
    rewrite ?length_take, ?length_drop; lia.
Qed.

Lemma blocks_app t q : ∀ l r,
  length l = q * g → blocks g f t q (l ++ r) = blocks g f no_tail q l ++ t r.
Proof using Type.
  intros l r Hl. rewrite blocks_tail, drop_app_length' by done.
  by rewrite <- blocks_take, take_app_length' by done.
Qed.

Variable body : list Z → list Z * nat * nat → option (list Z * nat * nat).
Hypothesis body_at : ∀ ipre c irest opre w orest,
  length c = g → length w = h →
  body (ipre ++ c ++ irest) (opre ++ w ++ orest, length opre, length ipre) =
  Some (opre ++ f c ++ orest, length opre + h, length ipre + g).

(** [q] iterations read [q * g] cells, overwrite [q * h] cells and leave
    everything around them alone. *)
Lemma for_loop_blocks q : ∀ sym mem o i ipre inp irest opre win orest,
  sym = ipre ++ inp ++ irest → mem = opre ++ win ++ orest →
  o = length opre → i = length ipre →
  length inp = q * g → length win = q * h →
  for_loop q (body sym) (mem, o, i) =
  Some (opre ++ blocks g f no_tail q inp ++ orest, o + q * h, i + q * g).
Proof using f_length body_at.
  induction q as [|q IH];
    intros sym mem o i ipre inp irest opre win orest -> -> -> -> Hi Hw.
  - destruct inp; [|done]. destruct win; [|done]. simpl.
    do 2 f_equal; [f_equal|]; lia.
  - simpl.
    rewrite <- (app_take_drop ipre inp irest g), <- (app_take_drop opre win orest h).
    rewrite <- !app_assoc.
    rewrite body_at by (rewrite length_take; lia). simpl.
    rewrite (IH _ _ _ _ (ipre ++ take g inp) (drop g inp) irest
               (opre ++ f (take g inp)) (drop h win) orest).
    + rewrite <- !app_assoc. do 2 f_equal; [f_equal|]; lia.
    + by rewrite <- ?app_assoc.
    + by rewrite <- ?app_assoc.
    + rewrite length_app, f_length; [done|]. rewrite length_take; lia.
    + rewrite length_app, length_take; lia.
    + rewrite length_drop; lia.
    + rewrite length_drop; lia.
Qed.
End blocks.

#[local] Arguments to_uchar : simpl never.
#[local] Arguments to_unsigned : simpl never.
#[local] Arguments Z.land : simpl never.
#[local] Arguments Z.lor : simpl never.
#[local] Arguments Z.shiftl : simpl never.
#[local] Arguments Z.shiftr : simpl never.
#[local] Arguments Nat.div : simpl never.
#[local] Arguments Nat.mul : simpl never.

(** The loop followed by the code for the left-over cells: after the loop
    the pointers stand behind [q] groups, and the goal is reduced to running
    the tail code on the left-over input [itl] and output window [wtl]. *)
Ltac after_loop Hloop q g h inp win pre post ipre ipost :=
  rewrite <- (app_take_drop ipre inp ipost (q * g)),
          <- (app_take_drop pre win post (q * h)), <- !app_assoc;
  rewrite (blocks_tail g _ _ q inp), <- (blocks_take g _ q inp);
  let HC := fresh "HC" in
  pose proof (blocks_length g h _ ltac:(eassumption) no_tail q (take (q * g) inp)) as HC;
  let Hil := fresh "Hil" in pose proof (length_take inp (q * g)) as Hil;
  let Hwl := fresh "Hwl" in pose proof (length_take win (q * h)) as Hwl;
  let Hitl := fresh "Hitl" in pose proof (length_drop inp (q * g)) as Hitl;
  let Hwtl := fresh "Hwtl" in pose proof (length_drop win (q * h)) as Hwtl;
  erewrite Hloop;
    [|reflexivity|reflexivity|reflexivity|reflexivity|lia|lia];
  simpl;
  let C := fresh "C" in
  set (C := blocks g _ no_tail q (take (q * g) inp)) in *;
  rewrite <- ?(app_assoc C);
  rewrite ?(app_assoc pre C), ?(app_assoc ipre (take (q * g) inp));
  replace (length pre + q * h) with (length (pre ++ C))
    by (rewrite length_app; simpl in *; lia);
  replace (length ipre + q * g) with (length (ipre ++ take (q * g) inp))
    by (rewrite length_app; lia);
  generalize dependent (pre ++ C); generalize dependent (ipre ++ take (q * g) inp);
  generalize dependent (drop (q * g) inp); generalize dependent (drop (q * h) win);
  clear HC Hil Hwl.

(** Case analysis on the left-over cells: [few] holds at most three cells,
    and the length of [other] follows from it. *)
Ltac explode_by_lia l :=
  let H := fresh "H" in
  first [ assert (length l = 0) as H by lia
        | assert (length l = 1) as H by lia
        | assert (length l = 2) as H by lia
        | assert (length l = 3) as H by lia ];
  explode l.

Ltac tail_cases :=
  let wtl := fresh "wtl" in let itl := fresh "itl" in
  let pre' := fresh "pre'" in let ipre' := fresh "ipre'" in
  intros wtl Hwtl itl Hitl ipre' pre';
  first [ assert (length itl < 4) by lia;
          destruct itl as [|? [|? [|? [|]]]]; simpl in *; try lia;
          decide_ltb; simpl; explode_by_lia wtl
        | assert (length wtl < 4) by lia;
          destruct wtl as [|? [|? [|? [|]]]]; simpl in *; try lia;
          decide_ltb; simpl; explode_by_lia itl ];
  try reflexivity; exec pre' ipre'; reflexivity.

(** ** 6 bits *)

Lemma pack6_group_length c : length c = 4 → length (pack6_group c) = 3.
Proof. intros Hc. by explode c. Qed.

Lemma pack6_body_at ipre c irest opre w orest :
  length c = 4 → length w = 3 →
  BytePacker.pack6_body (ipre ++ c ++ irest) (opre ++ w ++ orest, length opre, length ipre) =
  Some (opre ++ pack6_group c ++ orest, length opre + 3, length ipre + 4).
Proof.
  intros Hc Hw. explode c. explode w. unfold BytePacker.pack6_body.
  exec opre ipre. reflexivity.
Qed.

Lemma pack6_at mem dest sym symbolBuffer pre win post spre syms spost :
  mem = pre ++ win ++ post → sym = spre ++ syms ++ spost →
  dest = length pre → symbolBuffer = length spre →
  length win = packed_size 6 (length syms) →
  BytePacker.pack6 mem dest sym symbolBuffer (length syms) =
  Some (pre ++ enc W6 syms ++ post).
Proof.
  intros -> -> -> -> Hw. unfold BytePacker.pack6, enc, packed_size in *.
  set (q := length syms / 4) in *.
  pose proof pack6_group_length as Hg.
  after_loop (for_loop_blocks 4 3 pack6_group pack6_group_length _ pack6_body_at)
    q 4 3 syms win pre post spre spost.
  tail_cases.
Qed.

Lemma unpack6_group_length c : length c = 3 → length (unpack6_group c) = 4.
Proof. intros Hc. by explode c. Qed.

Lemma unpack6_body_at ipre c irest opre w orest :
  length c = 3 → length w = 4 →
  BytePacker.unpack6_body (ipre ++ c ++ irest) (opre ++ w ++ orest, length opre, length ipre) =
  Some (opre ++ unpack6_group c ++ orest, length opre + 4, length ipre + 3).
Proof.
  intros Hc Hw. explode c. explode w. unfold BytePacker.unpack6_body.
  exec opre ipre. reflexivity.
Qed.

Lemma unpack6_at mem symbolBuffer packed packedBuffer pre win post ppre bytes ppost :
  mem = pre ++ win ++ post → packed = ppre ++ bytes ++ ppost →
  symbolBuffer = length pre → packedBuffer = length ppre →
  length bytes = packed_size 6 (length win) →
  BytePacker.unpack6 mem symbolBuffer packed packedBuffer (length win) =
  Some (pre ++ dec W6 (length win) bytes ++ post).
Proof.
  intros -> -> -> -> Hw. unfold BytePacker.unpack6, dec, packed_size in *.
  set (q := length win / 4) in *.
  pose proof unpack6_group_length as Hg.
  after_loop (for_loop_blocks 3 4 unpack6_group unpack6_group_length _ unpack6_body_at)
    q 3 4 bytes win pre post ppre ppost.
  tail_cases.
Qed.

(** ** 4 bits *)

Lemma pack4_group_length c : length c = 2 → length (pack4_group c) = 1.
Proof. intros Hc. by explode c. Qed.

Lemma pack4_body_at ipre c irest opre w orest :
  length c = 2 → length w = 1 →
  BytePacker.pack4_body (ipre ++ c ++ irest) (opre ++ w ++ orest, length opre, length ipre) =
  Some (opre ++ pack4_group c ++ orest, length opre + 1, length ipre + 2).
Proof.
  intros Hc Hw. explode c. explode w. unfold BytePacker.pack4_body.
  exec opre ipre. reflexivity.
Qed.

Lemma pack4_at mem dest sym symbolBuffer pre win post spre syms spost :
  mem = pre ++ win ++ post → sym = spre ++ syms ++ spost →
  dest = length pre → symbolBuffer = length spre →
  length win = packed_size 4 (length syms) →
  BytePacker.pack4 mem dest sym symbolBuffer (length syms) =
  Some (pre ++ enc W4 syms ++ post).
Proof.
  intros -> -> -> -> Hw. unfold BytePacker.pack4, enc, packed_size in *.
  set (q := length syms / 2) in *.
  pose proof pack4_group_length as Hg.
  after_loop (for_loop_blocks 2 1 pack4_group pack4_group_length _ pack4_body_at)
    q 2 1 syms win pre post spre spost.
  tail_cases.
Qed.

Lemma unpack4_group_length c : length c = 1 → length (unpack4_group c) = 2.
Proof. intros Hc. by explode c. Qed.

Lemma unpack4_body_at ipre c irest opre w orest :
  length c = 1 → length w = 2 →
  BytePacker.unpack4_body (ipre ++ c ++ irest) (opre ++ w ++ orest, length opre, length ipre) =
  Some (opre ++ unpack4_group c ++ orest, length opre + 2, length ipre + 1).
Proof.
  intros Hc Hw. explode c. explode w. unfold BytePacker.unpack4_body.
  exec opre ipre. reflexivity.
Qed.

Lemma unpack4_at mem symbolBuffer packed packedBuffer pre win post ppre bytes ppost :
  mem = pre ++ win ++ post → packed = ppre ++ bytes ++ ppost →
  symbolBuffer = length pre → packedBuffer = length ppre →
  length bytes = packed_size 4 (length win) →
  BytePacker.unpack4 mem symbolBuffer packed packedBuffer (length win) =
  Some (pre ++ dec W4 (length win) bytes ++ post).
Proof.
  intros -> -> -> -> Hw. unfold BytePacker.unpack4, dec, packed_size in *.
  set (q := length win / 2) in *.
  pose proof unpack4_group_length as Hg.
  after_loop (for_loop_blocks 1 2 unpack4_group unpack4_group_length _ unpack4_body_at)
    q 1 2 bytes win pre post ppre ppost.
  tail_cases.
Qed.

(** ** 12 bits *)

Lemma pack12_group_length c : length c = 2 → length (pack12_group c) = 3.
Proof. intros Hc. by explode c. Qed.

Lemma pack12_body_at ipre c irest opre w orest :
  length c = 2 → length w = 3 →
  BytePacker.pack12_body (ipre ++ c ++ irest) (opre ++ w ++ orest, length opre, length ipre) =
  Some (opre ++ pack12_group c ++ orest, length opre + 3, length ipre + 2).
Proof.
  intros Hc Hw. explode c. explode w. unfold BytePacker.pack12_body.
  exec opre ipre. reflexivity.
Qed.

Lemma pack12_at mem dest sym symbolBuffer pre win post spre syms spost :
  mem = pre ++ win ++ post → sym = spre ++ syms ++ spost →
  dest = length pre → symbolBuffer = length spre →
  length win = packed_size 12 (length syms) →
  BytePacker.pack12 mem dest sym symbolBuffer (length syms) =
  Some (pre ++ enc W12 syms ++ post).
Proof.
  intros -> -> -> -> Hw. unfold BytePacker.pack12, enc, packed_size in *.
  set (q := length syms / 2) in *.
  pose proof pack12_group_length as Hg.
  after_loop (for_loop_blocks 2 3 pack12_group pack12_group_length _ pack12_body_at)
    q 2 3 syms win pre post spre spost.
  tail_cases.
Qed.

Lemma unpack12_group_length c : length c = 3 → length (unpack12_group c) = 2.
Proof. intros Hc. by explode c. Qed.

Lemma unpack12_body_at ipre c irest opre w orest :
  length c = 3 → length w = 2 →
  BytePacker.unpack12_body (ipre ++ c ++ irest) (opre ++ w ++ orest, length opre, length ipre) =
  Some (opre ++ unpack12_group c ++ orest, length opre + 2, length ipre + 3).
Proof.
  intros Hc Hw. explode c. explode w. unfold BytePacker.unpack12_body.
  exec opre ipre. reflexivity.
Qed.

Lemma unpack12_at mem symbolBuffer packed packedBuffer pre win post ppre bytes ppost :
  mem = pre ++ win ++ post → packed = ppre ++ bytes ++ ppost →
  symbolBuffer = length pre → packedBuffer = length ppre →
  length bytes = packed_size 12 (length win) →
  BytePacker.unpack12 mem symbolBuffer packed packedBuffer (length win) =
  Some (pre ++ dec W12 (length win) bytes ++ post).
Proof.
  intros -> -> -> -> Hw. unfold BytePacker.unpack12, dec, packed_size in *.
  set (q := length win / 2) in *.
  pose proof unpack12_group_length as Hg.
  after_loop (for_loop_blocks 3 2 unpack12_group unpack12_group_length _ unpack12_body_at)
    q 3 2 bytes win pre post ppre ppost.
  tail_cases.
Qed.

(** ** 8 bits *)

Lemma pack8_body_at dest sym symbolBuffer i P x rest SP a srest :
  sym = SP ++ a :: srest → dest + i = length P → symbolBuffer + i = length SP →
  BytePacker.pack8_body dest sym symbolBuffer (P ++ x :: rest, i) =
  Some (P ++ to_uchar a :: rest, i + 1).
Proof.
  intros -> HP HSP. unfold BytePacker.pack8_body. rewrite HP, HSP.
  exec P SP. reflexivity.
Qed.

Lemma unpack8_body_at symbolBuffer packed packedBuffer i P x rest PP a prest :
  packed = PP ++ a :: prest →
  symbolBuffer + i = length P → packedBuffer + i = length PP →
  BytePacker.unpack8_body symbolBuffer packed packedBuffer (P ++ x :: rest, i) =
  Some (P ++ to_unsigned a :: rest, i + 1).
Proof.
  intros -> HP HPP. unfold BytePacker.unpack8_body. rewrite HP, HPP.
  exec P PP. reflexivity.
Qed.

Lemma pack8_loop k : ∀ mem i sym dest symbolBuffer P win post SP syms spost,
  mem = P ++ win ++ post → sym = SP ++ syms ++ spost →
  dest + i = length P → symbolBuffer + i = length SP →
  length syms = k → length win = k →
  for_loop k (BytePacker.pack8_body dest sym symbolBuffer) (mem, i) =
  Some (P ++ (to_uchar <$> syms) ++ post, i + k).
Proof.
  induction k as [|k IH];
    intros mem i sym dest symbolBuffer P win post SP syms spost -> -> HP HSP Hs Hw.
  - explode syms. explode win. simpl. do 2 f_equal. lia.
  - destruct syms as [|a syms]; [done|]. destruct win as [|x win]; [done|].
    simpl in Hs, Hw. cbn [for_loop app].
    erewrite pack8_body_at by done. cbn [mbind option_bind].
    rewrite (IH _ _ _ _ _ (P ++ [to_uchar a]) win post (SP ++ [a]) syms spost);
      rewrite <- ?app_assoc, ?length_app; simpl; try done; try lia.
    do 2 f_equal. lia.
Qed.

Lemma pack8_at mem dest sym symbolBuffer pre win post spre syms spost :
  mem = pre ++ win ++ post → sym = spre ++ syms ++ spost →
  dest = length pre → symbolBuffer = length spre →
  length win = packed_size 8 (length syms) →
  BytePacker.pack8 mem dest sym symbolBuffer (length syms) =
  Some (pre ++ enc W8 syms ++ post).
Proof.
  intros -> -> -> -> Hw. unfold BytePacker.pack8, enc, packed_size in *.
  erewrite pack8_loop; [done|done|done|lia|lia|done|lia].
Qed.

Lemma unpack8_loop k : ∀ mem i packed symbolBuffer packedBuffer P win post PP bytes ppost,
  mem = P ++ win ++ post → packed = PP ++ bytes ++ ppost →
  symbolBuffer + i = length P → packedBuffer + i = length PP →
  length bytes = k → length win = k →
  for_loop k (BytePacker.unpack8_body symbolBuffer packed packedBuffer) (mem, i) =
  Some (P ++ (to_unsigned <$> bytes) ++ post, i + k).
Proof.
  induction k as [|k IH];
    intros mem i packed symbolBuffer packedBuffer P win post PP bytes ppost
      -> -> HP HPP Hs Hw.
  - explode bytes. explode win. simpl. do 2 f_equal. lia.
  - destruct bytes as [|a bytes]; [done|]. destruct win as [|x win]; [done|].
    simpl in Hs, Hw. cbn [for_loop app].
    erewrite unpack8_body_at by done. cbn [mbind option_bind].
    rewrite (IH _ _ _ _ _ (P ++ [to_unsigned a]) win post (PP ++ [a]) bytes ppost);
      rewrite <- ?app_assoc, ?length_app; simpl; try done; try lia.
    do 2 f_equal. lia.
Qed.

Lemma unpack8_at mem symbolBuffer packed packedBuffer pre win post ppre bytes ppost :
  mem = pre ++ win ++ post → packed = ppre ++ bytes ++ ppost →
  symbolBuffer = length pre → packedBuffer = length ppre →
  length bytes = packed_size 8 (length win) →
  BytePacker.unpack8 mem symbolBuffer packed packedBuffer (length win) =
  Some (pre ++ dec W8 (length win) bytes ++ post).
Proof.
  intros -> -> -> -> Hw. unfold BytePacker.unpack8, dec, packed_size in *.
  erewrite unpack8_loop; [done|done|done|lia|lia|lia|done].
Qed.

(** ** All widths *)

(** [packW w] overwrites the window of [packed_size] bytes at [dest] with
    [enc w] of the symbols, whatever the window held, and changes nothing
    else. *)
Lemma packW_at w mem dest sym symbolBuffer pre win post spre syms spost :
  mem = pre ++ win ++ post → sym = spre ++ syms ++ spost →
  dest = length pre → symbolBuffer = length spre →
  length win = packed_size (bits w) (length syms) →
  packW w mem dest sym symbolBuffer (length syms) =
  Some (pre ++ enc w syms ++ post).
Proof.
  destruct w; simpl packW; simpl bits;
    eauto using pack4_at, pack6_at, pack8_at, pack12_at.
Qed.

Lemma unpackW_at w mem symbolBuffer packed packedBuffer pre win post ppre bytes ppost :
  mem = pre ++ win ++ post → packed = ppre ++ bytes ++ ppost →
  symbolBuffer = length pre → packedBuffer = length ppre →
  length bytes = packed_size (bits w) (length win) →
  unpackW w mem symbolBuffer packed packedBuffer (length win) =
  Some (pre ++ dec w (length win) bytes ++ post).
Proof.
  destruct w; simpl unpackW; simpl bits;
    eauto using unpack4_at, unpack6_at, unpack8_at, unpack12_at.
Qed.

(** ** Bit-level identities *)

Section bits.
Local Open Scope Z_scope.

Lemma testbit_shiftl a k m :
  Z.testbit (Z.shiftl a k) m = (0 <=? m) && Z.testbit a (m - k).
Proof.
  destruct (Z.leb_spec 0 m); simpl.
  - by apply Z.shiftl_spec.
  - by apply Z.testbit_neg_r.
Qed.

Lemma testbit_shiftr a k m :
  Z.testbit (Z.shiftr a k) m = (0 <=? m) && Z.testbit a (m + k).
Proof.
  destruct (Z.leb_spec 0 m); simpl.
  - by apply Z.shiftr_spec.
  - by apply Z.testbit_neg_r.
Qed.

Lemma testbit_low a k m :
  0 <= k → Z.testbit (a mod 2 ^ k) m = (m <? k) && Z.testbit a m.
Proof. intros. by apply Z.testbit_mod_pow2. Qed.

Lemma testbit_mask k m :
  0 <= k → Z.testbit (Z.ones k) m = (0 <=? m) && (m <? k).
Proof. intros. by apply Z.testbit_ones. Qed.

Lemma testbit_fits w v i : fits w v → Z.of_nat w <= i → Z.testbit v i = false.
Proof.
  intros [Hv0 Hv] Hi. rewrite <- (Z.mod_small v (2 ^ Z.of_nat w)) by lia.
  apply Z.mod_pow2_bits_high. lia.
Qed.

Lemma testbit_uchar v i : is_uchar v → 8 <= i → Z.testbit v i = false.
Proof. intros Hv Hi. by apply (testbit_fits 8). Qed.

Lemma fits_low w v : v = v mod 2 ^ Z.of_nat w → fits w v.
Proof. intros ->. unfold fits. apply Z.mod_pos_bound. lia. Qed.
End bits.

(** Masks are runs of ones, conversions are remainders by a power of two. *)
Ltac expose_bits :=
  unfold to_uchar, to_unsigned;
  change 256%Z with (2 ^ 8)%Z; change 4294967296%Z with (2 ^ 32)%Z;
  change 3%Z with (Z.ones 2); change 15%Z with (Z.ones 4);
  change 63%Z with (Z.ones 6); change 255%Z with (Z.ones 8);
  change 60%Z with (Z.shiftl (Z.ones 4) 2);
  change 48%Z with (Z.shiftl (Z.ones 2) 4);
  change 192%Z with (Z.shiftl (Z.ones 2) 6);
  change 240%Z with (Z.shiftl (Z.ones 4) 4);
  change 252%Z with (Z.shiftl (Z.ones 6) 2);
  change 3840%Z with (Z.shiftl (Z.ones 4) 8);
  change 4080%Z with (Z.shiftl (Z.ones 8) 4).

Ltac push_testbit :=
  repeat first
    [ rewrite Z.lor_spec | rewrite Z.land_spec | rewrite Z.bits_0
    | rewrite testbit_shiftl | rewrite testbit_shiftr
    | rewrite testbit_low by lia | rewrite testbit_mask by lia ].

Ltac split_cmp :=
  repeat match goal with
  | |- context [(?a <? ?b)%Z] => destruct (Z.ltb_spec a b); try (exfalso; lia)
  | |- context [(?a <=? ?b)%Z] => destruct (Z.leb_spec a b); try (exfalso; lia)
  end.

(** Bits outside a value's range are clear; the others are bits at [n]. *)
Ltac settle_atoms n :=
  repeat match goal with
  | H : fits ?w ?v |- context [Z.testbit ?v ?i] =>
      rewrite (testbit_fits w v i H) by (simpl; lia)
  | H : is_uchar ?v |- context [Z.testbit ?v ?i] =>
      rewrite (testbit_uchar v i H) by lia
  | |- context [Z.testbit ?v ?i] => rewrite (Z.testbit_neg_r v i) by lia
  | |- context [Z.testbit ?v ?i] =>
      lazymatch i with n => fail | _ => replace i with n by lia end
  | |- context [Z.testbit ?v ?i] =>
      match goal with
      | |- context [Z.testbit v ?j] =>
          lazymatch j with i => fail | _ => replace j with i by lia end
      end
  end.

Ltac bitblast :=
  expose_bits; apply Z.bits_inj'; let n := fresh "n" in intros n ?;
  push_testbit; split_cmp; simpl; settle_atoms n;
  repeat match goal with |- context [Z.testbit ?v ?i] => destruct (Z.testbit v i) end;
  reflexivity.

Ltac split_Forall :=
  repeat match goal with
  | H : Forall _ (_ :: _) |- _ => apply Forall_cons in H as [? H]
  | H : Forall _ [] |- _ => clear H
  end.

(** Unpacking a group or a tail returns the symbols packed into it. *)
Lemma unpack6_pack6_group c :
  length c = 4 → Forall (fits 6) c → unpack6_group (pack6_group c) = c.
Proof.
  intros Hc HF. explode c. split_Forall. simpl. repeat f_equal; bitblast.
Qed.

Lemma unpack6_pack6_tail c :
  length c < 4 → Forall (fits 6) c → unpack6_tail (pack6_tail c) = c.
Proof.
  intros Hc HF. destruct c as [|? [|? [|? [|]]]]; simpl in Hc; try lia;
    split_Forall; simpl; repeat f_equal; bitblast.
Qed.

Lemma unpack4_pack4_group c :
  length c = 2 → Forall (fits 4) c → unpack4_group (pack4_group c) = c.
Proof.
  intros Hc HF. explode c. split_Forall. simpl. repeat f_equal; bitblast.
Qed.

Lemma unpack4_pack4_tail c :
  length c < 2 → Forall (fits 4) c → unpack4_tail (pack4_tail c) = c.
Proof.
  intros Hc HF. destruct c as [|? [|]]; simpl in Hc; try lia;
    split_Forall; simpl; repeat f_equal; bitblast.
Qed.

Lemma unpack12_pack12_group c :
  length c = 2 → Forall (fits 12) c → unpack12_group (pack12_group c) = c.
Proof.
  intros Hc HF. explode c. split_Forall. simpl. repeat f_equal; bitblast.
Qed.

Lemma unpack12_pack12_tail c :
  length c < 2 → Forall (fits 12) c → unpack12_tail (pack12_tail c) = c.
Proof.
  intros Hc HF. destruct c as [|? [|]]; simpl in Hc; try lia;
    split_Forall; simpl; repeat f_equal; bitblast.
Qed.

(** Whatever the packed bytes are, an unpacked symbol fits its width. *)
Ltac fits_by_bits :=
  repeat match goal with
  | |- Forall _ [] => apply Forall_nil_2
  | |- Forall _ (_ :: _) => apply Forall_cons_2
  end;
  apply fits_low;
  match goal with |- context [Z.of_nat ?w] =>
    let k := eval cbv in (Z.of_nat w) in change (Z.of_nat w) with k
  end; bitblast.

Lemma unpack6_group_fits c : Forall (fits 6) (unpack6_group c).
Proof. destruct c as [|? [|? [|? [|]]]]; simpl; fits_by_bits. Qed.

Lemma unpack6_tail_fits c : Forall (fits 6) (unpack6_tail c).
Proof. destruct c as [|? [|? [|? [|]]]]; simpl; fits_by_bits. Qed.

Lemma unpack4_group_fits c : Forall (fits 4) (unpack4_group c).
Proof. destruct c as [|? [|]]; simpl; fits_by_bits. Qed.

Lemma unpack4_tail_fits c : Forall (fits 4) (unpack4_tail c).
Proof. destruct c as [|? [|]]; simpl; fits_by_bits. Qed.

Lemma unpack12_group_fits c : Forall is_uchar c → Forall (fits 12) (unpack12_group c).
Proof.
  intros HF. destruct c as [|? [|? [|? [|]]]]; simpl; split_Forall; fits_by_bits.
Qed.

Lemma unpack12_tail_fits c : Forall is_uchar c → Forall (fits 12) (unpack12_tail c).
Proof.
  intros HF. destruct c as [|? [|? [|]]]; simpl; split_Forall; fits_by_bits.
Qed.

(** ** Properties of the closed forms *)

Lemma blocks_Forall (P Q : Z → Prop) g f t q :
  (∀ c, Forall P c → Forall Q (f c)) → (∀ c, Forall P c → Forall Q (t c)) →
  ∀ l, Forall P l → Forall Q (blocks g f t q l).
Proof.
  intros Hf Ht. induction q as [|q IH]; intros l Hl; simpl; [by apply Ht|].
  apply Forall_app. split.
  - by apply Hf, Forall_take.
  - by apply IH, Forall_drop.
Qed.

Lemma blocks_inverse (P : Z → Prop) g h f t f' t' q :
  (∀ c, length c = g → length (f c) = h) →
  (∀ c, length c = g → Forall P c → f' (f c) = c) →
  (∀ c, length c < g → Forall P c → t' (t c) = c) →
  ∀ l, q * g ≤ length l < q * g + g → Forall P l →
  blocks h f' t' q (blocks g f t q l) = l.
Proof.
  intros Hlen Hf Ht. induction q as [|q IH]; intros l Hl HP; simpl.
  - apply Ht; [lia|done].
  - assert (length (take g l) = g) as Hg by (rewrite length_take; lia).
    rewrite take_app_length', drop_app_length' by (by rewrite Hlen).
    rewrite Hf, IH, take_drop; try done.
    + rewrite length_drop. lia.
    + by apply Forall_drop.
    + by apply Forall_take.
Qed.

Ltac tail_length k l :=
  let tl := fresh "tl" in let E := fresh "E" in
  remember (drop k l) as tl eqn:E; apply (f_equal length) in E;
  rewrite length_drop in E;
  destruct tl as [|? [|? [|? [|]]]]; simpl in *; lia.

Lemma enc_length w l : length (enc w l) = packed_size (bits w) (length l).
Proof.
  unfold packed_size. destruct w; simpl bits; unfold enc.
  - rewrite (blocks_length 2 1) by (apply pack4_group_length || lia).
    tail_length (length l / 2 * 2) l.
  - rewrite (blocks_length 4 3) by (apply pack6_group_length || lia).
    tail_length (length l / 4 * 4) l.
  - rewrite length_fmap. lia.
  - rewrite (blocks_length 2 3) by (apply pack12_group_length || lia).
    tail_length (length l / 2 * 2) l.
Qed.

Lemma dec_length w n l :
  length l = packed_size (bits w) n → length (dec w n l) = n.
Proof.
  unfold packed_size. destruct w; simpl bits; unfold dec; intros Hl.
  - rewrite (blocks_length 1 2) by (apply unpack4_group_length || lia).
    tail_length (n / 2 * 1) l.
  - rewrite (blocks_length 3 4) by (apply unpack6_group_length || lia).
    tail_length (n / 4 * 3) l.
  - rewrite length_fmap. lia.
  - rewrite (blocks_length 3 2) by (apply unpack12_group_length || lia).
    tail_length (n / 2 * 3) l.
Qed.

(** Unpacking what was packed gives back symbols that fit the width. *)
Lemma dec_enc w l : Forall (fits (bits w)) l → dec w (length l) (enc w l) = l.
Proof.
  intros HF. destruct w; simpl bits in HF; unfold dec, enc.
  - apply blocks_inverse with (g := 2) (h := 1) (P := fits 4);
      auto using pack4_group_length, unpack4_pack4_group, unpack4_pack4_tail; lia.
  - apply blocks_inverse with (g := 4) (h := 3) (P := fits 6);
      auto using pack6_group_length, unpack6_pack6_group, unpack6_pack6_tail; lia.
  - rewrite <- list_fmap_compose. rewrite <- (list_fmap_id l) at 2.
    apply Forall_fmap_ext_1. eapply Forall_impl; [exact HF|].
    intros v [Hv0 Hv]. unfold to_unsigned, to_uchar. simpl in Hv.
    simpl. rewrite !Z.mod_small; lia.
  - apply blocks_inverse with (g := 2) (h := 3) (P := fits 12);
      auto using pack12_group_length, unpack12_pack12_group, unpack12_pack12_tail; lia.
Qed.

(** Unpacking any bytes gives symbols that fit the width. *)
Lemma dec_fits w n l : Forall is_uchar l → Forall (fits (bits w)) (dec w n l).
Proof.
  intros HF. destruct w; simpl bits; unfold dec.
  - apply blocks_Forall with (P := is_uchar); auto using unpack4_group_fits, unpack4_tail_fits.
  - apply blocks_Forall with (P := is_uchar); auto using unpack6_group_fits, unpack6_tail_fits.
  - apply Forall_fmap. eapply Forall_impl; [exact HF|].
    intros v Hv. unfold is_uchar in Hv. unfold fits, to_unsigned. simpl.
    rewrite Z.mod_small; lia.
  - apply blocks_Forall with (P := is_uchar); auto using unpack12_group_fits, unpack12_tail_fits.
Qed.

(** ** The packers applied to whole arrays *)

Lemma packW_run w dest symbols :
  packed_size (bits w) (length symbols) ≤ length dest →
  packW w dest 0 symbols 0 (length symbols) =
  Some (enc w symbols ++ drop (packed_size (bits w) (length symbols)) dest).
Proof.
  intros Hd. set (n := packed_size (bits w) (length symbols)) in *.
  apply (packW_at w _ _ _ _ [] (take n dest) (drop n dest) [] symbols []).
  - by rewrite take_drop.
  - by rewrite app_nil_r.
  - done.
  - done.
  - rewrite length_take. lia.
Qed.

Lemma unpackW_run w out packed n :
  n ≤ length out → packed_size (bits w) n ≤ length packed →
  unpackW w out 0 packed 0 n =
  Some (dec w n (take (packed_size (bits w) n) packed) ++ drop n out).
Proof.
  intros Ho Hp. set (k := packed_size (bits w) n) in *.
  assert (length (take n out) = n) as Hn by (rewrite length_take; lia).
  rewrite <- Hn at 1 2.
  apply (unpackW_at w _ _ _ _ [] (take n out) (drop n out) [] (take k packed) (drop k packed)).
  - by rewrite take_drop.
  - by rewrite take_drop.
  - done.
  - done.
  - rewrite length_take, Hn. lia.
Qed.

(** The dispatchers: a supported bit count selects its packer, any other
    bit count falls through the [switch]. *)
Lemma dispatch_supported w mem p buf q symbolCount :
  BytePacker.pack (Z.of_nat (bits w)) mem p buf q symbolCount =
    packW w mem p buf q symbolCount ∧
  BytePacker.unpack (Z.of_nat (bits w)) mem p buf q symbolCount =
    unpackW w mem p buf q symbolCount.
Proof. by destruct w. Qed.

Lemma dispatch_other bitCount mem p buf q symbolCount :
  bitCount ≠ 4%Z → bitCount ≠ 6%Z → bitCount ≠ 8%Z → bitCount ≠ 12%Z →
  BytePacker.pack bitCount mem p buf q symbolCount = Some mem ∧
  BytePacker.unpack bitCount mem p buf q symbolCount = Some mem.
Proof.
  intros H4 H6 H8 H12. unfold BytePacker.pack, BytePacker.unpack.
  destruct bitCount as [|b|b]; [done| |done].
  do 4 (try destruct b as [b|b|]); done.
Qed.

(** * The claims *)

(** C1. For every width, count and array of [count] symbols that fit the
    width, unpacking the packed bytes gives back the array. The destination
    may hold anything and be longer than needed. *)
Theorem unpackW_packW (w : width) (count : nat) (symbols dest out : list Z) :
  length symbols = count →
  Forall (fits (bits w)) symbols →
  packed_size (bits w) count ≤ length dest →
  length out = count →
  ∃ packed,
    packW w dest 0 symbols 0 count = Some packed ∧
    unpackW w out 0 packed 0 count = Some symbols.
Proof.
  intros <- HF Hd Ho. eexists. split; [by apply packW_run|].
  rewrite unpackW_run.
  - rewrite take_app_length' by (by rewrite enc_length).
    by rewrite dec_enc, drop_ge, app_nil_r by (done || lia).
  - lia.
  - rewrite length_app, enc_length. lia.
Qed.

Lemma unpackW_packW_witness :
  ∃ packed,
    packW W6 [0; 0; 0; 0]%Z 0 [1; 2; 3; 63; 17]%Z 0 5 = Some packed ∧
    unpackW W6 [9; 9; 9; 9; 9]%Z 0 packed 0 5 = Some [1; 2; 3; 63; 17]%Z.
Proof.
  apply (unpackW_packW W6 5 [1; 2; 3; 63; 17]%Z [0; 0; 0; 0]%Z [9; 9; 9; 9; 9]%Z).
  - reflexivity.
  - repeat apply Forall_cons_2; try apply Forall_nil_2; unfold fits; simpl; lia.
  - vm_compute. lia.
  - reflexivity.
Defined.

(** C2. [packW] overwrites the first ceil(count*w/8) bytes of the
    destination, with values that do not depend on what was there, and leaves
    every later byte as it was; a destination of exactly that size is enough;
    with [count = 0] the destination is returned as it is.  [unpackW]
    overwrites the first [count] symbols, with values determined by the first
    ceil(count*w/8) packed bytes alone, and leaves every later symbol as it
    was. *)
Theorem packW_unpackW_footprint (w : width) (count : nat) :
  let n := packed_size (bits w) count in
  (∀ symbols dest dest',
     length symbols = count → n ≤ length dest → n ≤ length dest' →
     ∃ res res',
       packW w dest 0 symbols 0 count = Some res ∧
       packW w dest' 0 symbols 0 count = Some res' ∧
       length res = length dest ∧
       take n res = take n res' ∧
       drop n res = drop n dest) ∧
  (∀ symbols dest,
     packW w dest 0 symbols 0 0 = Some dest ∧
     unpackW w dest 0 symbols 0 0 = Some dest) ∧
  (∀ packed packed' out out',
     n ≤ length packed → n ≤ length packed' → take n packed = take n packed' →
     count ≤ length out → count ≤ length out' →
     ∃ res res',
       unpackW w out 0 packed 0 count = Some res ∧
       unpackW w out' 0 packed' 0 count = Some res' ∧
       length res = length out ∧
       take count res = take count res' ∧
       drop count res = drop count out).
Proof.
  intros n. split; [|split].
  - intros symbols dest dest' <- Hd Hd'. fold n.
    do 2 eexists. split; [by apply packW_run|]. split; [by apply packW_run|].
    fold n. pose proof (enc_length w symbols) as He. fold n in He.
    rewrite length_app, length_drop, He, !take_app_length', drop_app_length' by done.
    split; [lia|done].
  - intros symbols dest. by destruct w.
  - intros packed packed' out out' Hp Hp' Heq Ho Ho'.
    do 2 eexists. split; [by apply unpackW_run|]. split; [by apply unpackW_run|].
    fold n. rewrite <- Heq.
    assert (length (dec w count (take n packed)) = count) as Hl.
    { apply dec_length. rewrite length_take. subst n. lia. }
    rewrite length_app, length_drop, Hl, !take_app_length', drop_app_length' by done.
    split; [lia|done].
Qed.

Lemma packW_unpackW_footprint_witness :
  (∃ res res',
     packW W12 [0; 0; 0; 0; 0; 77]%Z 0 [4095; 0; 2748]%Z 0 3 = Some res ∧
     packW W12 [9; 9; 9; 9; 9]%Z 0 [4095; 0; 2748]%Z 0 3 = Some res' ∧
     length res = 6 ∧
     take 5 res = take 5 res' ∧
     drop 5 res = [77]%Z) ∧
  (∃ res res',
     unpackW W12 [0; 0; 0; 55]%Z 0 [255; 15; 0; 188; 10]%Z 0 3 = Some res ∧
     unpackW W12 [1; 1; 1]%Z 0 [255; 15; 0; 188; 10; 99]%Z 0 3 = Some res' ∧
     length res = 4 ∧
     take 3 res = take 3 res' ∧
     drop 3 res = [55]%Z).
Proof.
  destruct (packW_unpackW_footprint W12 3) as (Hpack & _ & Hunpack). split.
  - apply (Hpack [4095; 0; 2748]%Z [0; 0; 0; 0; 0; 77]%Z [9; 9; 9; 9; 9]%Z);
      [reflexivity | vm_compute; lia | vm_compute; lia].
  - apply (Hunpack [255; 15; 0; 188; 10]%Z [255; 15; 0; 188; 10; 99]%Z
             [0; 0; 0; 55]%Z [1; 1; 1]%Z);
      [vm_compute; lia | vm_compute; lia | reflexivity | simpl; lia | simpl; lia].
Defined.

(** C3. For each supported width the run-time dispatchers do exactly what
    the width-specific functions do, on every input. *)
Theorem pack_dispatch (w : width) (mem : list Z) (p : nat) (buf : list Z)
    (q : nat) (symbolCount : nat) :
  BytePacker.pack (Z.of_nat (bits w)) mem p buf q symbolCount =
    packW w mem p buf q symbolCount ∧
  BytePacker.unpack (Z.of_nat (bits w)) mem p buf q symbolCount =
    unpackW w mem p buf q symbolCount.
Proof. destruct w; split; reflexivity. Qed.

(** C4. For a bit count other than 4, 6, 8 and 12 the dispatchers return
    normally and leave the buffer they would write as it was. *)
Theorem pack_unsupported (bitCount : Z) (mem : list Z) (p : nat) (buf : list Z)
    (q : nat) (symbolCount : nat) :
  bitCount ≠ 4%Z → bitCount ≠ 6%Z → bitCount ≠ 8%Z → bitCount ≠ 12%Z →
  BytePacker.pack bitCount mem p buf q symbolCount = Some mem ∧
  BytePacker.unpack bitCount mem p buf q symbolCount = Some mem.
Proof.
  intros H4 H6 H8 H12.
  destruct (decide (bitCount = 0%Z)) as [->|H0]; [done|].
  destruct bitCount as [|b|b]; [done| |done].
  unfold BytePacker.pack, BytePacker.unpack.
  destruct b as [[[[b|b|]|[b|b|]|]|[[b|b|]|[b|b|]|]|]|[[[b|b|]|[b|b|]|]|[[b|b|]|[b|b|]|]|]|];
    done.
Qed.

Lemma pack_unsupported_witness :
  BytePacker.pack 5 [1; 2]%Z 0 [3; 4]%Z 0 2 = Some [1; 2]%Z ∧
  BytePacker.unpack 5 [1; 2]%Z 0 [3; 4]%Z 0 2 = Some [1; 2]%Z.
Proof. apply (pack_unsupported 5 [1; 2]%Z 0 [3; 4]%Z 0 2); discriminate. Defined.

(** C10. Whatever bytes the packed buffer holds, every symbol that
    [unpackW] writes fits the width. *)
Theorem unpackW_fits (w : width) (count : nat) (packed out : list Z) :
  Forall is_uchar packed →
  packed_size (bits w) count ≤ length packed →
  count ≤ length out →
  ∃ res,
    unpackW w out 0 packed 0 count = Some res ∧
    ∀ i v, i < count → res !! i = Some v → fits (bits w) v.
Proof.
  intros HF Hp Ho. eexists. split; [by apply unpackW_run|].
  intros i v Hi Hv.
  assert (length (dec w count (take (packed_size (bits w) count) packed)) = count) as Hl.
  { apply dec_length. rewrite length_take. lia. }
  rewrite lookup_app_l in Hv by lia.
  eapply Forall_lookup_1; [|exact Hv]. by apply dec_fits, Forall_take.
Qed.

Lemma unpackW_fits_witness :
  ∃ res,
    unpackW W12 [0; 0; 0]%Z 0 [255; 255; 255; 255; 255]%Z 0 3 = Some res ∧
    ∀ i v, i < 3 → res !! i = Some v → fits 12 v.
Proof.
  apply (unpackW_fits W12 3 [255; 255; 255; 255; 255]%Z [0; 0; 0]%Z).
  - repeat apply Forall_cons_2; try apply Forall_nil_2; unfold is_uchar; lia.
  - vm_compute. lia.
  - simpl. lia.
Defined.

(** The bytes of group [k] among the blocks. *)
Lemma blocks_group g h f t q : 
  (∀ c, length c = g → length (f c) = h) →
  ∀ k l, k < q → q * g ≤ length l →
  take h (drop (k * h) (blocks g f t q l)) = f (take g (drop (k * g) l)).
Proof.
  intros Hlen. induction q as [|q IH]; intros k l Hk Hl; [lia|]. simpl.
  assert (length (f (take g l)) = h) as Hh
    by (apply Hlen; rewrite length_take; lia).
  destruct k as [|k].
  - rewrite !drop_0. by rewrite take_app_length'.
  - replace (S k * h) with (h + k * h) by lia.
    replace (S k * g) with (g + k * g) by lia.
    rewrite <- !drop_drop, drop_app_length' by done.
    apply IH; [lia|]. rewrite length_drop. lia.
Qed.

Lemma drop_4 (l : list Z) i a b c d :
  l !! i = Some a → l !! (i + 1) = Some b →
  l !! (i + 2) = Some c → l !! (i + 3) = Some d →
  take 4 (drop i l) = [a; b; c; d].
Proof.
  intros Ha Hb Hc Hd.
  rewrite (drop_S l a i Ha).
  replace (i + 1) with (S i) in Hb by lia. rewrite (drop_S l b _ Hb).
  replace (i + 2) with (S (S i)) in Hc by lia. rewrite (drop_S l c _ Hc).
  replace (i + 3) with (S (S (S i))) in Hd by lia. by rewrite (drop_S l d _ Hd).
Qed.

(** C7. For every full group of four symbols [a], [b], [c], [d] below 64,
    [pack6] writes the three bytes [a | (b&3)<<6], [(b>>2)&15 | (c&15)<<4]
    and [(c>>4)&3 | d<<2]: read as one 24-bit little-endian word they are the
    four symbols in input order, six bits each, starting from bit 0. *)
Theorem pack6_full_group (symbols dest : list Z) (k : nat) (a b c d : Z) :
  packed_size 6 (length symbols) ≤ length dest →
  symbols !! (4 * k) = Some a → symbols !! (4 * k + 1) = Some b →
  symbols !! (4 * k + 2) = Some c → symbols !! (4 * k + 3) = Some d →
  fits 6 a → fits 6 b → fits 6 c → fits 6 d →
  let B0 := Z.lor a (Z.shiftl (Z.land b 3) 6) in
  let B1 := Z.lor (Z.land (Z.shiftr b 2) 15) (Z.shiftl (Z.land c 15) 4) in
  let B2 := Z.lor (Z.land (Z.shiftr c 4) 3) (Z.shiftl d 2) in
  (∃ res,
     BytePacker.pack6 dest 0 symbols 0 (length symbols) = Some res ∧
     res !! (3 * k) = Some B0 ∧
     res !! (3 * k + 1) = Some B1 ∧
     res !! (3 * k + 2) = Some B2) ∧
  Z.lor B0 (Z.lor (Z.shiftl B1 8) (Z.shiftl B2 16)) =
  Z.lor a (Z.lor (Z.shiftl b 6) (Z.lor (Z.shiftl c 12) (Z.shiftl d 18))).
Proof.
  intros Hd Ha Hb Hc He Fa Fb Fc Fd B0 B1 B2. split.
  - eexists. split; [exact (packW_run W6 dest symbols Hd)|].
    assert (4 * k + 3 < length symbols) as Hk by (by eapply lookup_lt_Some).
    assert (take 3 (drop (k * 3) (enc W6 symbols)) = [B0; B1; B2]) as HG.
    { unfold enc. rewrite (blocks_group 4 3) by (apply pack6_group_length || lia).
      replace (k * 4) with (4 * k) by lia.
      rewrite (drop_4 symbols (4 * k) a b c d) by done.
      subst B0 B1 B2. simpl. repeat f_equal; bitblast. }
    assert (∀ j B, j < 3 → [B0; B1; B2] !! j = Some B →
              (enc W6 symbols ++ drop (packed_size 6 (length symbols)) dest)
                !! (3 * k + j) = Some B) as Hj.
    { intros j B Hlt HB. apply lookup_app_l_Some.
      rewrite <- HG, lookup_take_lt, lookup_drop in HB by done.
      rewrite <- HB. f_equal. lia. }
    replace (3 * k) with (3 * k + 0) at 1 by lia.
    repeat split; apply Hj; (lia || done).
  - subst B0 B1 B2. bitblast.
Qed.

Lemma pack6_full_group_witness :
  (∃ res,
     BytePacker.pack6 [0; 0; 0]%Z 0 [1; 2; 3; 4]%Z 0 4 = Some res ∧
     res !! 0 = Some 129%Z ∧ res !! 1 = Some 48%Z ∧ res !! 2 = Some 16%Z) ∧
  1060993%Z = 1060993%Z.
Proof.
  apply (pack6_full_group [1; 2; 3; 4]%Z [0; 0; 0]%Z 0 1 2 3 4);
    try reflexivity; unfold fits; simpl; lia.
Defined.

(** ** Partial groups *)

(** What is written for [q] full groups followed by the left-over cells
    [tl]: the bytes of the groups, the bytes of the tail, and the rest of the
    destination as it was. *)
Lemma packW_groups_tail w g h f t full tl dest q :
  (∀ l, enc w l = blocks g f t (length l / g) l) →
  (∀ c, length c = g → length (f c) = h) →
  0 < g → length full = q * g → length tl < g →
  packed_size (bits w) (length (full ++ tl)) ≤ length dest →
  ∃ res,
    packW w dest 0 (full ++ tl) 0 (q * g + length tl) = Some res ∧
    drop (q * h) res =
      t tl ++ drop (packed_size (bits w) (length (full ++ tl))) dest.
Proof.
  intros Henc Hlen Hg Hfull Htl Hd. eexists. split.
  - rewrite <- Hfull, <- length_app. by apply packW_run.
  - rewrite Henc, length_app, Hfull.
    replace ((q * g + length tl) / g) with q by (apply Nat.div_unique with (length tl); lia).
    rewrite blocks_app, <- app_assoc by done.
    rewrite drop_app_length'; [done|].
    rewrite (blocks_length g h) by (done || lia).
    rewrite drop_ge by lia. simpl. lia.
Qed.

(** C5 fails as stated: with two symbols left over, the output does depend
    on the second symbol, so its bits are not lost. Packing [0; 63] gives the
    bytes 192 and 15, which hold all six bits of 63, and unpacking them gives
    [0; 63] back. *)
Lemma pack6_two_left_keeps_second :
  BytePacker.pack6 [0; 0]%Z 0 [0; 63]%Z 0 2 = Some [192; 15]%Z ∧
  BytePacker.unpack6 [0; 0]%Z 0 [192; 15]%Z 0 2 = Some [0; 63]%Z ∧
  ¬ (∀ b b', fits 6 b → fits 6 b' →
       BytePacker.pack6 [0; 0]%Z 0 [0; b]%Z 0 2 =
       BytePacker.pack6 [0; 0]%Z 0 [0; b']%Z 0 2).
Proof.
  split; [reflexivity|]. split; [reflexivity|].
  intros H. specialize (H 0%Z 63%Z).
  assert (fits 6 0 ∧ fits 6 63) as [H0 H63] by (unfold fits; simpl; lia).
  specialize (H H0 H63). vm_compute in H. discriminate H.
Qed.

(** C5, amended. After the full groups, one left-over symbol is written as
    one byte, two as two bytes and three as three bytes, by the formulas of
    a full group with the missing symbols left out; every later byte of the
    destination is left as it was. No bit of a left-over symbol is dropped:
    with two left over, the second one is the top two bits of the first byte
    followed by the second byte. *)
Theorem pack6_partial_group (full dest : list Z) (q : nat) :
  length full = 4 * q →
  (∀ a, fits 6 a → 3 * q + 1 ≤ length dest →
     ∃ res,
       BytePacker.pack6 dest 0 (full ++ [a]) 0 (4 * q + 1) = Some res ∧
       drop (3 * q) res = a :: drop (3 * q + 1) dest) ∧
  (∀ a b, fits 6 a → fits 6 b → 3 * q + 2 ≤ length dest →
     let B0 := Z.lor a (Z.shiftl (Z.land b 3) 6) in
     let B1 := Z.shiftr b 2 in
     (∃ res,
        BytePacker.pack6 dest 0 (full ++ [a; b]) 0 (4 * q + 2) = Some res ∧
        drop (3 * q) res = B0 :: B1 :: drop (3 * q + 2) dest) ∧
     Z.lor (Z.shiftr B0 6) (Z.shiftl B1 2) = b) ∧
  (∀ a b c, fits 6 a → fits 6 b → fits 6 c → 3 * q + 3 ≤ length dest →
     let B0 := Z.lor a (Z.shiftl (Z.land b 3) 6) in
     let B1 := Z.lor (Z.land (Z.shiftr b 2) 15) (Z.shiftl (Z.land c 15) 4) in
     let B2 := Z.shiftr c 4 in
     ∃ res,
       BytePacker.pack6 dest 0 (full ++ [a; b; c]) 0 (4 * q + 3) = Some res ∧
       drop (3 * q) res = B0 :: B1 :: B2 :: drop (3 * q + 3) dest).
Proof.
  intros Hfull.
  assert (∀ tl, length tl < 4 →
            packed_size 6 (length (full ++ tl)) = 3 * q + length tl) as Hsize.
  { intros tl Htl. rewrite length_app, Hfull. unfold packed_size. lia. }
  assert (∀ tl, length tl < 4 → 3 * q + length tl ≤ length dest →
            ∃ res,
              BytePacker.pack6 dest 0 (full ++ tl) 0 (4 * q + length tl) = Some res ∧
              drop (3 * q) res = pack6_tail tl ++ drop (3 * q + length tl) dest) as Hrun.
  { intros tl Htl Hd.
    destruct (packW_groups_tail W6 4 3 pack6_group pack6_tail full tl dest q)
      as (res & Hres & Hdrop);
      try done; try lia; try apply pack6_group_length.
    { rewrite Hsize by done. lia. }
    exists res. rewrite Hsize in Hdrop by done.
    replace (4 * q) with (q * 4) by lia. replace (3 * q) with (q * 3) at 1 by lia.
    done. }
  split; [|split].
  - intros a Fa Hd. destruct (Hrun [a]) as (res & Hres & Hdrop); [simpl; lia..|].
    exists res. split; [done|]. rewrite Hdrop. simpl. f_equal. bitblast.
  - intros a b Fa Fb Hd B0 B1. split.
    + destruct (Hrun [a; b]) as (res & Hres & Hdrop); [simpl; lia..|].
      exists res. split; [done|]. rewrite Hdrop. subst B0 B1. simpl.
      repeat f_equal; bitblast.
    + subst B0 B1. bitblast.
  - intros a b c Fa Fb Fc Hd B0 B1 B2.
    destruct (Hrun [a; b; c]) as (res & Hres & Hdrop); [simpl; lia..|].
    exists res. split; [done|]. rewrite Hdrop. subst B0 B1 B2. simpl.
    repeat f_equal; bitblast.
Qed.

Lemma pack6_partial_group_witness :
  let full := [1; 2; 3; 4]%Z in
  let dest := [7; 7; 7; 7; 7; 7; 7]%Z in
  (∃ res,
     BytePacker.pack6 dest 0 (full ++ [5]%Z) 0 5 = Some res ∧
     drop 3 res = [5; 7; 7; 7]%Z) ∧
  ((∃ res,
      BytePacker.pack6 dest 0 (full ++ [5; 63]%Z) 0 6 = Some res ∧
      drop 3 res = [197; 15; 7; 7]%Z) ∧
   Z.lor (Z.shiftr 197 6) (Z.shiftl 15 2) = 63%Z) ∧
  (∃ res,
     BytePacker.pack6 dest 0 (full ++ [5; 63; 33]%Z) 0 7 = Some res ∧
     drop 3 res = [197; 31; 2; 7]%Z).
Proof.
  intros full dest.
  destruct (pack6_partial_group full dest 1 eq_refl) as (H1 & H2 & H3).
  assert (fits 6 5 ∧ fits 6 63 ∧ fits 6 33) as (F5 & F63 & F33)
    by (unfold fits; simpl; lia).
  split; [|split].
  - apply (H1 5%Z F5). simpl. lia.
  - apply (H2 5%Z 63%Z F5 F63). simpl. lia.
  - apply (H3 5%Z 63%Z 33%Z F5 F63 F33). simpl. lia.
Defined.

(** C6 fails as stated: the last byte is assigned as a whole, so its upper
    nibble does not keep what the destination held. A destination full of
    255 ends with upper nibble 0 after packing the 4-bit symbol 5, and also
    after packing the 12-bit symbol 2748. *)
Lemma pack_odd_overwrites_upper_nibble :
  BytePacker.pack4 [255]%Z 0 [5]%Z 0 1 = Some [5]%Z ∧
  BytePacker.pack12 [255; 255]%Z 0 [2748]%Z 0 1 = Some [188; 10]%Z ∧
  ¬ (∀ old new, BytePacker.pack4 [old] 0 [5]%Z 0 1 = Some [new] →
       Z.shiftr new 4 = Z.shiftr old 4) ∧
  ¬ (∀ old new b0, BytePacker.pack12 [old; old] 0 [2748]%Z 0 1 = Some [b0; new] →
       Z.shiftr new 4 = Z.shiftr old 4).
Proof.
  split; [reflexivity|]. split; [reflexivity|]. split.
  - intros H. specialize (H 255%Z 5%Z eq_refl). vm_compute in H. discriminate H.
  - intros H. specialize (H 255%Z 10%Z 188%Z eq_refl). vm_compute in H. discriminate H.
Qed.

(** C6, amended. With an odd count the 4-bit packer assigns the whole last
    byte: it becomes the last symbol, whose upper nibble is zero when the
    symbol fits 4 bits. The 12-bit packer writes two whole bytes for the
    left-over symbol, its low 8 bits and its bits 8 to 11, so the upper
    nibble of the last byte becomes zero. Later bytes are left as they were. *)
Theorem pack_odd_last_byte (full dest : list Z) (q : nat) (a : Z) :
  length full = 2 * q →
  (fits 4 a → q + 1 ≤ length dest →
     (∃ res,
        BytePacker.pack4 dest 0 (full ++ [a]) 0 (2 * q + 1) = Some res ∧
        drop q res = a :: drop (q + 1) dest) ∧
     Z.land a 15 = a ∧ Z.shiftr a 4 = 0%Z) ∧
  (fits 12 a → 3 * q + 2 ≤ length dest →
     let B0 := Z.land a 255 in
     let B1 := Z.shiftr a 8 in
     (∃ res,
        BytePacker.pack12 dest 0 (full ++ [a]) 0 (2 * q + 1) = Some res ∧
        drop (3 * q) res = B0 :: B1 :: drop (3 * q + 2) dest) ∧
     Z.shiftr B1 4 = 0%Z).
Proof.
  intros Hfull. split.
  - intros Fa Hd. split; [|split; bitblast].
    assert (packed_size 4 (length (full ++ [a])) = q + 1) as Hsize.
    { rewrite length_app, Hfull. unfold packed_size. simpl. lia. }
    destruct (packW_groups_tail W4 2 1 pack4_group pack4_tail full [a] dest q)
      as (res & Hres & Hdrop);
      try done; try (simpl; lia); try apply pack4_group_length.
    exists res. simpl bits in Hdrop. rewrite Hsize in Hdrop.
    replace (2 * q) with (q * 2) by lia. replace q with (q * 1) at 2 by lia.
    split; [done|]. rewrite Hdrop. simpl. f_equal. bitblast.
  - intros Fa Hd B0 B1. split; [|subst B1; bitblast].
    assert (packed_size 12 (length (full ++ [a])) = 3 * q + 2) as Hsize.
    { rewrite length_app, Hfull. unfold packed_size. simpl. lia. }
    destruct (packW_groups_tail W12 2 3 pack12_group pack12_tail full [a] dest q)
      as (res & Hres & Hdrop);
      try done; try (simpl; lia); try apply pack12_group_length.
    exists res. simpl bits in Hdrop. rewrite Hsize in Hdrop.
    replace (2 * q) with (q * 2) by lia. replace (3 * q) with (q * 3) at 1 by lia.
    split; [done|]. rewrite Hdrop. subst B0 B1. simpl. repeat f_equal; bitblast.
Qed.

Lemma pack_odd_last_byte_witness :
  let dest := [255; 255; 255; 255; 255; 255]%Z in
  ((∃ res,
      BytePacker.pack4 dest 0 ([1; 2]%Z ++ [5]%Z) 0 3 = Some res ∧
      drop 1 res = [5; 255; 255; 255; 255]%Z) ∧
   Z.land 5 15 = 5%Z ∧ Z.shiftr 5 4 = 0%Z) ∧
  ((∃ res,
      BytePacker.pack12 dest 0 ([1; 2]%Z ++ [2748]%Z) 0 3 = Some res ∧
      drop 3 res = [188; 10; 255]%Z) ∧
   Z.shiftr 10 4 = 0%Z).
Proof.
  intros dest. split.
  - destruct (pack_odd_last_byte [1; 2]%Z dest 1 5 eq_refl) as [H4 _].
    apply H4; [unfold fits; simpl; lia | simpl; lia].
  - destruct (pack_odd_last_byte [1; 2]%Z dest 1 2748 eq_refl) as [_ H12].
    apply H12; [unfold fits; simpl; lia | simpl; lia].
Defined.

(** ** The weight column *)

(** Multiplying the dimensions one by one in a type of [bits] bits leaves
    the product of the shape reduced modulo 2^bits. *)
Lemma foldl_mul_to_width bits shape (v : Z) :
  foldl (λ n i, to_width bits (Z.of_nat n * Z.of_nat i)) (to_width bits v) shape =
  to_width bits (v * Z.of_nat (product shape)).
Proof.
  revert v. induction shape as [|d shape IH]; intros v; cbn [foldl product foldr].
  - by rewrite Z.mul_1_r.
  - fold (product shape).
    assert (to_width bits (Z.of_nat (to_width bits v) * Z.of_nat d) =
            to_width bits (v * Z.of_nat d)) as ->.
    { unfold to_width. f_equal.
      rewrite Z2Nat.id by (apply Z.mod_pos_bound; lia).
      apply Z.mul_mod_idemp_l. lia. }
    rewrite IH. f_equal. lia.
Qed.

Lemma to_width_fits bits (n : nat) :
  (Z.of_nat n < 2 ^ Z.of_nat bits)%Z → to_width bits (Z.of_nat n) = n.
Proof.
  intros Hn. unfold to_width. rewrite Z.mod_small by lia. apply Nat2Z.id.
Qed.

Lemma length_resize {A} n (zero : A) v : length (resize n zero v) = n.
Proof. unfold resize. rewrite length_app, length_take, length_replicate. lia. Qed.

Ltac project :=
  cbn [OffringaWeightColumn._bitsPerSymbol OffringaWeightColumn._shape
       OffringaWeightColumn._symbolsPerCell OffringaWeightColumn._encoder
       OffringaWeightColumn._packBuffer OffringaWeightColumn._symbolBuffer
       OffringaWeightColumn._dataCopyBuffer OffringaWeightColumn.Stride].

(** C8 fails as stated, in two places. A [bitsPerSymbol] of 32 is not zero,
    yet [Prepare] does not create an encoder with 2^32 levels, because
    [1 << 32] is not defined on [int]. And [symbolsPerCell] is not always the
    product of the shape: the product is accumulated in the member, so for
    the shape (65536, 65536), whose product is 2^32, a member of 32 bits is
    left with 0, and so is a member of 64 bits for the shape (2^32, 2^32). *)
Lemma Prepare_out_of_range :
  let column bitsPerSymbol shape :=
    {| OffringaWeightColumn._bitsPerSymbol := bitsPerSymbol;
       OffringaWeightColumn._symbolsPerCell := 0;
       OffringaWeightColumn._shape := shape;
       OffringaWeightColumn._encoder := None;
       OffringaWeightColumn._symbolBuffer := [];
       OffringaWeightColumn._packBuffer := None;
       OffringaWeightColumn._dataCopyBuffer := [] |} in
  let wraps count_bits shape :=
    product shape ≠ 0 ∧
    ∃ c' log,
      OffringaWeightColumn.Prepare (λ _, 0%Z) count_bits (column 4%Z shape) =
        Return (c', log) ∧
      OffringaWeightColumn._symbolsPerCell c' = 0 ∧
      OffringaWeightColumn._symbolBuffer c' = [] in
  (let c := column 32%Z [2; 3] in
   OffringaWeightColumn._bitsPerSymbol c ≠ 0%Z ∧
   OffringaWeightColumn.Prepare (λ _, 0%Z) 32 c = Undefined ∧
   ¬ (∃ c' log,
        OffringaWeightColumn.Prepare (λ _, 0%Z) 32 c = Return (c', log) ∧
        OffringaWeightColumn._encoder c' = Some (2 ^ 32)%Z)) ∧
  wraps 32 [2 ^ 16; 2 ^ 16] ∧
  wraps 64 [2 ^ 32; 2 ^ 32].
Proof.
  intros column wraps. split; [|split].
  - intros c. split; [done|]. split; [reflexivity|].
    intros (c' & log & H & _). discriminate H.
  - split.
    + unfold product. cbn [foldr]. apply Nat.neq_mul_0. split; [|apply Nat.neq_mul_0];
        by repeat split; try apply Nat.pow_nonzero.
    + do 2 eexists. split; [reflexivity|]. unfold column. project.
      assert (foldl (λ n i, to_width 32 (Z.of_nat n * Z.of_nat i)) (to_width 32 1)
                [2 ^ 16; 2 ^ 16] = 0) as ->; [|done].
      rewrite foldl_mul_to_width. unfold product. cbn [foldr].
      by rewrite !Nat2Z.inj_mul, !Nat2Z.inj_pow.
  - split.
    + unfold product. cbn [foldr]. apply Nat.neq_mul_0. split; [|apply Nat.neq_mul_0];
        by repeat split; try apply Nat.pow_nonzero.
    + do 2 eexists. split; [reflexivity|]. unfold column. project.
      assert (foldl (λ n i, to_width 64 (Z.of_nat n * Z.of_nat i)) (to_width 64 1)
                [2 ^ 32; 2 ^ 32] = 0) as ->; [|done].
      rewrite foldl_mul_to_width. unfold product. cbn [foldr].
      by rewrite !Nat2Z.inj_mul, !Nat2Z.inj_pow.
Qed.

(** C8, amended. [Prepare] fails with a configuration error exactly when
    [bitsPerSymbol] is zero, and then changes no state. Otherwise, for a
    [bitsPerSymbol] below 31 (where [1 << bitsPerSymbol] is
    2^bitsPerSymbol), it creates an encoder with 2^bitsPerSymbol levels,
    computes [symbolsPerCell] as the product of all shape dimensions reduced
    modulo 2^count_bits, the range of the member's type (so as the product
    itself whenever that fits), allocates the pack buffer to
    [sizeof(float) + ceil(symbolsPerCell*bitsPerSymbol/8)] bytes, and resizes
    the symbol and float scratch buffers to [symbolsPerCell] elements. It is
    callable again after a shape change, and releases the prior encoder and
    the prior pack buffer first, each before it allocates the new one. *)
Theorem Prepare_spec (junk : nat → Z) (count_bits : nat)
    (c : OffringaWeightColumn.column) :
  let bitsPerSymbol := OffringaWeightColumn._bitsPerSymbol c in
  let cells shape := to_width count_bits (Z.of_nat (product shape)) in
  let prepared shape old c' log :=
    log = [delete_encoder (OffringaWeightColumn._encoder old);
           new_encoder (2 ^ bitsPerSymbol)%Z;
           delete_array (OffringaWeightColumn._packBuffer old);
           new_array (OffringaWeightColumn.Stride c')] ∧
    OffringaWeightColumn._bitsPerSymbol c' = bitsPerSymbol ∧
    OffringaWeightColumn._shape c' = shape ∧
    OffringaWeightColumn._symbolsPerCell c' = cells shape ∧
    ((Z.of_nat (product shape) < 2 ^ Z.of_nat count_bits)%Z →
     OffringaWeightColumn._symbolsPerCell c' = product shape) ∧
    OffringaWeightColumn._encoder c' = Some (2 ^ bitsPerSymbol)%Z ∧
    (∃ packBuffer,
       OffringaWeightColumn._packBuffer c' = Some packBuffer ∧
       length packBuffer = OffringaWeightColumn.Stride c') ∧
    OffringaWeightColumn.Stride c' =
      sizeof_float + packed_size (Z.to_nat bitsPerSymbol) (cells shape) ∧
    length (OffringaWeightColumn._symbolBuffer c') = cells shape ∧
    length (OffringaWeightColumn._dataCopyBuffer c') = cells shape in
  ((∃ what st, OffringaWeightColumn.Prepare junk count_bits c = Throw what st) ↔
     bitsPerSymbol = 0%Z) ∧
  (bitsPerSymbol = 0%Z →
     OffringaWeightColumn.Prepare junk count_bits c =
     Throw "bitsPerSymbol not initialized in OffringaWeightCol" (c, [])) ∧
  ((0 < bitsPerSymbol < 31)%Z →
     ∃ c1 log1,
       OffringaWeightColumn.Prepare junk count_bits c = Return (c1, log1) ∧
       prepared (OffringaWeightColumn._shape c) c c1 log1 ∧
       ∀ shape, ∃ c2 log2,
         OffringaWeightColumn.Prepare junk count_bits
           (OffringaWeightColumn.setShapeColumn c1 shape) = Return (c2, log2) ∧
         prepared shape c1 c2 log2).
Proof.
  intros bitsPerSymbol cells prepared.
  assert (∀ old shape,
            OffringaWeightColumn._bitsPerSymbol old = bitsPerSymbol →
            OffringaWeightColumn._shape old = shape →
            (0 < bitsPerSymbol < 31)%Z →
            ∃ c' log,
              OffringaWeightColumn.Prepare junk count_bits old = Return (c', log) ∧
              prepared shape old c' log) as Hrun.
  { intros old shape Hb Hs Hr. unfold OffringaWeightColumn.Prepare, int_shl1.
    rewrite Hb, Hs.
    rewrite (proj2 (Z.eqb_neq _ _)) by lia. rewrite (proj2 (Z.ltb_lt _ _)) by lia.
    do 2 eexists. split; [reflexivity|]. unfold prepared, cells. project.
    rewrite !foldl_mul_to_width, !Z.mul_1_l, !length_resize.
    repeat split; try reflexivity.
    - apply to_width_fits.
    - eexists. split; [reflexivity|]. by rewrite length_fmap, length_seq. }
  split; [|split].
  - unfold OffringaWeightColumn.Prepare. fold bitsPerSymbol.
    destruct (Z.eqb_spec bitsPerSymbol 0) as [Hz|Hz].
    + split; [done|]. intros _. by do 2 eexists.
    + split; [|done]. intros (what & st & H).
      by destruct (int_shl1 bitsPerSymbol).
  - intros Hz. unfold OffringaWeightColumn.Prepare. fold bitsPerSymbol.
    by rewrite Hz.
  - intros Hr. destruct (Hrun c (OffringaWeightColumn._shape c)) as (c1 & log1 & H1 & P1);
      [done..|].
    exists c1, log1. split; [done|]. split; [done|].
    intros shape.
    destruct (Hrun (OffringaWeightColumn.setShapeColumn c1 shape) shape)
      as (c2 & log2 & H2 & P2); [|done|done|by exists c2, log2].
    simpl. by destruct P1 as (_ & Hb & _).
Qed.

Lemma Prepare_spec_witness :
  let c := {| OffringaWeightColumn._bitsPerSymbol := 6;
              OffringaWeightColumn._symbolsPerCell := 0;
              OffringaWeightColumn._shape := [2; 3];
              OffringaWeightColumn._encoder := None;
              OffringaWeightColumn._symbolBuffer := [];
              OffringaWeightColumn._packBuffer := None;
              OffringaWeightColumn._dataCopyBuffer := [] |} in
  ∃ c1 log1,
    OffringaWeightColumn.Prepare (λ _, 0%Z) 32 c = Return (c1, log1) ∧
    OffringaWeightColumn._symbolsPerCell c1 = 6 ∧
    OffringaWeightColumn._encoder c1 = Some 64%Z ∧
    OffringaWeightColumn.Stride c1 = 9.
Proof.
  intros c.
  destruct (Prepare_spec (λ _, 0%Z) 32 c) as (_ & _ & H).
  destruct H as (c1 & log1 & H1 & P1 & _); [simpl; lia|].
  exists c1, log1. split; [exact H1|].
  destruct P1 as (_ & _ & _ & _ & Hspc & Henc & _ & Hstride & _).
  split; [apply Hspc; simpl; lia|]. split; [exact Henc|]. exact Hstride.
Defined.

(** The dispatchers applied behind a header: the header is left alone and
    the area behind it is treated as it would be on its own. *)
Lemma supported_or_not (bitCount : Z) :
  (∃ w, bitCount = Z.of_nat (bits w)) ∨
  (bitCount ≠ 4 ∧ bitCount ≠ 6 ∧ bitCount ≠ 8 ∧ bitCount ≠ 12)%Z.
Proof.
  destruct (decide (bitCount = 4%Z)) as [->|]; [left; by exists W4|].
  destruct (decide (bitCount = 6%Z)) as [->|]; [left; by exists W6|].
  destruct (decide (bitCount = 8%Z)) as [->|]; [left; by exists W8|].
  destruct (decide (bitCount = 12%Z)) as [->|]; [left; by exists W12|].
  by right.
Qed.

Lemma pack_behind_header bitCount hdr area symbols :
  length area = packed_size (Z.to_nat bitCount) (length symbols) →
  ∃ payload,
    BytePacker.pack bitCount area 0 symbols 0 (length symbols) = Some payload ∧
    BytePacker.pack bitCount (hdr ++ area) (length hdr) symbols 0 (length symbols) =
      Some (hdr ++ payload) ∧
    length payload = length area.
Proof.
  intros Ha. destruct (supported_or_not bitCount) as [[w ->]|(H4 & H6 & H8 & H12)].
  - rewrite Nat2Z.id in Ha. exists (enc w symbols).
    rewrite !(proj1 (dispatch_supported w _ _ _ _ _)). split; [|split].
    + rewrite (packW_at w area 0 symbols 0 [] area [] [] symbols []);
        rewrite ?app_nil_r; done.
    + rewrite (packW_at w (hdr ++ area) (length hdr) symbols 0 hdr area [] [] symbols []);
        rewrite ?app_nil_r; done.
    + by rewrite enc_length.
  - exists area.
    by rewrite !(proj1 (dispatch_other bitCount _ _ _ _ _ H4 H6 H8 H12)).
Qed.

Lemma unpack_behind_header bitCount hdr area out :
  length area = packed_size (Z.to_nat bitCount) (length out) →
  ∃ symbols,
    BytePacker.unpack bitCount out 0 area 0 (length out) = Some symbols ∧
    BytePacker.unpack bitCount out 0 (hdr ++ area) (length hdr) (length out) =
      Some symbols ∧
    length symbols = length out.
Proof.
  intros Ha. destruct (supported_or_not bitCount) as [[w ->]|(H4 & H6 & H8 & H12)].
  - rewrite Nat2Z.id in Ha. exists (dec w (length out) area).
    rewrite !(proj2 (dispatch_supported w _ _ _ _ _)). split; [|split].
    + rewrite (unpackW_at w out 0 area 0 [] out [] [] area []);
        rewrite ?app_nil_r; done.
    + rewrite (unpackW_at w out 0 (hdr ++ area) (length hdr) [] out [] hdr area []);
        rewrite ?app_nil_r; done.
    + by rewrite dec_length.
  - exists out.
    by rewrite !(proj2 (dispatch_other bitCount _ _ _ _ _ H4 H6 H8 H12)).
Qed.

Lemma load_float_bytes x rest : load_float (float_bytes x ++ rest) 0 = Some x.
Proof. by destruct x. Qed.

Lemma Prepare_Return junk count_bits c0 c log :
  OffringaWeightColumn.Prepare junk count_bits c0 = Return (c, log) →
  OffringaWeightColumn._encoder c =
    Some (2 ^ OffringaWeightColumn._bitsPerSymbol c)%Z ∧
  (∃ packBuffer,
     OffringaWeightColumn._packBuffer c = Some packBuffer ∧
     length packBuffer = OffringaWeightColumn.Stride c) ∧
  length (OffringaWeightColumn._symbolBuffer c) =
    OffringaWeightColumn._symbolsPerCell c ∧
  length (OffringaWeightColumn._dataCopyBuffer c) =
    OffringaWeightColumn._symbolsPerCell c.
Proof.
  unfold OffringaWeightColumn.Prepare, int_shl1.
  destruct (_ =? _)%Z; [done|]. destruct (_ <? _)%Z; [|done].
  intros H. injection H as <- <-. project. rewrite !length_resize.
  split; [reflexivity|]. split; [|split; reflexivity].
  eexists. split; [reflexivity|].
  exact (eq_trans (length_fmap junk (seq 0 (sizeof_float + _))) (length_seq _ 0)).
Qed.

(** C9. On a column that [Prepare] returned, [putArrayfloatV] leaves in
    the pack buffer, and hands to the storage, a buffer of [Stride()] bytes
    that consists of the four bytes of the encoder's scale followed by what
    the dispatcher packs from the encoder's symbols into the bytes from
    offset [sizeof(float)] on. [getArrayfloatV] takes the first four bytes of
    the stored buffer as the scale, unpacks [symbolsPerCell] symbols from the
    bytes behind them with the dispatcher, and passes both to [Decode]. *)
Theorem cell_layout
    (Encode : Z → list Z → list float → float * list Z)
    (Decode : Z → list float → float → list Z → list float)
    (junk : nat → Z) (count_bits : nat) (c0 c : OffringaWeightColumn.column)
    (log : list heap_event) (storage : gmap nat (list Z)) (rowNr : nat) :
  OffringaWeightColumn.Prepare junk count_bits c0 = Return (c, log) →
  let bitsPerSymbol := OffringaWeightColumn._bitsPerSymbol c in
  let symbolsPerCell := OffringaWeightColumn._symbolsPerCell c in
  let quantCount := (2 ^ bitsPerSymbol)%Z in
  (∀ data scale symbols,
     length data ≤ symbolsPerCell →
     Encode quantCount (OffringaWeightColumn._symbolBuffer c)
       (data ++ drop (length data) (OffringaWeightColumn._dataCopyBuffer c)) =
       (scale, symbols) →
     length symbols = symbolsPerCell →
     ∃ old payload c' storage',
       OffringaWeightColumn._packBuffer c = Some old ∧
       BytePacker.pack bitsPerSymbol (drop sizeof_float old) 0 symbols 0
         symbolsPerCell = Some payload ∧
       OffringaWeightColumn.putArrayfloatV Encode c storage rowNr data =
         Some (c', storage') ∧
       OffringaWeightColumn._packBuffer c' = Some (float_bytes scale ++ payload) ∧
       storage' !! rowNr = Some (float_bytes scale ++ payload) ∧
       length (float_bytes scale ++ payload) = OffringaWeightColumn.Stride c) ∧
  (∀ scale payload size,
     storage !! rowNr = Some (float_bytes scale ++ payload) →
     length (float_bytes scale ++ payload) = OffringaWeightColumn.Stride c →
     ∃ symbols,
       BytePacker.unpack bitsPerSymbol (OffringaWeightColumn._symbolBuffer c) 0
         payload 0 symbolsPerCell = Some symbols ∧
       let data :=
         Decode quantCount (OffringaWeightColumn._dataCopyBuffer c) scale symbols in
       (size ≤ length data →
        ∃ c', OffringaWeightColumn.getArrayfloatV Decode c storage rowNr size =
              Some (c', take size data))).
Proof.
  intros HP bitsPerSymbol symbolsPerCell quantCount.
  destruct (Prepare_Return _ _ _ _ _ HP) as (Henc & (old & Hold & Hlen) & Hsym & Hdcb).
  fold bitsPerSymbol in Henc. fold symbolsPerCell in Hsym, Hdcb.
  assert (OffringaWeightColumn.Stride c =
          sizeof_float + packed_size (Z.to_nat bitsPerSymbol) symbolsPerCell)
    as Hstride by reflexivity.
  split.
  - intros data scale symbols Hdata HE Hsyms.
    destruct (pack_behind_header bitsPerSymbol (float_bytes scale)
                (drop sizeof_float old) symbols)
      as (payload & Hp0 & Hp4 & Hpl).
    { rewrite length_drop, Hsyms. lia. }
    rewrite Hsyms in Hp0, Hp4. rewrite length_drop in Hpl.
    exists old, payload. do 2 eexists.
    split; [done|]. split; [done|].
    assert (length (float_bytes scale ++ payload) = OffringaWeightColumn.Stride c)
      as Hl by (rewrite length_app; simpl; unfold sizeof_float in *; lia).
    unfold OffringaWeightColumn.putArrayfloatV.
    rewrite Hdcb, (proj2 (Nat.leb_le _ _) Hdata), Henc, Hold. cbn [mbind option_bind].
    fold bitsPerSymbol symbolsPerCell quantCount. rewrite HE.
    unfold store_float. rewrite (proj2 (Nat.leb_le _ _)) by (simpl; lia).
    rewrite take_0. cbn [mbind option_bind app]. 
    change (0 + sizeof_float) with sizeof_float.
    change sizeof_float with (length (float_bytes scale)) at 2.
    rewrite Hp4. cbn [mbind option_bind].
    unfold OffringaWeightColumn.writeCompressedData.
    rewrite (proj2 (Nat.leb_le _ _)) by lia. cbn [mbind option_bind].
    rewrite take_ge by lia.
    split; [reflexivity|]. split; [reflexivity|]. split; [|done].
    apply lookup_insert_eq.
  - intros scale payload size Hrow Hl.
    destruct (unpack_behind_header bitsPerSymbol (float_bytes scale) payload
                (OffringaWeightColumn._symbolBuffer c))
      as (symbols & Hu0 & Hu4 & Hul).
    { rewrite length_app, Hstride in Hl. rewrite Hsym.
      change (length (float_bytes scale)) with sizeof_float in Hl. lia. }
    rewrite Hsym in Hu0, Hu4. exists symbols. split; [done|].
    intros data Hsize. eexists.
    unfold OffringaWeightColumn.getArrayfloatV, OffringaWeightColumn.readCompressedData.
    rewrite Hold. cbn [mbind option_bind]. rewrite Hrow. cbn [mbind option_bind].
    rewrite (proj2 (Nat.eqb_eq _ _) Hl), (proj2 (Nat.leb_le _ _)) by lia.
    cbn [andb mbind option_bind].
    rewrite (drop_ge old) by lia. rewrite app_nil_r.
    fold bitsPerSymbol symbolsPerCell.
    change sizeof_float with (length (float_bytes scale)) at 1.
    rewrite Hu4. cbn [mbind option_bind]. rewrite Henc. cbn [mbind option_bind].
    rewrite load_float_bytes. cbn [mbind option_bind].
    fold quantCount data. by rewrite (proj2 (Nat.leb_le _ _) Hsize).
Qed.

Lemma cell_layout_witness :
  let scale := {| float_b0 := 1; float_b1 := 2; float_b2 := 3; float_b3 := 4 |} in
  let as_float (v : Z) :=
    {| float_b0 := v; float_b1 := 0; float_b2 := 0; float_b3 := 0 |} in
  let Encode (q : Z) (symbolBuffer : list Z) (data : list float)
    : float * list Z := (scale, float_b0 <$> data) in
  let Decode (q : Z) (data : list float) (s : float) (symbols : list Z)
    : list float := as_float <$> symbols in
  let junk (i : nat) := 255%Z in
  let c0 := {| OffringaWeightColumn._bitsPerSymbol := 4;
               OffringaWeightColumn._symbolsPerCell := 0;
               OffringaWeightColumn._shape := [3];
               OffringaWeightColumn._encoder := None;
               OffringaWeightColumn._symbolBuffer := [];
               OffringaWeightColumn._packBuffer := None;
               OffringaWeightColumn._dataCopyBuffer := [] |} in
  let data := [as_float 5%Z; as_float 9%Z; as_float 3%Z] in
  let row := [1; 2; 3; 4; 149; 3]%Z in
  ∃ c log,
    OffringaWeightColumn.Prepare junk 32 c0 = Return (c, log) ∧
    (∃ c' storage',
       OffringaWeightColumn.putArrayfloatV Encode c ∅ 7 data = Some (c', storage') ∧
       storage' !! 7 = Some row) ∧
    (∃ c',
       OffringaWeightColumn.getArrayfloatV Decode c {[7 := row]} 7 3 =
       Some (c', data)).
Proof.
  intros scale as_float Encode Decode junk c0 data row.
  do 2 eexists. split; [reflexivity|]. split.
  - edestruct (cell_layout Encode Decode junk 32 c0 _ _ ∅ 7 eq_refl) as [HW _].
    destruct (HW data scale [5; 9; 3]%Z)
      as (old & payload & c' & storage' & Hold & Hpack & Hput & _ & Hrow & _);
      [vm_compute; lia|reflexivity|reflexivity|].
    injection Hold as <-. vm_compute in Hpack. injection Hpack as <-.
    exists c', storage'. split; [exact Hput|exact Hrow].
  - edestruct (cell_layout Encode Decode junk 32 c0 _ _ {[7 := row]} 7 eq_refl) as [_ HR].
    destruct (HR scale [149; 3]%Z 3) as (symbols & Hsym & Hget);
      [reflexivity|reflexivity|].
    vm_compute in Hsym. injection Hsym as <-.
    apply Hget. vm_compute. lia.
Defined.

Example pack6_123 :
  BytePacker.pack6 [0; 0; 0]%Z 0 [1; 2; 3]%Z 0 3 = Some [129; 48; 0]%Z.
Proof. reflexivity. Qed.

Example unpack6_123 :
  BytePacker.unpack6 [7; 7; 7]%Z 0 [129; 48; 0]%Z 0 3 = Some [1; 2; 3]%Z.
Proof. reflexivity. Qed.

Example pack4_593 :
  BytePacker.pack4 [255; 255]%Z 0 [5; 9; 3]%Z 0 3 = Some [149; 3]%Z.
Proof. reflexivity. Qed.

Example unpack4_593 :
  BytePacker.unpack4 [7; 7; 7]%Z 0 [149; 3]%Z 0 3 = Some [5; 9; 3]%Z.
Proof. reflexivity. Qed.

Example pack12_4095_0 :
  BytePacker.pack12 [0; 0; 0]%Z 0 [4095; 0]%Z 0 2 = Some [255; 15; 0]%Z.
Proof. reflexivity. Qed.

Example unpack12_4095_0 :
  BytePacker.unpack12 [7; 7]%Z 0 [255; 15; 0]%Z 0 2 = Some [4095; 0]%Z.
Proof. reflexivity. Qed.

Example pack12_odd :
  BytePacker.pack12 [255; 255]%Z 0 [2748]%Z 0 1 = Some [188; 10]%Z.
Proof. reflexivity. Qed.

Example pack8_ex :
  BytePacker.pack8 [0; 0; 9]%Z 0 [1; 200]%Z 0 2 = Some [1; 200; 9]%Z.
Proof. reflexivity. Qed.

(** * Further properties of the code *)

(** ** The packers at arbitrary pointers *)

Lemma packW_at_ptr w mem dest sym symbolBuffer count :
  dest + packed_size (bits w) count ≤ length mem →
  symbolBuffer + count ≤ length sym →
  packW w mem dest sym symbolBuffer count =
  Some (take dest mem ++ enc w (take count (drop symbolBuffer sym)) ++
        drop (dest + packed_size (bits w) count) mem).
Proof.
  intros Hm Hs. set (n := packed_size (bits w) count).
  assert (length (take count (drop symbolBuffer sym)) = count) as Hc
    by (rewrite length_take, length_drop; lia).
  rewrite <- Hc at 1.
  apply (packW_at w _ _ _ _ (take dest mem) (take n (drop dest mem))
           (drop (dest + n) mem) (take symbolBuffer sym)
           (take count (drop symbolBuffer sym))
           (drop (symbolBuffer + count) sym)).
  - by rewrite <- drop_drop, !take_drop.
  - by rewrite <- drop_drop, !take_drop.
  - rewrite length_take. lia.
  - rewrite length_take. lia.
  - rewrite length_take, length_drop, Hc. fold n. lia.
Qed.

Lemma unpackW_at_ptr w mem symbolBuffer packed packedBuffer count :
  symbolBuffer + count ≤ length mem →
  packedBuffer + packed_size (bits w) count ≤ length packed →
  unpackW w mem symbolBuffer packed packedBuffer count =
  Some (take symbolBuffer mem ++
        dec w count (take (packed_size (bits w) count) (drop packedBuffer packed)) ++
        drop (symbolBuffer + count) mem).
Proof.
  intros Hm Hp. set (n := packed_size (bits w) count).
  assert (length (take count (drop symbolBuffer mem)) = count) as Hc
    by (rewrite length_take, length_drop; lia).
  rewrite <- Hc at 1 2.
  apply (unpackW_at w _ _ _ _ (take symbolBuffer mem) (take count (drop symbolBuffer mem))
           (drop (symbolBuffer + count) mem) (take packedBuffer packed)
           (take n (drop packedBuffer packed))
           (drop (packedBuffer + n) packed)).
  - by rewrite <- drop_drop, !take_drop.
  - by rewrite <- drop_drop, !take_drop.
  - rewrite length_take. lia.
  - rewrite length_take. lia.
  - rewrite length_take, length_drop, Hc. fold n. lia.
Qed.

(** X1. Packing through a pointer into the middle of a buffer, from a
    pointer into the middle of a symbol array, changes only the
    ceil(count*w/8) bytes at the destination pointer: everything before and
    behind them is kept, and they become what packing a copy of the same
    [count] symbols into a buffer of its own gives. *)
Theorem packW_in_place (w : width) (mem sym : list Z) (dest symbolBuffer count : nat) :
  let n := packed_size (bits w) count in
  dest + n ≤ length mem →
  symbolBuffer + count ≤ length sym →
  ∃ res,
    packW w mem dest sym symbolBuffer count = Some res ∧
    length res = length mem ∧
    take dest res = take dest mem ∧
    drop (dest + n) res = drop (dest + n) mem ∧
    ∀ fresh, length fresh = n →
      packW w fresh 0 (take count (drop symbolBuffer sym)) 0 count =
      Some (take n (drop dest res)).
Proof.
  intros n Hm Hs. eexists. split; [by apply packW_at_ptr|]. fold n.
  set (syms := take count (drop symbolBuffer sym)).
  assert (length syms = count) as Hc
    by (unfold syms; rewrite length_take, length_drop; lia).
  assert (length (enc w syms) = n) as He by (by rewrite enc_length, Hc).
  assert (length (take dest mem) = dest) as Ht by (rewrite length_take; lia).
  repeat split.
  - rewrite !length_app, length_drop, He, Ht. lia.
  - by rewrite take_app_length'.
  - rewrite app_assoc, drop_app_length'; [done|]. rewrite length_app. lia.
  - intros fresh Hf. rewrite <- Hc at 1. rewrite packW_run by (rewrite Hc; fold n; lia).
    rewrite Hc. fold n. rewrite (drop_ge fresh) by lia.
    by rewrite drop_app_length', take_app_length', app_nil_r.
Qed.

Lemma packW_in_place_witness :
  ∃ res,
    packW W6 [7; 7; 7; 7; 7; 7]%Z 2 [9; 9; 9; 1; 2; 3; 9]%Z 3 3 = Some res ∧
    length res = 6 ∧
    take 2 res = [7; 7]%Z ∧
    drop 5 res = [7]%Z ∧
    ∀ fresh, length fresh = 3 →
      packW W6 fresh 0 [1; 2; 3]%Z 0 3 = Some (take 3 (drop 2 res)).
Proof.
  apply (packW_in_place W6 [7; 7; 7; 7; 7; 7]%Z [9; 9; 9; 1; 2; 3; 9]%Z 2 3 3);
    vm_compute; lia.
Defined.

(** X2. Unpacking through pointers into the middle of both arrays changes
    only the [count] symbols at the symbol pointer, and they become what
    unpacking a copy of the ceil(count*w/8) bytes at the packed pointer
    gives. *)
Theorem unpackW_in_place (w : width) (mem packed : list Z)
    (symbolBuffer packedBuffer count : nat) :
  let n := packed_size (bits w) count in
  symbolBuffer + count ≤ length mem →
  packedBuffer + n ≤ length packed →
  ∃ res,
    unpackW w mem symbolBuffer packed packedBuffer count = Some res ∧
    length res = length mem ∧
    take symbolBuffer res = take symbolBuffer mem ∧
    drop (symbolBuffer + count) res = drop (symbolBuffer + count) mem ∧
    ∀ fresh, length fresh = count →
      unpackW w fresh 0 (take n (drop packedBuffer packed)) 0 count =
      Some (take count (drop symbolBuffer res)).
Proof.
  intros n Hm Hp. eexists. split; [by apply unpackW_at_ptr|]. fold n.
  set (bytes := take n (drop packedBuffer packed)).
  assert (length bytes = n) as Hb
    by (unfold bytes; rewrite length_take, length_drop; lia).
  assert (length (dec w count bytes) = count) as Hd by (by apply dec_length).
  assert (length (take symbolBuffer mem) = symbolBuffer) as Ht
    by (rewrite length_take; lia).
  repeat split.
  - rewrite !length_app, length_drop, Hd, Ht. lia.
  - by rewrite take_app_length'.
  - rewrite app_assoc, drop_app_length'; [done|]. rewrite length_app. lia.
  - intros fresh Hf. rewrite unpackW_run by (fold n; lia).
    fold n. rewrite (take_ge bytes) by lia. rewrite (drop_ge fresh) by lia.
    by rewrite drop_app_length', take_app_length', app_nil_r.
Qed.

Lemma unpackW_in_place_witness :
  ∃ res,
    unpackW W4 [8; 8; 8; 8; 8]%Z 1 [0; 149; 3; 0]%Z 1 3 = Some res ∧
    length res = 5 ∧
    take 1 res = [8]%Z ∧
    drop 4 res = [8]%Z ∧
    ∀ fresh, length fresh = 3 →
      unpackW W4 fresh 0 [149; 3]%Z 0 3 = Some (take 3 (drop 1 res)).
Proof.
  apply (unpackW_in_place W4 [8; 8; 8; 8; 8]%Z [0; 149; 3; 0]%Z 1 1 3);
    vm_compute; lia.
Defined.
(** ** Packing in pieces *)

Lemma blocks_concat g f t q1 q2 : ∀ l1 l2,
  length l1 = q1 * g →
  blocks g f t (q1 + q2) (l1 ++ l2) =
  blocks g f no_tail q1 l1 ++ blocks g f t q2 l2.
Proof.
  induction q1 as [|q1 IH]; intros l1 l2 Hl.
  - by destruct l1.
  - cbn [Nat.add blocks]. rewrite take_app_le, drop_app_le by lia.
    rewrite IH, app_assoc; [done|]. rewrite length_drop. lia.
Qed.

Lemma packed_size_groups w k m :
  packed_size (bits w) (k * group_size w + m) =
  packed_size (bits w) (k * group_size w) + packed_size (bits w) m.
Proof. unfold packed_size. destruct w; simpl; lia. Qed.

Lemma enc_app w k l1 l2 :
  length l1 = k * group_size w → enc w (l1 ++ l2) = enc w l1 ++ enc w l2.
Proof.
  intros Hl. destruct w; simpl in Hl; unfold enc; rewrite ?fmap_app; try done;
    rewrite length_app, Hl.
  - replace ((k * 2 + length l2) / 2) with (k + length l2 / 2) by lia.
    replace (k * 2 / 2) with k by lia.
    rewrite blocks_concat by done. f_equal.
    rewrite (blocks_tail _ _ pack4_tail), drop_ge by lia. by rewrite app_nil_r.
  - replace ((k * 4 + length l2) / 4) with (k + length l2 / 4) by lia.
    replace (k * 4 / 4) with k by lia.
    rewrite blocks_concat by done. f_equal.
    rewrite (blocks_tail _ _ pack6_tail), drop_ge by lia. by rewrite app_nil_r.
  - replace ((k * 2 + length l2) / 2) with (k + length l2 / 2) by lia.
    replace (k * 2 / 2) with k by lia.
    rewrite blocks_concat by done. f_equal.
    rewrite (blocks_tail _ _ pack12_tail), drop_ge by lia. by rewrite app_nil_r.
Qed.

Lemma dec_app w k c2 b1 b2 :
  length b1 = packed_size (bits w) (k * group_size w) →
  dec w (k * group_size w + c2) (b1 ++ b2) =
  dec w (k * group_size w) b1 ++ dec w c2 b2.
Proof.
  unfold packed_size. intros Hl.
  destruct w; simpl in *; unfold dec; rewrite ?fmap_app; try done.
  - replace ((k * 2 + c2) / 2) with (k + c2 / 2) by lia.
    replace (k * 2 / 2) with k by lia.
    rewrite blocks_concat by lia. f_equal.
    rewrite (blocks_tail _ _ unpack4_tail), drop_ge by lia. by rewrite app_nil_r.
  - replace ((k * 4 + c2) / 4) with (k + c2 / 4) by lia.
    replace (k * 4 / 4) with k by lia.
    rewrite blocks_concat by lia. f_equal.
    rewrite (blocks_tail _ _ unpack6_tail), drop_ge by lia. by rewrite app_nil_r.
  - replace ((k * 2 + c2) / 2) with (k + c2 / 2) by lia.
    replace (k * 2 / 2) with k by lia.
    rewrite blocks_concat by lia. f_equal.
    rewrite (blocks_tail _ _ unpack12_tail), drop_ge by lia. by rewrite app_nil_r.
Qed.

(** X3. An array may be packed in two calls instead of one, as long as the
    first call takes a whole number of groups (2 symbols for 4 and 12 bits,
    4 for 6 bits, any number for 8 bits): the second call, started where the
    first one ended in both arrays, completes the same bytes that a single
    call over all symbols writes. *)
Theorem packW_in_pieces (w : width) (k : nat) (l1 l2 dest : list Z) :
  length l1 = k * group_size w →
  packed_size (bits w) (length l1 + length l2) ≤ length dest →
  ∃ half res,
    packW w dest 0 (l1 ++ l2) 0 (length l1) = Some half ∧
    packW w half (packed_size (bits w) (length l1)) (l1 ++ l2) (length l1)
      (length l2) = Some res ∧
    packW w dest 0 (l1 ++ l2) 0 (length l1 + length l2) = Some res.
Proof.
  intros Hl Hd.
  pose proof (packed_size_groups w k (length l2)) as Hn. rewrite <- Hl in Hn.
  set (n1 := packed_size (bits w) (length l1)) in *.
  set (n2 := packed_size (bits w) (length l2)) in *.
  exists (enc w l1 ++ drop n1 dest), (enc w l1 ++ enc w l2 ++ drop (n1 + n2) dest).
  split; [|split].
  - apply (packW_at w _ _ _ _ [] (take n1 dest) (drop n1 dest) [] l1 l2);
      rewrite ?take_drop, ?length_take; (done || lia).
  - apply (packW_at w _ _ _ _ (enc w l1) (take n2 (drop n1 dest))
             (drop (n1 + n2) dest) l1 l2 []);
      rewrite ?app_nil_r, ?enc_length, ?length_take, ?length_drop; try (done || lia).
    by rewrite <- drop_drop, take_drop.
  - rewrite <- length_app, packW_run by (by rewrite length_app).
    by rewrite length_app, Hn, (enc_app w k), <- app_assoc.
Qed.

Lemma packW_in_pieces_witness :
  ∃ half res,
    packW W6 [0; 0; 0; 0; 0]%Z 0 ([1; 2; 3; 4] ++ [5; 6])%Z 0 4 = Some half ∧
    packW W6 half 3 ([1; 2; 3; 4] ++ [5; 6])%Z 4 2 = Some res ∧
    packW W6 [0; 0; 0; 0; 0]%Z 0 ([1; 2; 3; 4] ++ [5; 6])%Z 0 6 = Some res.
Proof.
  apply (packW_in_pieces W6 1 [1; 2; 3; 4]%Z [5; 6]%Z [0; 0; 0; 0; 0]%Z);
    [reflexivity | vm_compute; lia].
Defined.

(** X4. Likewise an array may be unpacked in two calls, the first one
    taking a whole number of groups: the second call continues behind the
    symbols and the bytes of the first. *)
Theorem unpackW_in_pieces (w : width) (k c2 : nat) (out packed : list Z) :
  let c1 := k * group_size w in
  c1 + c2 ≤ length out →
  packed_size (bits w) (c1 + c2) ≤ length packed →
  ∃ half res,
    unpackW w out 0 packed 0 c1 = Some half ∧
    unpackW w half c1 packed (packed_size (bits w) c1) c2 = Some res ∧
    unpackW w out 0 packed 0 (c1 + c2) = Some res.
Proof.
  intros c1 Ho Hp.
  pose proof (packed_size_groups w k c2) as Hn. fold c1 in Hn.
  set (n1 := packed_size (bits w) c1) in *.
  set (n2 := packed_size (bits w) c2) in *.
  set (b1 := take n1 packed). set (b2 := take n2 (drop n1 packed)).
  assert (length b1 = n1) as Hb1 by (unfold b1; rewrite length_take; lia).
  assert (length b2 = n2) as Hb2
    by (unfold b2; rewrite length_take, length_drop; lia).
  assert (length (dec w c1 b1) = c1) as Hd1 by (by apply dec_length).
  exists (dec w c1 b1 ++ drop c1 out),
         (dec w c1 b1 ++ dec w c2 b2 ++ drop (c1 + c2) out).
  split; [|split].
  - apply unpackW_run; fold n1; lia.
  - assert (length (take c2 (drop c1 out)) = c2) as Hc2
      by (rewrite length_take, length_drop; lia).
    rewrite <- Hc2 at 1 2.
    apply (unpackW_at w _ _ _ _ (dec w c1 b1) (take c2 (drop c1 out))
             (drop (c1 + c2) out) b1 b2 (drop (n1 + n2) packed));
      rewrite ?Hc2; try done.
    + by rewrite <- drop_drop, take_drop.
    + unfold b1, b2. by rewrite <- drop_drop, !take_drop.
  - rewrite unpackW_run by lia. rewrite Hn.
    replace (take (n1 + n2) packed) with (b1 ++ b2).
    + unfold c1. rewrite (dec_app w k) by done. by rewrite <- app_assoc.
    + unfold b1, b2. rewrite <- (take_drop n1 packed) at 3.
      rewrite take_app_add'; [done|]. rewrite length_take. lia.
Qed.

Lemma unpackW_in_pieces_witness :
  ∃ half res,
    unpackW W12 [0; 0; 0]%Z 0 [255; 15; 0; 188; 10]%Z 0 2 = Some half ∧
    unpackW W12 half 2 [255; 15; 0; 188; 10]%Z 3 1 = Some res ∧
    unpackW W12 [0; 0; 0]%Z 0 [255; 15; 0; 188; 10]%Z 0 3 = Some res.
Proof.
  apply (unpackW_in_pieces W12 1 1 [0; 0; 0]%Z [255; 15; 0; 188; 10]%Z);
    vm_compute; lia.
Defined.
(** ** Symbols that do not fit *)

Lemma blocks_fmap g f t (φ : Z → Z) (Q : Z → Prop) q :
  0 < g →
  (∀ c, (∀ x, head c = Some x → Q x) → f c = f (φ <$> c)) →
  (∀ c, (∀ x, head c = Some x → Q x) → t c = t (φ <$> c)) →
  ∀ l, (∀ i v, l !! i = Some v → i mod g = 0 → Q v) →
  blocks g f t q l = blocks g f t q (φ <$> l).
Proof.
  intros Hg Hf Ht. induction q as [|q IH]; intros l Hl; simpl.
  - apply Ht. intros x Hx. apply (Hl 0 x); [by rewrite <- head_lookup|].
    by apply Nat.Div0.mod_0_l.
  - rewrite <- fmap_take, <- fmap_drop. f_equal.
    + apply Hf. intros x Hx. apply (Hl 0 x); [|by apply Nat.Div0.mod_0_l].
      rewrite head_lookup, lookup_take_lt in Hx by done. done.
    + apply IH. intros i v Hi Hm. rewrite lookup_drop in Hi.
      apply (Hl (g + i) v Hi).
      rewrite <- Nat.Div0.add_mod_idemp_l, Nat.Div0.mod_same. done.
Qed.

Ltac each_cell :=
  repeat match goal with
  | |- _ :: _ = _ :: _ => apply (f_equal2 cons)
  end; try reflexivity.

Ltac head_fits :=
  match goal with
  | H : ∀ x, head (?a :: _) = Some x → _ |- _ => specialize (H a eq_refl)
  end.

Lemma pack4_group_truncate c :
  (∀ x, head c = Some x → fits 4 x) →
  pack4_group c = pack4_group ((λ v, v mod 2 ^ 4)%Z <$> c).
Proof.
  intros H. destruct c as [|a [|b [|]]]; try done. head_fits.
  simpl. each_cell; bitblast.
Qed.

Lemma pack4_tail_truncate c :
  (∀ x, head c = Some x → fits 4 x) →
  pack4_tail c = pack4_tail ((λ v, v mod 2 ^ 4)%Z <$> c).
Proof.
  intros H. destruct c as [|a [|]]; try done. head_fits.
  simpl. each_cell; bitblast.
Qed.

Lemma pack6_group_truncate c :
  (∀ x, head c = Some x → fits 6 x) →
  pack6_group c = pack6_group ((λ v, v mod 2 ^ 6)%Z <$> c).
Proof.
  intros H. destruct c as [|a [|b [|c [|d [|]]]]]; try done. head_fits.
  simpl. each_cell; bitblast.
Qed.

Lemma pack6_tail_truncate c :
  (∀ x, head c = Some x → fits 6 x) →
  pack6_tail c = pack6_tail ((λ v, v mod 2 ^ 6)%Z <$> c).
Proof.
  intros H. destruct c as [|a [|b [|c [|]]]]; try done; head_fits;
    simpl; each_cell; bitblast.
Qed.

Lemma pack12_group_truncate c :
  pack12_group c = pack12_group ((λ v, v mod 2 ^ 12)%Z <$> c).
Proof.
  destruct c as [|a [|b [|]]]; try done. simpl. each_cell; bitblast.
Qed.

Lemma pack12_tail_truncate c :
  pack12_tail c = pack12_tail ((λ v, v mod 2 ^ 12)%Z <$> c).
Proof.
  destruct c as [|a [|]]; try done. simpl. each_cell; bitblast.
Qed.

Lemma enc_truncate w l :
  (∀ i v, l !! i = Some v → stored_unmasked w i → fits (bits w) v) →
  enc w l = enc w (truncate w <$> l).
Proof.
  intros Hl. destruct w; unfold enc; rewrite ?length_fmap.
  - apply (blocks_fmap 2 _ _ _ (fits 4));
      auto using pack4_group_truncate, pack4_tail_truncate; lia.
  - apply (blocks_fmap 4 _ _ _ (fits 6));
      auto using pack6_group_truncate, pack6_tail_truncate; lia.
  - rewrite <- list_fmap_compose. apply list_fmap_ext. intros _ v _.
    unfold truncate. simpl. change (Z.pos (2 ^ 8)) with (2 ^ 8)%Z. bitblast.
  - apply (blocks_fmap 2 _ _ _ (λ _, True));
      auto using pack12_group_truncate, pack12_tail_truncate; lia.
Qed.

Lemma truncate_fits w l : Forall (fits (bits w)) (truncate w <$> l).
Proof.
  apply Forall_fmap, Forall_true. intros v. apply Z.mod_pos_bound. lia.
Qed.

(** X5. The packers do not need every symbol to fit: what is packed and
    unpacked again is each symbol reduced to its low [w] bits, provided the
    symbols that are stored unmasked (the first of each 4-bit pair and of
    each 6-bit group of four) fit. For 8 and 12 bits this holds for all
    symbols. *)
Theorem round_trip_truncates (w : width) (symbols dest out : list Z) :
  (∀ i v, symbols !! i = Some v → stored_unmasked w i → fits (bits w) v) →
  packed_size (bits w) (length symbols) ≤ length dest →
  length out = length symbols →
  ∃ packed,
    packW w dest 0 symbols 0 (length symbols) = Some packed ∧
    unpackW w out 0 packed 0 (length symbols) = Some (truncate w <$> symbols).
Proof.
  intros Hs Hd Ho. eexists. split; [by apply packW_run|].
  rewrite unpackW_run by (rewrite ?length_app, ?enc_length; lia).
  rewrite take_app_length' by (by rewrite enc_length).
  rewrite enc_truncate by done.
  rewrite <- (length_fmap (truncate w) symbols) at 1.
  rewrite dec_enc by apply truncate_fits.
  by rewrite drop_ge, app_nil_r by lia.
Qed.

Lemma round_trip_truncates_witness :
  ∃ packed,
    packW W6 [0; 0; 0; 0]%Z 0 [5; 200; 64; 7; 3]%Z 0 5 = Some packed ∧
    unpackW W6 [0; 0; 0; 0; 0]%Z 0 packed 0 5 = Some [5; 8; 0; 7; 3]%Z.
Proof.
  apply (round_trip_truncates W6 [5; 200; 64; 7; 3]%Z [0; 0; 0; 0]%Z
           [0; 0; 0; 0; 0]%Z).
  - intros i v Hi Hm. destruct i as [|[|[|[|[|i]]]]]; simpl in *;
      try discriminate; injection Hi as <-; vm_compute; split; congruence.
  - vm_compute. lia.
  - reflexivity.
Defined.

Lemma lookup_in_group {A} (l c : list A) g i j :
  take g (drop i l) = c → j < g → l !! (i + j) = c !! j.
Proof. intros <- Hj. by rewrite lookup_take_lt, lookup_drop. Qed.

Lemma drop_2 (l : list Z) i a b :
  l !! i = Some a → l !! (i + 1) = Some b → take 2 (drop i l) = [a; b].
Proof.
  intros Ha Hb. rewrite (drop_S l a i Ha).
  replace (i + 1) with (S i) in Hb by lia. by rewrite (drop_S l b (S i) Hb).
Qed.

(** The symbols that come back for group [k] are what the group unpacker
    makes of the bytes that the group packer made of group [k]. *)
Lemma dec_enc_group w k l :
  S k * group_size w ≤ length l →
  take (group_size w) (drop (k * group_size w) (dec w (length l) (enc w l))) =
    match w with
    | W4 => unpack4_group (pack4_group (take 2 (drop (k * 2) l)))
    | W6 => unpack6_group (pack6_group (take 4 (drop (k * 4) l)))
    | W8 => to_unsigned <$> (to_uchar <$> take 1 (drop (k * 1) l))
    | W12 => unpack12_group (pack12_group (take 2 (drop (k * 2) l)))
    end.
Proof.
  intros Hk. pose proof (enc_length w l) as Hlen.
  destruct w; simpl in Hk, Hlen |- *.
  - rewrite (blocks_group 1 2) with (k := k); [| |lia|].
    + rewrite (blocks_group 2 1); [done| |lia|].
      * intros c Hc. by explode c.
      * pose proof (Nat.Div0.mul_div_le (length l) 2). lia.
    + intros c Hc. by explode c.
    + unfold enc in Hlen. rewrite Hlen. unfold packed_size.
      pose proof (Nat.Div0.mul_div_le (length l) 2). lia.
  - rewrite (blocks_group 3 4) with (k := k); [| |lia|].
    + rewrite (blocks_group 4 3); [done| |lia|].
      * intros c Hc. by explode c.
      * pose proof (Nat.Div0.mul_div_le (length l) 4). lia.
    + intros c Hc. by explode c.
    + unfold enc in Hlen. rewrite Hlen. unfold packed_size.
      pose proof (Nat.Div0.mul_div_le (length l) 4). lia.
  - by rewrite <- !fmap_drop, <- !fmap_take.
  - rewrite (blocks_group 3 2) with (k := k); [| |lia|].
    + rewrite (blocks_group 2 3); [done| |lia|].
      * intros c Hc. by explode c.
      * pose proof (Nat.Div0.mul_div_le (length l) 2). lia.
    + intros c Hc. by explode c.
    + unfold enc in Hlen. rewrite Hlen. unfold packed_size.
      pose proof (Nat.Div0.mul_div_le (length l) 2). lia.
Qed.

Lemma pack_then_unpack_run w symbols dest out :
  packed_size (bits w) (length symbols) ≤ length dest →
  length out = length symbols →
  ∃ packed,
    packW w dest 0 symbols 0 (length symbols) = Some packed ∧
    unpackW w out 0 packed 0 (length symbols) =
      Some (dec w (length symbols) (enc w symbols)).
Proof.
  intros Hd Ho. eexists. split; [by apply packW_run|].
  rewrite unpackW_run by (rewrite ?length_app, ?enc_length; lia).
  rewrite take_app_length' by (by rewrite enc_length).
  by rewrite drop_ge, app_nil_r by lia.
Qed.

(** X6. 4-bit packing does not mask the first symbol of a pair: the bits of
    it above the low four are or-ed into the second symbol of the pair.
    After packing and unpacking, the first symbol comes back reduced to four
    bits and the second as the low four bits of [(a >> 4) | b]. *)
Theorem pack4_first_symbol_spills (symbols dest out : list Z) (k : nat) (a b : Z) :
  symbols !! (2 * k) = Some a →
  symbols !! (2 * k + 1) = Some b →
  packed_size 4 (length symbols) ≤ length dest →
  length out = length symbols →
  ∃ packed res,
    BytePacker.pack4 dest 0 symbols 0 (length symbols) = Some packed ∧
    BytePacker.unpack4 out 0 packed 0 (length symbols) = Some res ∧
    res !! (2 * k) = Some (a mod 2 ^ 4)%Z ∧
    res !! (2 * k + 1) = Some (Z.lor (Z.shiftr a 4) b mod 2 ^ 4)%Z.
Proof.
  intros Ha Hb Hd Ho.
  destruct (pack_then_unpack_run W4 symbols dest out Hd Ho) as (packed & Hp & Hu).
  exists packed, (dec W4 (length symbols) (enc W4 symbols)).
  split; [exact Hp|]. split; [exact Hu|].
  pose proof (lookup_lt_Some _ _ _ Hb) as Hlt.
  pose proof (dec_enc_group W4 k symbols) as Hg. simpl in Hg.
  rewrite (drop_2 symbols (k * 2) a b) in Hg
    by (by replace (k * 2) with (2 * k) by lia).
  specialize (Hg ltac:(lia)).
  assert (∀ x y : Z, x = y → Some x = Some y) as HS by (by intros ?? ->).
  unfold dec, enc.
  split.
  - replace (2 * k) with (k * 2 + 0) by lia.
    rewrite (lookup_in_group _ _ _ _ 0 Hg) by lia. simpl. apply HS. bitblast.
  - replace (2 * k + 1) with (k * 2 + 1) by lia.
    rewrite (lookup_in_group _ _ _ _ 1 Hg) by lia. simpl. apply HS. bitblast.
Qed.

Lemma pack4_first_symbol_spills_witness :
  ∃ packed res,
    BytePacker.pack4 [0; 0]%Z 0 [1; 2; 35; 4]%Z 0 4 = Some packed ∧
    BytePacker.unpack4 [0; 0; 0; 0]%Z 0 packed 0 4 = Some res ∧
    res !! 2 = Some 3%Z ∧ res !! 3 = Some 6%Z.
Proof.
  apply (pack4_first_symbol_spills [1; 2; 35; 4]%Z [0; 0]%Z [0; 0; 0; 0]%Z 1 35 4);
    [reflexivity | reflexivity | vm_compute; lia | reflexivity].
Defined.

(** X7. 6-bit packing does not mask the first symbol of a group of four:
    its bits 6 and 7 are or-ed into the low two bits of the second symbol.
    The third and fourth symbols are masked and come back reduced to six
    bits. *)
Theorem pack6_first_symbol_spills (symbols dest out : list Z) (k : nat)
    (a b c d : Z) :
  symbols !! (4 * k) = Some a →
  symbols !! (4 * k + 1) = Some b →
  symbols !! (4 * k + 2) = Some c →
  symbols !! (4 * k + 3) = Some d →
  packed_size 6 (length symbols) ≤ length dest →
  length out = length symbols →
  ∃ packed res,
    BytePacker.pack6 dest 0 symbols 0 (length symbols) = Some packed ∧
    BytePacker.unpack6 out 0 packed 0 (length symbols) = Some res ∧
    res !! (4 * k) = Some (a mod 2 ^ 6)%Z ∧
    res !! (4 * k + 1) = Some (Z.lor (Z.shiftr a 6 mod 2 ^ 2) (b mod 2 ^ 6))%Z ∧
    res !! (4 * k + 2) = Some (c mod 2 ^ 6)%Z ∧
    res !! (4 * k + 3) = Some (d mod 2 ^ 6)%Z.
Proof.
  intros Ha Hb Hc Hd Hdest Ho.
  destruct (pack_then_unpack_run W6 symbols dest out Hdest Ho) as (packed & Hp & Hu).
  exists packed, (dec W6 (length symbols) (enc W6 symbols)).
  split; [exact Hp|]. split; [exact Hu|].
  pose proof (lookup_lt_Some _ _ _ Hd) as Hlt.
  pose proof (dec_enc_group W6 k symbols) as Hg. simpl in Hg.
  replace (4 * k) with (k * 4) in * by lia.
  rewrite (drop_4 symbols (k * 4) a b c d) in Hg by done.
  specialize (Hg ltac:(lia)).
  assert (∀ x y : Z, x = y → Some x = Some y) as HS by (by intros ?? ->).
  unfold dec, enc.
  split; [|split; [|split]].
  - replace (k * 4) with (k * 4 + 0) at 1 by lia.
    rewrite (lookup_in_group _ _ _ _ 0 Hg) by lia. simpl. apply HS. bitblast.
  - rewrite (lookup_in_group _ _ _ _ 1 Hg) by lia. simpl. apply HS. bitblast.
  - rewrite (lookup_in_group _ _ _ _ 2 Hg) by lia. simpl. apply HS. bitblast.
  - rewrite (lookup_in_group _ _ _ _ 3 Hg) by lia. simpl. apply HS. bitblast.
Qed.

Lemma pack6_first_symbol_spills_witness :
  ∃ packed res,
    BytePacker.pack6 [0; 0; 0]%Z 0 [200; 4; 100; 7]%Z 0 4 = Some packed ∧
    BytePacker.unpack6 [0; 0; 0; 0]%Z 0 packed 0 4 = Some res ∧
    res !! 0 = Some 8%Z ∧ res !! 1 = Some 7%Z ∧
    res !! 2 = Some 36%Z ∧ res !! 3 = Some 7%Z.
Proof.
  apply (pack6_first_symbol_spills [200; 4; 100; 7]%Z [0; 0; 0]%Z [0; 0; 0; 0]%Z
           0 200 4 100 7);
    [reflexivity | reflexivity | reflexivity | reflexivity
    | vm_compute; lia | reflexivity].
Defined.

(** ** Unpacking fewer symbols *)

(** Within the last, possibly partial, group the unpackers mask every byte
    they read, so unpacking [j] symbols gives the first [j] of unpacking
    more. *)
Ltac eval_length H :=
  match type of H with
  | length ?l = ?e => let v := eval vm_compute in e in change (length l = v) in H
  end.

Lemma dec_tail_prefix w j m b :
  j < group_size w → j ≤ m → length b = packed_size (bits w) m →
  dec w j (take (packed_size (bits w) j) b) = take j (dec w m b).
Proof.
  intros Hj Hm Hb. destruct (decide (m < group_size w)) as [Hlt|Hge].
  - destruct w; simpl in Hj, Hlt;
      repeat (destruct m as [|m]; [|try lia]);
      repeat (destruct j as [|j]; [|try lia]);
      eval_length Hb; explode b; reflexivity.
  - replace m with (1 * group_size w + (m - group_size w)) in Hb |- * by lia.
    rewrite packed_size_groups in Hb.
    set (m' := m - group_size w) in *. clearbody m'. clear Hm Hge.
    rewrite <- (take_drop (packed_size (bits w) (1 * group_size w)) b).
    set (c := take _ b). set (r := drop _ b).
    assert (length c = packed_size (bits w) (1 * group_size w)) as Hc
      by (unfold c; rewrite length_take; lia).
    clearbody c r. clear Hb b.
    rewrite dec_app by done.
    rewrite (take_app_le (dec w _ c))
      by (rewrite dec_length by done; lia).
    rewrite (take_app_le c)
      by (rewrite Hc; unfold packed_size; destruct w; simpl in *; lia).
    destruct w; simpl in Hj;
      repeat (destruct j as [|j]; [|try lia]);
      eval_length Hc; explode c; reflexivity.
Qed.

Lemma dec_prefix w k n bytes :
  k ≤ n → length bytes = packed_size (bits w) n →
  dec w k (take (packed_size (bits w) k) bytes) = take k (dec w n bytes).
Proof.
  intros Hk Hb.
  assert (0 < group_size w) as Hg by (destruct w; simpl; lia).
  pose proof (Nat.div_mod_eq k (group_size w)) as Hqj.
  pose proof (Nat.mod_upper_bound k (group_size w) ltac:(lia)) as Hj.
  set (q := k / group_size w) in *. set (j := k mod group_size w) in *.
  clearbody q j.
  replace k with (q * group_size w + j) in Hk |- * by lia. clear Hqj k.
  replace n with (q * group_size w + (n - q * group_size w)) in Hb |- * by lia.
  set (m := n - q * group_size w) in *.
  assert (j ≤ m) as Hjm by lia. clearbody m. clear Hk n.
  rewrite !packed_size_groups in *.
  rewrite <- (take_drop (packed_size (bits w) (q * group_size w)) bytes).
  set (b1 := take _ bytes). set (b2 := drop _ bytes).
  assert (length b1 = packed_size (bits w) (q * group_size w)) as H1
    by (unfold b1; rewrite length_take; lia).
  assert (length b2 = packed_size (bits w) m) as H2
    by (unfold b2; rewrite length_drop; lia).
  clearbody b1 b2. clear Hb bytes.
  rewrite <- H1 at 1. rewrite take_app_add', !dec_app by done.
  rewrite (take_app_add' (dec w _ b1)) by (by rewrite dec_length).
  f_equal. by apply dec_tail_prefix.
Qed.

(** X8. Unpacking only [k] symbols from packed data that holds [n ≥ k]
    writes the same [k] symbols that unpacking all [n] writes first, and
    reads no more than the [packed_size k] bytes they occupy: the bits of
    the following symbols that share the last byte are masked out. *)
Theorem unpackW_prefix (w : width) (k n : nat) (out packed : list Z) :
  k ≤ n → n ≤ length out →
  packed_size (bits w) n ≤ length packed →
  ∃ part whole,
    unpackW w out 0 packed 0 k = Some part ∧
    unpackW w out 0 packed 0 n = Some whole ∧
    take k part = take k whole ∧
    drop k part = drop k out ∧
    ∀ packed', take (packed_size (bits w) k) packed' =
               take (packed_size (bits w) k) packed →
      unpackW w out 0 packed' 0 k = Some part.
Proof.
  intros Hk Hn Hp.
  assert (packed_size (bits w) k ≤ packed_size (bits w) n) as Hkn
    by (unfold packed_size; apply Nat.Div0.div_le_mono; nia).
  eexists _, _. split; [apply unpackW_run; lia|].
  split; [by apply unpackW_run|].
  assert (length (dec w k (take (packed_size (bits w) k) packed)) = k) as Hlen
    by (apply dec_length; rewrite length_take; lia).
  split; [|split].
  - rewrite take_app_length' by done.
    rewrite take_app_le
      by (rewrite dec_length by (rewrite length_take; lia); lia).
    rewrite <- (dec_prefix w k n) by (done || rewrite length_take; lia).
    by rewrite take_take, Nat.min_l by lia.
  - by rewrite drop_app_length' by done.
  - intros packed' Hsame. rewrite <- Hsame. apply unpackW_run; [lia|].
    apply (f_equal length) in Hsame. rewrite !length_take in Hsame. lia.
Qed.

Lemma unpackW_prefix_witness :
  ∃ part whole,
    unpackW W6 [0; 0; 0; 0; 0]%Z 0 [193; 32; 20; 6]%Z 0 2 = Some part ∧
    unpackW W6 [0; 0; 0; 0; 0]%Z 0 [193; 32; 20; 6]%Z 0 5 = Some whole ∧
    take 2 part = take 2 whole ∧
    drop 2 part = drop 2 [0; 0; 0; 0; 0]%Z ∧
    ∀ packed', take (packed_size (bits W6) 2) packed' =
               take (packed_size (bits W6) 2) [193; 32; 20; 6]%Z →
      unpackW W6 [0; 0; 0; 0; 0]%Z 0 packed' 0 2 = Some part.
Proof.
  apply (unpackW_prefix W6 2 5 [0; 0; 0; 0; 0]%Z [193; 32; 20; 6]%Z);
    [lia | simpl; lia | vm_compute; lia].
Defined.

(** ** When the calls stay inside their arrays *)

Ltac invert_accesses :=
  unfold store8, or8, store32, or32 in *;
  repeat match goal with
  | H : (_ ≫= _) = Some _ |- _ =>
      let H' := fresh in apply bind_Some in H as (? & H' & H); cbv zeta in H
  | H : Some _ = Some _ |- _ => injection H as H; try subst
  end;
  repeat match goal with
  | H : _ !! _ = Some _ |- _ => apply lookup_lt_Some in H
  end;
  rewrite ?length_insert in *.

(** A loop whose body steps two pointers by [a] and [b] cells and accesses
    all cells it steps over. *)
Lemma for_loop_Some (body : list Z * nat * nat → option (list Z * nat * nat))
    (a b N : nat) :
  (∀ mem p q mem' p' q', body (mem, p, q) = Some (mem', p', q') →
     length mem' = length mem ∧ p' = p + a ∧ q' = q + b ∧
     p + a ≤ length mem ∧ q + b ≤ N) →
  ∀ n mem p q mem' p' q',
    for_loop n body (mem, p, q) = Some (mem', p', q') →
    length mem' = length mem ∧ p' = p + n * a ∧ q' = q + n * b ∧
    (0 < n → p + n * a ≤ length mem ∧ q + n * b ≤ N).
Proof.
  intros Hbody. induction n as [|n IH]; intros mem p q mem' p' q' H; simpl in H.
  - injection H as <- <- <-. repeat split; lia.
  - apply bind_Some in H as ([[mem1 p1] q1] & H1 & H).
    apply Hbody in H1 as (? & -> & -> & ? & ?).
    apply IH in H as (? & -> & -> & ?). repeat split; lia.
Qed.

Lemma pack6_Some mem dest sym symbolBuffer symbolCount res :
  BytePacker.pack6 mem dest sym symbolBuffer symbolCount = Some res →
  0 < symbolCount →
  dest + packed_size 6 symbolCount ≤ length mem ∧
  symbolBuffer + symbolCount ≤ length sym.
Proof.
  unfold BytePacker.pack6, packed_size. intros H Hc.
  apply bind_Some in H as ([[mem1 p1] q1] & H1 & H).
  apply (for_loop_Some _ 3 4 (length sym)) in H1 as (? & -> & -> & ?).
  - repeat match type of H with
    | context [(?a <? ?b)] => destruct (Nat.ltb_spec a b)
    end; invert_accesses; lia.
  - clear. intros mem p q mem' p' q' H. unfold BytePacker.pack6_body in H.
    invert_accesses. lia.
Qed.

Ltac split_tail H :=
  repeat match type of H with
  | context [(?a <? ?b)] => destruct (Nat.ltb_spec a b)
  | context [(?a =? ?b)] => destruct (Nat.eqb_spec a b)
  end; simpl in H.

Lemma unpack6_Some mem symbolBuffer packed packedBuffer symbolCount res :
  BytePacker.unpack6 mem symbolBuffer packed packedBuffer symbolCount = Some res →
  0 < symbolCount →
  symbolBuffer + symbolCount ≤ length mem ∧
  packedBuffer + packed_size 6 symbolCount ≤ length packed.
Proof.
  unfold BytePacker.unpack6, packed_size. intros H Hc.
  apply bind_Some in H as ([[mem1 p1] q1] & H1 & H).
  apply (for_loop_Some _ 4 3 (length packed)) in H1 as (? & -> & -> & ?).
  - split_tail H; invert_accesses; lia.
  - clear. intros mem p q mem' p' q' H. unfold BytePacker.unpack6_body in H.
    invert_accesses. lia.
Qed.

Lemma pack4_Some mem dest sym symbolBuffer symbolCount res :
  BytePacker.pack4 mem dest sym symbolBuffer symbolCount = Some res →
  0 < symbolCount →
  dest + packed_size 4 symbolCount ≤ length mem ∧
  symbolBuffer + symbolCount ≤ length sym.
Proof.
  unfold BytePacker.pack4, packed_size. intros H Hc.
  apply bind_Some in H as ([[mem1 p1] q1] & H1 & H).
  apply (for_loop_Some _ 1 2 (length sym)) in H1 as (? & -> & -> & ?).
  - split_tail H; invert_accesses; lia.
  - clear. intros mem p q mem' p' q' H. unfold BytePacker.pack4_body in H.
    invert_accesses. lia.
Qed.

Lemma unpack4_Some mem symbolBuffer packed packedBuffer symbolCount res :
  BytePacker.unpack4 mem symbolBuffer packed packedBuffer symbolCount = Some res →
  0 < symbolCount →
  symbolBuffer + symbolCount ≤ length mem ∧
  packedBuffer + packed_size 4 symbolCount ≤ length packed.
Proof.
  unfold BytePacker.unpack4, packed_size. intros H Hc.
  apply bind_Some in H as ([[mem1 p1] q1] & H1 & H).
  apply (for_loop_Some _ 2 1 (length packed)) in H1 as (? & -> & -> & ?).
  - split_tail H; invert_accesses; lia.
  - clear. intros mem p q mem' p' q' H. unfold BytePacker.unpack4_body in H.
    invert_accesses. lia.
Qed.

Lemma pack12_Some mem dest sym symbolBuffer symbolCount res :
  BytePacker.pack12 mem dest sym symbolBuffer symbolCount = Some res →
  0 < symbolCount →
  dest + packed_size 12 symbolCount ≤ length mem ∧
  symbolBuffer + symbolCount ≤ length sym.
Proof.
  unfold BytePacker.pack12, packed_size. intros H Hc.
  apply bind_Some in H as ([[mem1 p1] q1] & H1 & H).
  apply (for_loop_Some _ 3 2 (length sym)) in H1 as (? & -> & -> & ?).
  - split_tail H; invert_accesses; lia.
  - clear. intros mem p q mem' p' q' H. unfold BytePacker.pack12_body in H.
    invert_accesses. lia.
Qed.

Lemma unpack12_Some mem symbolBuffer packed packedBuffer symbolCount res :
  BytePacker.unpack12 mem symbolBuffer packed packedBuffer symbolCount = Some res →
  0 < symbolCount →
  symbolBuffer + symbolCount ≤ length mem ∧
  packedBuffer + packed_size 12 symbolCount ≤ length packed.
Proof.
  unfold BytePacker.unpack12, packed_size. intros H Hc.
  apply bind_Some in H as ([[mem1 p1] q1] & H1 & H).
  apply (for_loop_Some _ 2 3 (length packed)) in H1 as (? & -> & -> & ?).
  - split_tail H; invert_accesses; lia.
  - clear. intros mem p q mem' p' q' H. unfold BytePacker.unpack12_body in H.
    invert_accesses. lia.
Qed.

(** The 8-bit loops index both arrays with the loop counter. *)
Lemma for_loop8_Some (body : list Z * nat → option (list Z * nat)) (p q N : nat) :
  (∀ mem i mem' i', body (mem, i) = Some (mem', i') →
     length mem' = length mem ∧ i' = i + 1 ∧
     p + i < length mem ∧ q + i < N) →
  ∀ n mem i mem' i',
    for_loop n body (mem, i) = Some (mem', i') →
    length mem' = length mem ∧ i' = i + n ∧
    (0 < n → p + i + n ≤ length mem ∧ q + i + n ≤ N).
Proof.
  intros Hbody. induction n as [|n IH]; intros mem i mem' i' H; simpl in H.
  - injection H as <- <-. repeat split; lia.
  - apply bind_Some in H as ([mem1 i1] & H1 & H).
    apply Hbody in H1 as (? & -> & ? & ?).
    apply IH in H as (? & -> & ?). repeat split; lia.
Qed.

Lemma pack8_Some mem dest sym symbolBuffer symbolCount res :
  BytePacker.pack8 mem dest sym symbolBuffer symbolCount = Some res →
  0 < symbolCount →
  dest + packed_size 8 symbolCount ≤ length mem ∧
  symbolBuffer + symbolCount ≤ length sym.
Proof.
  unfold BytePacker.pack8, packed_size. intros H Hc.
  apply bind_Some in H as ([mem1 i1] & H1 & H).
  apply (for_loop8_Some _ dest symbolBuffer (length sym)) in H1 as (? & -> & ?).
  - lia.
  - clear. intros mem i mem' i' H. unfold BytePacker.pack8_body in H.
    invert_accesses. lia.
Qed.

Lemma unpack8_Some mem symbolBuffer packed packedBuffer symbolCount res :
  BytePacker.unpack8 mem symbolBuffer packed packedBuffer symbolCount = Some res →
  0 < symbolCount →
  symbolBuffer + symbolCount ≤ length mem ∧
  packedBuffer + packed_size 8 symbolCount ≤ length packed.
Proof.
  unfold BytePacker.unpack8, packed_size. intros H Hc.
  apply bind_Some in H as ([mem1 i1] & H1 & H).
  apply (for_loop8_Some _ symbolBuffer packedBuffer (length packed)) in H1
    as (? & -> & ?).
  - lia.
  - clear. intros mem i mem' i' H. unfold BytePacker.unpack8_body in H.
    invert_accesses. lia.
Qed.

Lemma packW_Some w mem dest sym symbolBuffer symbolCount res :
  packW w mem dest sym symbolBuffer symbolCount = Some res →
  0 < symbolCount →
  dest + packed_size (bits w) symbolCount ≤ length mem ∧
  symbolBuffer + symbolCount ≤ length sym.
Proof.
  destruct w; unfold packW, bits.
  - apply pack4_Some.
  - apply pack6_Some.
  - apply pack8_Some.
  - apply pack12_Some.
Qed.

Lemma unpackW_Some w mem symbolBuffer packed packedBuffer symbolCount res :
  unpackW w mem symbolBuffer packed packedBuffer symbolCount = Some res →
  0 < symbolCount →
  symbolBuffer + symbolCount ≤ length mem ∧
  packedBuffer + packed_size (bits w) symbolCount ≤ length packed.
Proof.
  destruct w; unfold unpackW, bits.
  - apply unpack4_Some.
  - apply unpack6_Some.
  - apply unpack8_Some.
  - apply unpack12_Some.
Qed.

Lemma packW_nothing w mem dest sym symbolBuffer :
  packW w mem dest sym symbolBuffer 0 = Some mem.
Proof. by destruct w. Qed.

Lemma unpackW_nothing w mem symbolBuffer packed packedBuffer :
  unpackW w mem symbolBuffer packed packedBuffer 0 = Some mem.
Proof. by destruct w. Qed.

(** X9. A call of a packer is defined exactly when it is given no symbols
    or when the [packed_size] bytes from [dest] on and the [symbolCount]
    symbols from [symbolBuffer] on lie inside their arrays: the packer
    accesses the last byte and the last symbol of these ranges, and with no
    symbols it accesses nothing, whatever the pointers are. *)
Theorem packW_defined_iff (w : width) (mem sym : list Z)
    (dest symbolBuffer symbolCount : nat) :
  is_Some (packW w mem dest sym symbolBuffer symbolCount) ↔
  symbolCount = 0 ∨
  (dest + packed_size (bits w) symbolCount ≤ length mem ∧
   symbolBuffer + symbolCount ≤ length sym).
Proof.
  split.
  - intros [res H]. destruct symbolCount as [|n]; [by left|right].
    apply (packW_Some _ _ _ _ _ _ _ H). lia.
  - intros [->|[Hd Hs]].
    + rewrite packW_nothing. by eexists.
    + rewrite packW_at_ptr by done. by eexists.
Qed.

(** X10. A call of an unpacker is defined exactly when it is asked for no
    symbols or when the [symbolCount] symbols from [symbolBuffer] on and the
    [packed_size] bytes from [packedBuffer] on lie inside their arrays. *)
Theorem unpackW_defined_iff (w : width) (mem packed : list Z)
    (symbolBuffer packedBuffer symbolCount : nat) :
  is_Some (unpackW w mem symbolBuffer packed packedBuffer symbolCount) ↔
  symbolCount = 0 ∨
  (symbolBuffer + symbolCount ≤ length mem ∧
   packedBuffer + packed_size (bits w) symbolCount ≤ length packed).
Proof.
  split.
  - intros [res H]. destruct symbolCount as [|n]; [by left|right].
    apply (unpackW_Some _ _ _ _ _ _ _ H). lia.
  - intros [->|[Hd Hs]].
    + rewrite unpackW_nothing. by eexists.
    + rewrite unpackW_at_ptr by done. by eexists.
Qed.

(** ** Padding bits *)

Lemma land_ones_eq (k : Z) (x x' : Z) :
  (0 ≤ k)%Z → (x mod 2 ^ k = x' mod 2 ^ k)%Z →
  Z.land x (Z.ones k) = Z.land x' (Z.ones k).
Proof. intros Hk Hx. by rewrite !Z.land_ones by done. Qed.

Lemma dec_padding w n body x x' :
  (n * bits w) mod 8 ≠ 0 →
  length body + 1 = packed_size (bits w) n →
  (x mod 2 ^ Z.of_nat ((n * bits w) mod 8) =
   x' mod 2 ^ Z.of_nat ((n * bits w) mod 8))%Z →
  dec w n (body ++ [x]) = dec w n (body ++ [x']).
Proof.
  intros Hu Hb Hx.
  assert (0 < group_size w) as Hg by (destruct w; simpl; lia).
  pose proof (Nat.div_mod_eq n (group_size w)) as Hqj.
  pose proof (Nat.mod_upper_bound n (group_size w) ltac:(lia)) as Hj.
  set (q := n / group_size w) in *. set (j := n mod group_size w) in *.
  clearbody q j.
  replace n with (q * group_size w + j) in * by lia. clear Hqj n.
  rewrite packed_size_groups in Hb.
  assert (1 ≤ packed_size (bits w) j) as Hpj
    by (unfold packed_size; destruct w; simpl group_size in *; simpl bits in *; lia).
  rewrite <- (take_drop (packed_size (bits w) (q * group_size w)) body).
  set (b1 := take _ body). set (t := drop _ body).
  assert (length b1 = packed_size (bits w) (q * group_size w)) as H1
    by (unfold b1; rewrite length_take; lia).
  assert (length t + 1 = packed_size (bits w) j) as H2
    by (unfold t; rewrite length_drop; lia).
  clearbody b1 t. clear Hb body.
  rewrite <- !app_assoc, !dec_app by done. f_equal. clear H1 b1.
  destruct w; simpl group_size in *; simpl bits in *;
    repeat (destruct j as [|j]; [|try lia]); try (exfalso; lia);
    unfold packed_size in H2;
    match type of H2 with
    | length t + 1 = ?e =>
        let v := eval vm_compute in e in
        assert (length t = pred v) as Ht by (change e with v in H2; simpl; lia)
    end; simpl in Ht; explode t; clear Hu Hj Hg H2 Hpj; simpl app.
  - replace ((q * 2 + 1) * 4 mod 8) with 4 in Hx by lia.
    apply (land_ones_eq 4) in Hx; [|lia].
    change (unpack4_tail [x] = unpack4_tail [x']). simpl.
    change 15%Z with (Z.ones 4). by rewrite Hx.
  - replace ((q * 4 + 1) * 6 mod 8) with 6 in Hx by lia.
    apply (land_ones_eq 6) in Hx; [|lia].
    change (unpack6_tail [x] = unpack6_tail [x']). simpl.
    change 63%Z with (Z.ones 6). by rewrite Hx.
  - replace ((q * 4 + 2) * 6 mod 8) with 4 in Hx by lia.
    apply (land_ones_eq 4) in Hx; [|lia].
    match goal with |- dec _ _ [?a; _] = _ =>
      change (unpack6_tail [a; x] = unpack6_tail [a; x']) end. simpl.
    change 15%Z with (Z.ones 4). by rewrite Hx.
  - replace ((q * 4 + 3) * 6 mod 8) with 2 in Hx by lia.
    apply (land_ones_eq 2) in Hx; [|lia].
    match goal with |- dec _ _ [?a; ?b; _] = _ =>
      change (unpack6_tail [a; b; x] = unpack6_tail [a; b; x']) end. simpl.
    change 3%Z with (Z.ones 2). by rewrite Hx.
  - replace ((q * 2 + 1) * 12 mod 8) with 4 in Hx by lia.
    apply (land_ones_eq 4) in Hx; [|lia].
    match goal with |- dec _ _ [?a; _] = _ =>
      change (unpack12_tail [a; x] = unpack12_tail [a; x']) end. simpl.
    change 15%Z with (Z.ones 4). by rewrite Hx.
Qed.

(** X11. Unpacking does not read the padding: when the symbols do not end
    on a byte boundary, the bits of the last packed byte above the
    [(symbolCount * bitCount) mod 8] used ones have no influence on the
    result. *)
Theorem unpackW_ignores_padding (w : width) (n : nat) (out body : list Z)
    (x x' : Z) :
  let used := (n * bits w) mod 8 in
  used ≠ 0 →
  n ≤ length out →
  length body + 1 = packed_size (bits w) n →
  (x mod 2 ^ Z.of_nat used = x' mod 2 ^ Z.of_nat used)%Z →
  ∃ res,
    unpackW w out 0 (body ++ [x]) 0 n = Some res ∧
    unpackW w out 0 (body ++ [x']) 0 n = Some res.
Proof.
  intros used Hu Hn Hb Hx. eexists. split.
  - apply unpackW_run; [done|]. rewrite length_app. simpl. lia.
  - rewrite unpackW_run by (done || rewrite length_app; simpl; lia).
    rewrite !take_ge by (rewrite length_app; simpl; lia).
    by rewrite (dec_padding w n body x x').
Qed.

Lemma unpackW_ignores_padding_witness :
  ∃ res,
    unpackW W12 [0; 0; 0]%Z 0 ([1; 2; 3; 4] ++ [5])%Z 0 3 = Some res ∧
    unpackW W12 [0; 0; 0]%Z 0 ([1; 2; 3; 4] ++ [245])%Z 0 3 = Some res.
Proof.
  apply (unpackW_ignores_padding W12 3 [0; 0; 0]%Z [1; 2; 3; 4]%Z 5 245);
    [vm_compute; lia | simpl; lia | reflexivity | reflexivity].
Defined.

(** ** Packing what was unpacked *)

Lemma blocks_inverse_exact (P : Z → Prop) g h f t f' t' q :
  (∀ c, length c = g → length (f c) = h) →
  (∀ c, length c = g → Forall P c → f' (f c) = c) →
  t [] = [] → t' [] = [] →
  ∀ l, length l = q * g → Forall P l →
  blocks h f' t' q (blocks g f t q l) = l.
Proof.
  intros Hlen Hf Ht Ht'. induction q as [|q IH]; intros l Hl HP; simpl.
  - destruct l; [|done]. by rewrite Ht, Ht'.
  - assert (length (take g l) = g) as Hg by (rewrite length_take; lia).
    rewrite take_app_length', drop_app_length' by (by rewrite Hlen).
    rewrite Hf, IH, take_drop; try done.
    + rewrite length_drop. lia.
    + by apply Forall_drop.
    + by apply Forall_take.
Qed.

Lemma pack4_unpack4_group c :
  length c = 1 → Forall is_uchar c → pack4_group (unpack4_group c) = c.
Proof.
  intros Hc HF. explode c. split_Forall. simpl. each_cell; bitblast.
Qed.

Lemma pack6_unpack6_group c :
  length c = 3 → Forall is_uchar c → pack6_group (unpack6_group c) = c.
Proof.
  intros Hc HF. explode c. split_Forall. simpl. each_cell; bitblast.
Qed.

Lemma pack12_unpack12_group c :
  length c = 3 → Forall is_uchar c → pack12_group (unpack12_group c) = c.
Proof.
  intros Hc HF. explode c. split_Forall. simpl. each_cell; bitblast.
Qed.

Lemma enc_dec_groups w q b :
  length b = packed_size (bits w) (q * group_size w) → Forall is_uchar b →
  enc w (dec w (q * group_size w) b) = b.
Proof.
  intros Hb HF. pose proof (dec_length w _ b Hb) as Hlen. revert Hb Hlen.
  unfold packed_size. destruct w; simpl bits; simpl group_size; unfold enc, dec;
    intros Hb Hlen; rewrite ?Hlen.
  - replace (q * 2 / 2) with q by lia.
    apply blocks_inverse_exact with (g := 1) (h := 2) (P := is_uchar);
      auto using pack4_unpack4_group; try lia. intros c Hc. by explode c.
  - replace (q * 4 / 4) with q by lia.
    apply blocks_inverse_exact with (g := 3) (h := 4) (P := is_uchar);
      auto using pack6_unpack6_group; try lia. intros c Hc. by explode c.
  - rewrite <- list_fmap_compose. rewrite <- (list_fmap_id b) at 2.
    apply Forall_fmap_ext_1. eapply Forall_impl; [exact HF|].
    intros v [Hv0 Hv]. unfold to_unsigned, to_uchar. simpl.
    rewrite !Z.mod_small; lia.
  - replace (q * 2 / 2) with q by lia.
    apply blocks_inverse_exact with (g := 3) (h := 2) (P := is_uchar);
      auto using pack12_unpack12_group; try lia. intros c Hc. by explode c.
Qed.

Lemma enc_dec_tail w j b x :
  0 < j < group_size w → length b + 1 = packed_size (bits w) j →
  Forall is_uchar (b ++ [x]) → fits ((j * bits w) mod 8) x →
  enc w (dec w j (b ++ [x])) = b ++ [x].
Proof.
  intros Hj Hb HF Hx.
  destruct w; simpl group_size in Hj; simpl bits in *;
    repeat (destruct j as [|j]; [|try lia]); try lia;
    unfold packed_size in Hb;
    match type of Hb with
    | length b + 1 = ?e =>
        let v := eval vm_compute in e in
        assert (length b = pred v) as Hl by (change e with v in Hb; simpl; lia)
    end; simpl in Hl; explode b; simpl app in *; split_Forall;
    match type of Hx with
    | fits ?u x => let v := eval vm_compute in u in change (fits v x) in Hx
    end.
  - change (pack4_tail (unpack4_tail [x]) = [x]). simpl. each_cell; bitblast.
  - change (pack6_tail (unpack6_tail [x]) = [x]). simpl. each_cell; bitblast.
  - match goal with |- _ = [?a; _] =>
      change (pack6_tail (unpack6_tail [a; x]) = [a; x]) end.
    simpl. each_cell; bitblast.
  - match goal with |- _ = [?a; ?b; _] =>
      change (pack6_tail (unpack6_tail [a; b; x]) = [a; b; x]) end.
    simpl. each_cell; bitblast.
  - match goal with |- _ = [?a; _] =>
      change (pack12_tail (unpack12_tail [a; x]) = [a; x]) end.
    simpl. each_cell; bitblast.
Qed.

Lemma enc_dec w n bytes :
  Forall is_uchar bytes →
  length bytes = packed_size (bits w) n →
  (∀ x, last bytes = Some x → (n * bits w) mod 8 ≠ 0 →
        fits ((n * bits w) mod 8) x) →
  enc w (dec w n bytes) = bytes.
Proof.
  intros HF Hb Hpad.
  assert (0 < group_size w) as Hg by (destruct w; simpl; lia).
  pose proof (Nat.div_mod_eq n (group_size w)) as Hqj.
  pose proof (Nat.mod_upper_bound n (group_size w) ltac:(lia)) as Hj.
  set (q := n / group_size w) in *. set (j := n mod group_size w) in *.
  clearbody q j.
  replace n with (q * group_size w + j) in * by lia. clear Hqj n.
  rewrite packed_size_groups in Hb.
  revert HF Hpad. rewrite <- (take_drop (packed_size (bits w) (q * group_size w)) bytes).
  set (b1 := take _ bytes). set (b2 := drop _ bytes).
  assert (length b1 = packed_size (bits w) (q * group_size w)) as H1
    by (unfold b1; rewrite length_take; lia).
  assert (length b2 = packed_size (bits w) j) as H2
    by (unfold b2; rewrite length_drop; lia).
  clearbody b1 b2. clear Hb bytes. intros [HF1 HF2]%Forall_app Hpad.
  rewrite dec_app by done.
  rewrite (enc_app w q) by (by apply dec_length).
  rewrite enc_dec_groups by done. f_equal.
  destruct (decide (j = 0)) as [->|Hj0].
  - destruct b2; [by destruct w|].
    exfalso. revert H2. unfold packed_size. destruct w; simpl; lia.
  - induction b2 as [|x b _] using rev_ind.
    + exfalso. revert H2. unfold packed_size. destruct w; simpl in *; lia.
    + rewrite length_app in H2. simpl in H2.
      apply enc_dec_tail; [lia|done|done|].
      assert ((q * group_size w + j) * bits w mod 8 = j * bits w mod 8) as Hu
        by (destruct w; simpl group_size; simpl bits; lia).
      rewrite <- Hu. apply Hpad.
      * by rewrite app_assoc, last_snoc.
      * rewrite Hu. destruct w; simpl group_size in *; simpl bits; lia.
Qed.

(** X12. Unpacking followed by packing gives back the packed bytes: for
    bytes whose padding bits (those of the last byte above the
    [(symbolCount * bitCount) mod 8] used ones) are zero, packing the
    symbols that were unpacked from them writes the same bytes again. *)
Theorem repack_restores_bytes (w : width) (n : nat) (bytes out dest : list Z) :
  let used := (n * bits w) mod 8 in
  Forall is_uchar bytes →
  length bytes = packed_size (bits w) n →
  length out = n →
  length dest = length bytes →
  (∀ x, last bytes = Some x → used ≠ 0 → fits used x) →
  ∃ symbols,
    unpackW w out 0 bytes 0 n = Some symbols ∧
    packW w dest 0 symbols 0 n = Some bytes.
Proof.
  intros used HF Hb Ho Hd Hpad. exists (dec w n bytes).
  assert (length (dec w n bytes) = n) as Hlen by (by apply dec_length).
  split.
  - rewrite unpackW_run by lia.
    by rewrite take_ge, drop_ge, app_nil_r by lia.
  - rewrite <- Hlen at 2. rewrite packW_run by (rewrite Hlen; lia).
    rewrite Hlen, drop_ge, app_nil_r by lia. f_equal. by apply enc_dec.
Qed.

Lemma repack_restores_bytes_witness :
  ∃ symbols,
    unpackW W6 [0; 0]%Z 0 [193; 2]%Z 0 2 = Some symbols ∧
    packW W6 [255; 255]%Z 0 symbols 0 2 = Some [193; 2]%Z.
Proof.
  apply (repack_restores_bytes W6 2 [193; 2]%Z [0; 0]%Z [255; 255]%Z).
  - repeat apply Forall_cons_2; try apply Forall_nil_2; unfold is_uchar; lia.
  - reflexivity.
  - reflexivity.
  - reflexivity.
  - intros x Hx _. injection Hx as <-. vm_compute. split; congruence.
Defined.

(** ** The column: cells through the storage *)

Lemma pack_length bitCount mem dest sym symbolBuffer n res :
  BytePacker.pack bitCount mem dest sym symbolBuffer n = Some res →
  length res = length mem.
Proof.
  intros H. destruct (supported_or_not bitCount) as [[w ->]|(H4 & H6 & H8 & H12)].
  - rewrite (proj1 (dispatch_supported w _ _ _ _ _)) in H.
    destruct n as [|n]; [rewrite packW_nothing in H; by injection H as <-|].
    destruct (packW_Some _ _ _ _ _ _ _ H) as [Hd Hs]; [lia|].
    rewrite packW_at_ptr in H by done. injection H as <-.
    rewrite !length_app, enc_length, !length_take, !length_drop.
    rewrite (Nat.min_l (S n)) by lia. lia.
  - rewrite (proj1 (dispatch_other bitCount _ _ _ _ _ H4 H6 H8 H12)) in H.
    by injection H as <-.
Qed.

Lemma unpack_length bitCount mem symbolBuffer packed packedBuffer n res :
  BytePacker.unpack bitCount mem symbolBuffer packed packedBuffer n = Some res →
  length res = length mem.
Proof.
  intros H. destruct (supported_or_not bitCount) as [[w ->]|(H4 & H6 & H8 & H12)].
  - rewrite (proj2 (dispatch_supported w _ _ _ _ _)) in H.
    destruct n as [|n]; [rewrite unpackW_nothing in H; by injection H as <-|].
    destruct (unpackW_Some _ _ _ _ _ _ _ H) as [Hd Hs]; [lia|].
    rewrite unpackW_at_ptr in H by done. injection H as <-.
    rewrite !length_app, dec_length, !length_take, !length_drop;
      rewrite ?length_take, ?length_drop; lia.
  - rewrite (proj2 (dispatch_other bitCount _ _ _ _ _ H4 H6 H8 H12)) in H.
    by injection H as <-.
Qed.

Lemma Prepare_ready junk count_bits c0 c log :
  OffringaWeightColumn.Prepare junk count_bits c0 = Return (c, log) →
  ready (2 ^ OffringaWeightColumn._bitsPerSymbol c) c.
Proof.
  intros H. destruct (Prepare_Return _ _ _ _ _ H) as (? & ? & ? & ?). by split.
Qed.

(** The calls of [putArrayfloatV] that return, and what they have done. *)
Lemma putArrayfloatV_Some Encode c storage rowNr dataPtr c' storage' :
  OffringaWeightColumn.putArrayfloatV Encode c storage rowNr dataPtr =
    Some (c', storage') ↔
  ∃ quantCount old scale symbols new,
    let dataCopyBuffer :=
      dataPtr ++ drop (length dataPtr) (OffringaWeightColumn._dataCopyBuffer c) in
    length dataPtr ≤ length (OffringaWeightColumn._dataCopyBuffer c) ∧
    OffringaWeightColumn._encoder c = Some quantCount ∧
    OffringaWeightColumn._packBuffer c = Some old ∧
    Encode quantCount (OffringaWeightColumn._symbolBuffer c) dataCopyBuffer =
      (scale, symbols) ∧
    sizeof_float ≤ length old ∧
    BytePacker.pack (OffringaWeightColumn._bitsPerSymbol c)
      (float_bytes scale ++ drop sizeof_float old) sizeof_float symbols 0
      (OffringaWeightColumn._symbolsPerCell c) = Some new ∧
    OffringaWeightColumn.Stride c ≤ length new ∧
    storage' = <[rowNr := take (OffringaWeightColumn.Stride c) new]> storage ∧
    c' = {| OffringaWeightColumn._bitsPerSymbol := OffringaWeightColumn._bitsPerSymbol c;
            OffringaWeightColumn._symbolsPerCell := OffringaWeightColumn._symbolsPerCell c;
            OffringaWeightColumn._shape := OffringaWeightColumn._shape c;
            OffringaWeightColumn._encoder := OffringaWeightColumn._encoder c;
            OffringaWeightColumn._symbolBuffer := symbols;
            OffringaWeightColumn._packBuffer := Some new;
            OffringaWeightColumn._dataCopyBuffer := dataCopyBuffer |}.
Proof.
  unfold OffringaWeightColumn.putArrayfloatV, OffringaWeightColumn.writeCompressedData,
    store_float.
  split.
  - intros H.
    destruct (Nat.leb_spec (length dataPtr)
                (length (OffringaWeightColumn._dataCopyBuffer c))); [|done].
    cbn [mbind option_bind] in H.
    destruct (OffringaWeightColumn._encoder c) as [q|]; [|done].
    destruct (OffringaWeightColumn._packBuffer c) as [old|]; [|done].
    cbn [mbind option_bind] in H.
    destruct (Encode q _ _) as [scale symbols] eqn:HE.
    destruct (Nat.leb_spec (0 + sizeof_float) (length old)); [|done].
    cbn [mbind option_bind] in H. rewrite take_0 in H.
    apply bind_Some in H as (new & Hnew & H).
    destruct (Nat.leb_spec (OffringaWeightColumn.Stride c) (length new)); [|done].
    cbn [mbind option_bind] in H. apply (inj Some) in H.
    exists q, old, scale, symbols, new.
    repeat split; try done; congruence.
  - intros (q & old & scale & symbols & new & Hdata & -> & -> & HE & Hold
            & Hnew & Hstride & -> & ->).
    rewrite (proj2 (Nat.leb_le _ _) Hdata). cbn [mbind option_bind].
    rewrite HE.
    rewrite (proj2 (Nat.leb_le (0 + sizeof_float) _) Hold).
    cbn [mbind option_bind]. rewrite take_0. cbn [app].
    change (0 + sizeof_float) with sizeof_float. rewrite Hnew.
    cbn [mbind option_bind]. by rewrite (proj2 (Nat.leb_le _ _) Hstride).
Qed.

(** The calls of [getArrayfloatV] that return, and what they have done. *)
Lemma getArrayfloatV_Some Decode c storage rowNr size c' data :
  OffringaWeightColumn.getArrayfloatV Decode c storage rowNr size =
    Some (c', data) ↔
  ∃ old row symbols quantCount scale,
    let new := row ++ drop (OffringaWeightColumn.Stride c) old in
    let dataCopyBuffer :=
      Decode quantCount (OffringaWeightColumn._dataCopyBuffer c) scale symbols in
    OffringaWeightColumn._packBuffer c = Some old ∧
    storage !! rowNr = Some row ∧
    length row = OffringaWeightColumn.Stride c ∧
    OffringaWeightColumn.Stride c ≤ length old ∧
    BytePacker.unpack (OffringaWeightColumn._bitsPerSymbol c)
      (OffringaWeightColumn._symbolBuffer c) 0 new sizeof_float
      (OffringaWeightColumn._symbolsPerCell c) = Some symbols ∧
    OffringaWeightColumn._encoder c = Some quantCount ∧
    load_float new 0 = Some scale ∧
    size ≤ length dataCopyBuffer ∧
    data = take size dataCopyBuffer ∧
    c' = {| OffringaWeightColumn._bitsPerSymbol := OffringaWeightColumn._bitsPerSymbol c;
            OffringaWeightColumn._symbolsPerCell := OffringaWeightColumn._symbolsPerCell c;
            OffringaWeightColumn._shape := OffringaWeightColumn._shape c;
            OffringaWeightColumn._encoder := OffringaWeightColumn._encoder c;
            OffringaWeightColumn._symbolBuffer := symbols;
            OffringaWeightColumn._packBuffer := Some new;
            OffringaWeightColumn._dataCopyBuffer := dataCopyBuffer |}.
Proof.
  unfold OffringaWeightColumn.getArrayfloatV, OffringaWeightColumn.readCompressedData.
  split.
  - intros H.
    apply bind_Some in H as (old & Hold & H). apply bind_Some in H as (new & Hnew & H).
    apply bind_Some in H as (symbols & Hsym & H). apply bind_Some in H as (q & Hq & H).
    apply bind_Some in H as (scale & Hscale & H).
    apply bind_Some in Hnew as (row & Hrow & Hnew).
    destruct (Nat.eqb_spec (length row) (OffringaWeightColumn.Stride c)); [|done].
    destruct (Nat.leb_spec (OffringaWeightColumn.Stride c) (length old)); [|done].
    apply (inj Some) in Hnew. subst new.
    destruct (Nat.leb_spec size
                (length (Decode q (OffringaWeightColumn._dataCopyBuffer c) scale
                           symbols))); [|done].
    apply (inj Some) in H.
    exists old, row, symbols, q, scale. repeat split; try done; congruence.
  - intros (old & row & symbols & q & scale & -> & -> & Hrow & Hold
            & Hsym & -> & Hscale & Hsize & -> & ->).
    cbn [mbind option_bind].
    rewrite (proj2 (Nat.eqb_eq _ _) Hrow), (proj2 (Nat.leb_le _ _) Hold).
    cbn [andb mbind option_bind]. rewrite Hsym. cbn [mbind option_bind].
    rewrite Hscale. cbn [mbind option_bind].
    by rewrite (proj2 (Nat.leb_le _ _) Hsize).
Qed.

Lemma serves_keeps Encode Decode c c' :
  serves Encode Decode c c' →
  OffringaWeightColumn._bitsPerSymbol c' = OffringaWeightColumn._bitsPerSymbol c ∧
  OffringaWeightColumn._symbolsPerCell c' = OffringaWeightColumn._symbolsPerCell c ∧
  OffringaWeightColumn._shape c' = OffringaWeightColumn._shape c ∧
  OffringaWeightColumn._encoder c' = OffringaWeightColumn._encoder c ∧
  (length <$> OffringaWeightColumn._packBuffer c') =
    (length <$> OffringaWeightColumn._packBuffer c).
Proof.
  induction 1 as [c|c storage rowNr dataPtr c1 storage1 c2 H _ IH
                    |c storage rowNr size c1 data c2 H _ IH]; [done| |].
  - apply putArrayfloatV_Some in H
      as (q & old & scale & symbols & new & _ & _ & Hold & _ & Hle & Hnew & _ & _ & ->).
    apply pack_length in Hnew.
    assert (length new = length old) as Hl
      by (rewrite Hnew, length_app, length_drop; unfold sizeof_float in *;
          simpl; lia).
    revert IH. project. rewrite Hold. simpl. by rewrite Hl.
  - apply getArrayfloatV_Some in H
      as (old & row & symbols & q & scale & Hold & _ & Hrow & Hle & _ & _ & _ & _ & _ & ->).
    assert (length (row ++ drop (OffringaWeightColumn.Stride c) old) = length old)
      as Hl by (rewrite length_app, length_drop; lia).
    revert IH. project. rewrite Hold. simpl. by rewrite Hl.
Qed.

Lemma serves_ready Encode Decode q c c' :
  (∀ quantCount symbolBuffer data,
     length (Encode quantCount symbolBuffer data).2 = length symbolBuffer) →
  ready q c → serves Encode Decode c c' → ready q c'.
Proof.
  intros HE Hr Hs. revert Hr.
  induction Hs as [c|c storage rowNr dataPtr c1 storage1 c2 H _ IH
                     |c storage rowNr size c1 data c2 H _ IH]; [done| |];
    intros (Henc & (pb & Hpb & Hlen) & Hsym); apply IH; clear IH;
    unfold OffringaWeightColumn.Stride in *.
  - apply putArrayfloatV_Some in H
      as (q' & old & scale & symbols & new & _ & _ & Hold & HEq & Hle & Hnew & _ & _ & ->).
    unfold ready. project. split; [done|]. split.
    + exists new. split; [done|]. apply pack_length in Hnew.
      rewrite Hnew, length_app, length_drop. unfold sizeof_float in *. simpl.
      rewrite Hpb in Hold. injection Hold as <-.
      unfold OffringaWeightColumn.Stride, sizeof_float in *. project. lia.
    + specialize (HE q' (OffringaWeightColumn._symbolBuffer c)
                    (dataPtr ++ drop (length dataPtr)
                       (OffringaWeightColumn._dataCopyBuffer c))).
      rewrite HEq in HE. simpl in HE. congruence.
  - apply getArrayfloatV_Some in H
      as (old & row & symbols & q' & scale & Hold & _ & Hrow & Hle & Hu & _ & _ & _ & _ & ->).
    unfold ready. project. split; [done|]. split.
    + eexists. split; [done|]. rewrite length_app, length_drop, Hrow.
      rewrite Hpb in Hold. injection Hold as <-.
      unfold OffringaWeightColumn.Stride, sizeof_float in *. project. lia.
    + apply unpack_length in Hu. congruence.
Qed.

(** X13. A cell written by [putArrayfloatV] can be read back by
    [getArrayfloatV], by the same column or by any other column that is
    ready with the same [bitsPerSymbol] and [symbolsPerCell]: for a
    supported width and encoder symbols that fit it, the symbols and the
    scale handed to [Decode] are exactly those that [Encode] produced, so
    the transport through the storage loses nothing. *)
Theorem put_get_round_trip
    (Encode : Z → list Z → list float → float * list Z)
    (Decode : Z → list float → float → list Z → list float)
    (w : width) (q : Z) (c : OffringaWeightColumn.column)
    (storage : gmap nat (list Z)) (rowNr : nat) (data : list float)
    (scale : float) (symbols : list Z) :
  ready q c →
  OffringaWeightColumn._bitsPerSymbol c = Z.of_nat (bits w) →
  length data ≤ length (OffringaWeightColumn._dataCopyBuffer c) →
  Encode q (OffringaWeightColumn._symbolBuffer c)
    (data ++ drop (length data) (OffringaWeightColumn._dataCopyBuffer c)) =
    (scale, symbols) →
  length symbols = OffringaWeightColumn._symbolsPerCell c →
  Forall (fits (bits w)) symbols →
  ∃ c1 storage1,
    OffringaWeightColumn.putArrayfloatV Encode c storage rowNr data =
      Some (c1, storage1) ∧
    ready q c1 ∧
    OffringaWeightColumn._bitsPerSymbol c1 = OffringaWeightColumn._bitsPerSymbol c ∧
    OffringaWeightColumn._symbolsPerCell c1 = OffringaWeightColumn._symbolsPerCell c ∧
    ∀ q' r size,
      ready q' r →
      OffringaWeightColumn._bitsPerSymbol r = OffringaWeightColumn._bitsPerSymbol c →
      OffringaWeightColumn._symbolsPerCell r = OffringaWeightColumn._symbolsPerCell c →
      let decoded :=
        Decode q' (OffringaWeightColumn._dataCopyBuffer r) scale symbols in
      size ≤ length decoded →
      ∃ r1,
        OffringaWeightColumn.getArrayfloatV Decode r storage1 rowNr size =
          Some (r1, take size decoded) ∧
        OffringaWeightColumn._symbolBuffer r1 = symbols.
Proof.
  intros (Henc & (old & Hold & Hlen) & Hsym) Hbits Hdata HE Hsyms Hfits.
  unfold OffringaWeightColumn.Stride in Hlen.
  rewrite Hbits, Nat2Z.id, <- Hsyms in Hlen.
  set (new := float_bytes scale ++ enc w symbols).
  assert (length new = sizeof_float + packed_size (bits w) (length symbols)) as Hnew
    by (unfold new; rewrite length_app, enc_length; done).
  assert (OffringaWeightColumn.Stride c = length new) as Hstride
    by (unfold OffringaWeightColumn.Stride; rewrite Hbits, Nat2Z.id, Hnew; congruence).
  eexists _, (<[rowNr := new]> storage). split; [|split; [|split; [|split]]].
  - apply putArrayfloatV_Some. exists q, old, scale, symbols, new.
    split; [done|]. split; [done|]. split; [done|]. split; [done|].
    split; [lia|]. split; [|split; [lia|split; [|reflexivity]]].
    + rewrite Hbits, (proj1 (dispatch_supported w _ _ _ _ _)), <- Hsyms.
      rewrite (packW_at w _ sizeof_float symbols 0 (float_bytes scale)
                 (drop sizeof_float old) [] [] symbols []);
        rewrite ?app_nil_r; try done.
      rewrite length_drop. lia.
    + by rewrite Hstride, take_ge by lia.
  - unfold ready, OffringaWeightColumn.Stride. project. split; [done|].
    split; [|done]. exists new. split; [done|].
    rewrite Hbits, Nat2Z.id, <- Hsyms. lia.
  - reflexivity.
  - reflexivity.
  - intros q' r size (Hrenc & (oldr & Holdr & Hlenr) & Hrsym) Hrbits Hrspc decoded Hsize.
    assert (OffringaWeightColumn.Stride r = length new) as Hrstride
      by (rewrite <- Hstride; unfold OffringaWeightColumn.Stride; congruence).
    assert (length (OffringaWeightColumn._symbolBuffer r) = length symbols) as Hcount
      by congruence.
    eexists. split.
    { apply getArrayfloatV_Some. exists oldr, new, symbols, q', scale.
      rewrite drop_ge, app_nil_r by lia.
      split; [done|]. split; [apply lookup_insert_eq|]. split; [done|].
      split; [lia|].
      split; [|split; [done|split; [apply load_float_bytes|split; [done|split; reflexivity]]]].
      rewrite Hrbits, Hbits, (proj2 (dispatch_supported w _ _ _ _ _)), Hrspc, <- Hsyms.
      rewrite <- Hcount.
      rewrite (unpackW_at w _ 0 new sizeof_float []
                 (OffringaWeightColumn._symbolBuffer r) [] (float_bytes scale)
                 (enc w symbols) []);
        rewrite ?app_nil_r; try done.
      - by rewrite Hcount, dec_enc.
      - by rewrite enc_length, Hcount. }
    reflexivity.
Qed.

Lemma put_get_round_trip_witness :
  let scale := {| float_b0 := 1; float_b1 := 2; float_b2 := 3; float_b3 := 4 |} in
  let as_float (v : Z) :=
    {| float_b0 := v; float_b1 := 0; float_b2 := 0; float_b3 := 0 |} in
  let Encode (q : Z) (symbolBuffer : list Z) (data : list float)
    : float * list Z := (scale, float_b0 <$> data) in
  let Decode (q : Z) (data : list float) (s : float) (symbols : list Z)
    : list float := as_float <$> symbols in
  let c := {| OffringaWeightColumn._bitsPerSymbol := 4;
              OffringaWeightColumn._symbolsPerCell := 3;
              OffringaWeightColumn._shape := [3];
              OffringaWeightColumn._encoder := Some 16%Z;
              OffringaWeightColumn._symbolBuffer := [0; 0; 0]%Z;
              OffringaWeightColumn._packBuffer := Some [255; 255; 255; 255; 255; 255]%Z;
              OffringaWeightColumn._dataCopyBuffer :=
                [as_float 0%Z; as_float 0%Z; as_float 0%Z] |} in
  let data := [as_float 5%Z; as_float 9%Z; as_float 3%Z] in
  ∃ c1 storage1,
    OffringaWeightColumn.putArrayfloatV Encode c ∅ 7 data = Some (c1, storage1) ∧
    ∃ r1,
      OffringaWeightColumn.getArrayfloatV Decode c1 storage1 7 3 = Some (r1, data) ∧
      OffringaWeightColumn._symbolBuffer r1 = [5; 9; 3]%Z.
Proof.
  intros scale as_float Encode Decode c data.
  destruct (put_get_round_trip Encode Decode W4 16 c ∅ 7 data scale [5; 9; 3]%Z)
    as (c1 & storage1 & Hput & Hready & Hbits & Hspc & Hget).
  - split; [reflexivity|]. split; [|reflexivity]. eexists. split; reflexivity.
  - reflexivity.
  - simpl. lia.
  - reflexivity.
  - reflexivity.
  - repeat apply Forall_cons_2; try apply Forall_nil_2; vm_compute; split; congruence.
  - exists c1, storage1. split; [exact Hput|].
    apply (Hget 16%Z c1 3 Hready Hbits Hspc). simpl. lia.
Defined.

(** X14. Whatever calls of [putArrayfloatV] and [getArrayfloatV] follow a
    [Prepare] that returned, the column keeps its configuration and its
    encoder, and holds a pack buffer of the [Stride()] bytes that this
    [Prepare] allocated: the destructor deletes the encoder that this
    [Prepare] created and a pack buffer of that size. All this holds for
    every encoder. If moreover the encoder keeps the size of the symbol
    buffer, the symbol buffer still holds [symbolsPerCell] symbols, so the
    column is ready for further calls. *)
Theorem serving_keeps_ready
    (Encode : Z → list Z → list float → float * list Z)
    (Decode : Z → list float → float → list Z → list float)
    (junk : nat → Z) (count_bits : nat) (c0 c c' : OffringaWeightColumn.column)
    (log : list heap_event) :
  OffringaWeightColumn.Prepare junk count_bits c0 = Return (c, log) →
  serves Encode Decode c c' →
  let quantCount := (2 ^ OffringaWeightColumn._bitsPerSymbol c)%Z in
  OffringaWeightColumn._bitsPerSymbol c' = OffringaWeightColumn._bitsPerSymbol c ∧
  OffringaWeightColumn._symbolsPerCell c' = OffringaWeightColumn._symbolsPerCell c ∧
  OffringaWeightColumn._shape c' = OffringaWeightColumn._shape c ∧
  OffringaWeightColumn._encoder c' = Some quantCount ∧
  (∃ packBuffer,
     OffringaWeightColumn._packBuffer c' = Some packBuffer ∧
     length packBuffer = OffringaWeightColumn.Stride c' ∧
     log = [delete_encoder (OffringaWeightColumn._encoder c0);
            new_encoder quantCount;
            delete_array (OffringaWeightColumn._packBuffer c0);
            new_array (length packBuffer)] ∧
     OffringaWeightColumn.destructor c' =
       [delete_encoder (Some quantCount); delete_array (Some packBuffer)]) ∧
  ((∀ quantCount symbolBuffer data,
      length (Encode quantCount symbolBuffer data).2 = length symbolBuffer) →
   ready quantCount c').
Proof.
  intros HP Hs quantCount.
  pose proof (Prepare_ready _ _ _ _ _ HP) as Hr.
  destruct (serves_keeps _ _ _ _ Hs) as (Hbits & Hspc & Hshape & Henc' & Hpb').
  destruct Hr as (Henc & (pb & Hpb & Hlen) & Hsym).
  split; [done|]. split; [done|]. split; [done|].
  split; [by rewrite Henc'|].
  assert (OffringaWeightColumn.Stride c' = OffringaWeightColumn.Stride c) as Hstride
    by (unfold OffringaWeightColumn.Stride; congruence).
  split.
  - rewrite Hpb in Hpb'.
    destruct (OffringaWeightColumn._packBuffer c') as [packBuffer|] eqn:Hpbc;
      [|discriminate Hpb'].
    apply (inj Some) in Hpb'. exists packBuffer.
    split; [done|]. split; [congruence|]. split.
    + rewrite Hpb', Hlen. subst quantCount. clear -HP. revert HP.
      unfold OffringaWeightColumn.Prepare, int_shl1.
      destruct (_ =? _)%Z; [done|]. destruct (_ <? _)%Z; [|done].
      intros H. apply (f_equal (λ o, match o with
                                     | Return (c, log) => Some (c, log)
                                     | _ => None
                                     end)) in H.
      apply (inj Some) in H. apply pair_equal_spec in H as [<- <-]. reflexivity.
    + unfold OffringaWeightColumn.destructor. by rewrite Henc', Henc, Hpbc.
  - intros HE.
    exact (serves_ready _ _ _ _ _ HE (conj Henc (conj (ex_intro _ pb (conj Hpb Hlen)) Hsym)) Hs).
Qed.

Lemma serving_keeps_ready_witness :
  let scale := {| float_b0 := 1; float_b1 := 2; float_b2 := 3; float_b3 := 4 |} in
  let as_float (v : Z) :=
    {| float_b0 := v; float_b1 := 0; float_b2 := 0; float_b3 := 0 |} in
  let Encode (q : Z) (symbolBuffer : list Z) (data : list float)
    : float * list Z :=
    (scale, take (length symbolBuffer) (float_b0 <$> data) ++
            replicate (length symbolBuffer - length data) 0%Z) in
  let Decode (q : Z) (data : list float) (s : float) (symbols : list Z)
    : list float := as_float <$> symbols in
  let junk (i : nat) := 255%Z in
  let column symbolsPerCell encoder symbolBuffer packBuffer dataCopyBuffer :=
    {| OffringaWeightColumn._bitsPerSymbol := 4;
       OffringaWeightColumn._symbolsPerCell := symbolsPerCell;
       OffringaWeightColumn._shape := [3];
       OffringaWeightColumn._encoder := encoder;
       OffringaWeightColumn._symbolBuffer := symbolBuffer;
       OffringaWeightColumn._packBuffer := packBuffer;
       OffringaWeightColumn._dataCopyBuffer := dataCopyBuffer |} in
  let data := [as_float 5%Z; as_float 9%Z; as_float 3%Z] in
  let row := [1; 2; 3; 4; 149; 3]%Z in
  let c0 := column 0 None [] None [] in
  let c := column 3 (Some 16%Z) [0; 0; 0]%Z (Some (replicate 6 255%Z))
             (replicate 3 (as_float 0%Z)) in
  let c1 := column 3 (Some 16%Z) [5; 9; 3]%Z (Some row) data in
  let log := [delete_encoder None; new_encoder 16; delete_array None; new_array 6] in
  OffringaWeightColumn.Prepare junk 32 c0 = Return (c, log) ∧
  OffringaWeightColumn.putArrayfloatV Encode c ∅ 7 data = Some (c1, {[7 := row]}) ∧
  OffringaWeightColumn.getArrayfloatV Decode c1 {[7 := row]} 7 3 = Some (c1, data) ∧
  ready 16 c1 ∧
  OffringaWeightColumn.destructor c1 =
    [delete_encoder (Some 16%Z); delete_array (Some row)].
Proof.
  intros scale as_float Encode Decode junk column data row c0 c c1 log.
  assert (OffringaWeightColumn.Prepare junk 32 c0 = Return (c, log)) as HP
    by reflexivity.
  assert (OffringaWeightColumn.putArrayfloatV Encode c ∅ 7 data =
          Some (c1, {[7 := row]})) as Hput by reflexivity.
  assert (OffringaWeightColumn.getArrayfloatV Decode c1 {[7 := row]} 7 3 =
          Some (c1, data)) as Hget by reflexivity.
  split; [exact HP|]. split; [exact Hput|]. split; [exact Hget|].
  destruct (serving_keeps_ready Encode Decode junk 32 c0 c c1 log)
    as (_ & _ & _ & _ & (packBuffer & Hpb & _ & _ & Hdes) & Hready).
  - exact HP.
  - exact (serves_put Encode Decode _ _ _ _ _ _ _ Hput
             (serves_get Encode Decode _ _ _ _ _ _ _ Hget
                (serves_done Encode Decode _))).
  - split.
    + apply Hready. intros q sb d. unfold Encode. cbn [snd].
      rewrite length_app, length_take, length_replicate, length_fmap. lia.
    + rewrite Hdes. injection Hpb as <-. reflexivity.
Defined.

(** X15. With a [bitsPerSymbol] other than 4, 6, 8 and 12 no symbol is
    transferred, and nothing fails: [putArrayfloatV] stores the scale
    followed by whatever the pack buffer held behind it before the call, and
    [getArrayfloatV] decodes the symbols that its symbol buffer held before
    the call, whatever the row contains behind the scale. *)
Theorem unsupported_width_moves_no_symbols
    (Encode : Z → list Z → list float → float * list Z)
    (Decode : Z → list float → float → list Z → list float)
    (q : Z) (c : OffringaWeightColumn.column)
    (storage : gmap nat (list Z)) (rowNr : nat) :
  let bitsPerSymbol := OffringaWeightColumn._bitsPerSymbol c in
  ready q c →
  bitsPerSymbol ≠ 4%Z → bitsPerSymbol ≠ 6%Z →
  bitsPerSymbol ≠ 8%Z → bitsPerSymbol ≠ 12%Z →
  (∀ data c' storage',
     OffringaWeightColumn.putArrayfloatV Encode c storage rowNr data =
       Some (c', storage') →
     ∃ old,
       OffringaWeightColumn._packBuffer c = Some old ∧
       storage' !! rowNr =
         Some (float_bytes
                 (Encode q (OffringaWeightColumn._symbolBuffer c)
                    (data ++ drop (length data)
                       (OffringaWeightColumn._dataCopyBuffer c))).1 ++
               drop sizeof_float old)) ∧
  (∀ size c' data,
     OffringaWeightColumn.getArrayfloatV Decode c storage rowNr size =
       Some (c', data) →
     OffringaWeightColumn._symbolBuffer c' = OffringaWeightColumn._symbolBuffer c ∧
     ∃ scale row,
       storage !! rowNr = Some (float_bytes scale ++ row) ∧
       data = take size (Decode q (OffringaWeightColumn._dataCopyBuffer c) scale
                           (OffringaWeightColumn._symbolBuffer c))).
Proof.
  intros bitsPerSymbol (Henc & (pb & Hpb & Hlen) & Hsym) H4 H6 H8 H12.
  subst bitsPerSymbol. split.
  - intros data c' storage' H. exists pb. split; [done|].
    apply putArrayfloatV_Some in H
      as (q' & old & scale & symbols & new & _ & Hq & Hold & HE & Hle & Hnew & _ & -> & _).
    rewrite (proj1 (dispatch_other _ _ _ _ _ _ H4 H6 H8 H12)) in Hnew.
    apply (inj Some) in Hnew. subst new.
    rewrite Hpb in Hold. apply (inj Some) in Hold. subst old.
    rewrite Henc in Hq. apply (inj Some) in Hq. subst q'.
    rewrite HE. cbn [fst]. rewrite lookup_insert_eq, take_ge; [done|].
    rewrite length_app, length_drop. change (length (float_bytes scale)) with sizeof_float.
    lia.
  - intros size c' data H.
    apply getArrayfloatV_Some in H
      as (old & row & symbols & q' & scale & Hold & Hrow & Hrl & Hle & Hu & Hq
          & Hscale & _ & -> & ->).
    rewrite (proj2 (dispatch_other _ _ _ _ _ _ H4 H6 H8 H12)) in Hu.
    apply (inj Some) in Hu. subst symbols.
    rewrite Henc in Hq. apply (inj Some) in Hq. subst q'.
    split; [reflexivity|]. exists scale, (drop sizeof_float row).
    split; [|reflexivity]. rewrite Hrow. f_equal.
    assert (sizeof_float ≤ length row) as Hr4
      by (rewrite Hrl; unfold OffringaWeightColumn.Stride; lia).
    clear -Hscale Hr4. unfold sizeof_float in *.
    destruct row as [|b0 [|b1 [|b2 [|b3 row]]]]; simpl in Hr4; try lia.
    simpl in Hscale. injection Hscale as <-. reflexivity.
Qed.

Lemma unsupported_width_moves_no_symbols_witness :
  let scale := {| float_b0 := 1; float_b1 := 2; float_b2 := 3; float_b3 := 4 |} in
  let as_float (v : Z) :=
    {| float_b0 := v; float_b1 := 0; float_b2 := 0; float_b3 := 0 |} in
  let Encode (q : Z) (symbolBuffer : list Z) (data : list float)
    : float * list Z := (scale, float_b0 <$> data) in
  let Decode (q : Z) (data : list float) (s : float) (symbols : list Z)
    : list float := as_float <$> symbols in
  let c := {| OffringaWeightColumn._bitsPerSymbol := 5;
              OffringaWeightColumn._symbolsPerCell := 3;
              OffringaWeightColumn._shape := [3];
              OffringaWeightColumn._encoder := Some 32%Z;
              OffringaWeightColumn._symbolBuffer := [0; 0; 0]%Z;
              OffringaWeightColumn._packBuffer := Some [255; 255; 255; 255; 254; 253]%Z;
              OffringaWeightColumn._dataCopyBuffer :=
                [as_float 0%Z; as_float 0%Z; as_float 0%Z] |} in
  let data := [as_float 5%Z; as_float 9%Z; as_float 3%Z] in
  ∃ c1 storage1 c2,
    OffringaWeightColumn.putArrayfloatV Encode c ∅ 7 data = Some (c1, storage1) ∧
    storage1 !! 7 = Some [1; 2; 3; 4; 254; 253]%Z ∧
    OffringaWeightColumn.getArrayfloatV Decode c storage1 7 3 =
      Some (c2, [as_float 0%Z; as_float 0%Z; as_float 0%Z]).
Proof.
  intros scale as_float Encode Decode c data.
  do 3 eexists. split; [reflexivity|].
  edestruct (unsupported_width_moves_no_symbols Encode Decode 32 c ∅ 7)
    as [Hput _].
  - split; [reflexivity|]. split; [|reflexivity]. eexists. split; reflexivity.
  - done.
  - done.
  - done.
  - done.
  - destruct (Hput data _ _ eq_refl) as (old & Hold & Hrow).
    injection Hold as <-. split; [exact Hrow|reflexivity].
Defined.

Lemma Prepare_packBuffer junk count_bits c0 c log :
  OffringaWeightColumn.Prepare junk count_bits c0 = Return (c, log) →
  OffringaWeightColumn._packBuffer c =
    Some (junk <$> seq 0 (OffringaWeightColumn.Stride c)).
Proof.
  unfold OffringaWeightColumn.Prepare, int_shl1.
  destruct (_ =? _)%Z; [done|]. destruct (_ <? _)%Z; [|done].
  intros H. apply (f_equal (λ o, match o with
                                 | Return (c, log) => Some c
                                 | _ => None
                                 end)) in H.
  apply (inj Some) in H. by subst c.
Qed.

(** X16. After [Prepare] with a [bitsPerSymbol] other than 4, 6, 8 and 12,
    [putArrayfloatV] returns normally and hands uninitialised memory to the
    storage: behind the scale the row holds the bytes that [new] left in the
    pack buffer, not the symbols. *)
Theorem unsupported_width_stores_uninitialised_bytes
    (Encode : Z → list Z → list float → float * list Z)
    (junk : nat → Z) (count_bits : nat) (c0 c : OffringaWeightColumn.column)
    (log : list heap_event) (storage : gmap nat (list Z)) (rowNr : nat)
    (data : list float) :
  let bitsPerSymbol := OffringaWeightColumn._bitsPerSymbol c in
  let symbolsPerCell := OffringaWeightColumn._symbolsPerCell c in
  OffringaWeightColumn.Prepare junk count_bits c0 = Return (c, log) →
  bitsPerSymbol ≠ 4%Z → bitsPerSymbol ≠ 6%Z →
  bitsPerSymbol ≠ 8%Z → bitsPerSymbol ≠ 12%Z →
  length data ≤ symbolsPerCell →
  ∃ c' storage',
    OffringaWeightColumn.putArrayfloatV Encode c storage rowNr data =
      Some (c', storage') ∧
    storage' !! rowNr =
      Some (float_bytes
              (Encode (2 ^ bitsPerSymbol)%Z (OffringaWeightColumn._symbolBuffer c)
                 (data ++ drop (length data)
                    (OffringaWeightColumn._dataCopyBuffer c))).1 ++
            (junk <$> seq sizeof_float
                        (packed_size (Z.to_nat bitsPerSymbol) symbolsPerCell))).
Proof.
  intros bitsPerSymbol symbolsPerCell HP H4 H6 H8 H12 Hdata.
  destruct (Prepare_Return _ _ _ _ _ HP) as (Henc & _ & _ & Hdcb).
  pose proof (Prepare_packBuffer _ _ _ _ _ HP) as Hpb.
  fold bitsPerSymbol in Henc. fold symbolsPerCell in Hdcb.
  destruct (Encode (2 ^ bitsPerSymbol)%Z (OffringaWeightColumn._symbolBuffer c)
              (data ++ drop (length data) (OffringaWeightColumn._dataCopyBuffer c)))
    as [scale symbols] eqn:HE.
  set (n := packed_size (Z.to_nat bitsPerSymbol) symbolsPerCell).
  assert (OffringaWeightColumn.Stride c = sizeof_float + n) as Hstride by reflexivity.
  rewrite Hstride in Hpb.
  assert (drop sizeof_float (junk <$> seq 0 (sizeof_float + n)) =
          junk <$> seq sizeof_float n) as Hdrop
    by (by rewrite <- fmap_drop, drop_seq, Nat.add_sub').
  eexists _, _. split.
  - apply putArrayfloatV_Some.
    exists (2 ^ bitsPerSymbol)%Z, (junk <$> seq 0 (sizeof_float + n)), scale, symbols.
    eexists.
    split; [lia|]. split; [done|]. split; [done|]. split; [done|].
    split; [rewrite length_fmap, length_seq; lia|].
    split; [exact (proj1 (dispatch_other _ _ _ _ _ _ H4 H6 H8 H12))|].
    split; [|split; reflexivity].
    rewrite Hstride, length_app, Hdrop, length_fmap, length_seq. simpl. lia.
  - cbn [fst]. rewrite lookup_insert_eq, Hdrop, take_ge; [done|].
    rewrite Hstride, length_app, length_fmap, length_seq. simpl. lia.
Qed.

Lemma unsupported_width_stores_uninitialised_bytes_witness :
  let scale := {| float_b0 := 1; float_b1 := 2; float_b2 := 3; float_b3 := 4 |} in
  let as_float (v : Z) :=
    {| float_b0 := v; float_b1 := 0; float_b2 := 0; float_b3 := 0 |} in
  let Encode (q : Z) (symbolBuffer : list Z) (data : list float)
    : float * list Z := (scale, float_b0 <$> data) in
  let junk (i : nat) := (200 + Z.of_nat i)%Z in
  let column symbolsPerCell encoder symbolBuffer packBuffer dataCopyBuffer :=
    {| OffringaWeightColumn._bitsPerSymbol := 5;
       OffringaWeightColumn._symbolsPerCell := symbolsPerCell;
       OffringaWeightColumn._shape := [3];
       OffringaWeightColumn._encoder := encoder;
       OffringaWeightColumn._symbolBuffer := symbolBuffer;
       OffringaWeightColumn._packBuffer := packBuffer;
       OffringaWeightColumn._dataCopyBuffer := dataCopyBuffer |} in
  let c0 := column 0 None [] None [] in
  let c := column 3 (Some 32%Z) [0; 0; 0]%Z
             (Some [200; 201; 202; 203; 204; 205]%Z)
             (replicate 3 (as_float 0%Z)) in
  let log := [delete_encoder None; new_encoder 32; delete_array None; new_array 6] in
  let data := [as_float 5%Z; as_float 9%Z; as_float 3%Z] in
  OffringaWeightColumn.Prepare junk 32 c0 = Return (c, log) ∧
  ∃ c' storage',
    OffringaWeightColumn.putArrayfloatV Encode c ∅ 7 data = Some (c', storage') ∧
    storage' !! 7 = Some [1; 2; 3; 4; 204; 205]%Z.
Proof.
  intros scale as_float Encode junk column c0 c log data.
  assert (OffringaWeightColumn.Prepare junk 32 c0 = Return (c, log)) as HP
    by reflexivity.
  split; [exact HP|].
  apply (unsupported_width_stores_uninitialised_bytes Encode junk 32 c0 c log ∅ 7
           data HP); [done|done|done|done|simpl; lia].
Defined.
